(** * MCP Tool Hub: credential lifecycle and resilient-call core

    A shallow embedding of the TypeScript sources
      - [src/utils/http.ts]         ([httpWithRetry]),
      - [src/storage/tokenStore.ts] ([TokenStore], [InMemoryTokenStore]),
      - [src/storage/usageStore.ts] ([UsageStore], [InMemoryUsageStore]),
      - [src/core/provider.ts]      ([Provider]),
      - [src/core/registry.ts]      ([ProviderRegistry]),
      - [src/integrations/notion.ts] ([NotionProvider])
    together with the properties of the specification that concern them
    and further properties of the same code.  The provider reaches its
    stores through their interfaces: the properties that do not name
    the in-memory stores hold for every implementation, the
    Postgres-backed ones included, whose queries are not modelled.  The
    authorize route, the mounting of the routes, the dispatcher and the
    server wiring of [src/index.ts] are outside the embedding.

    Asynchronous code is modelled in direct style: every [await] is a
    sequencing point of a state-and-exception monad [M].  Everything the
    code obtains from its environment (the network, [Math.random],
    [Date]) is read from an oracle stored in the [World], so that the
    theorems quantify over every behaviour of the environment.  A run
    also yields the list of the effects it performed, on which the
    properties about how often something happens are stated. *)

From Stdlib Require Import Ascii String QArith Qround.
From stdpp Require Import gmap strings list fin_maps pretty.

Set Warnings "-register-all".

Open Scope string_scope.
Open Scope list_scope.
Open Scope Z_scope.

(** ** JavaScript values *)

(** The values that flow through the [any]-typed parts of the program:
    the payloads produced by [JSON.parse], request bodies and the fields
    of records copied out of such payloads.  Numbers are restricted to
    integers; objects are association lists in insertion order. *)
Inductive JsValue : Type :=
| JUndefined
| JNull
| JBool (b : bool)
| JNum (n : Z)
| JStr (s : string)
| JArr (items : list JsValue)
| JObj (fields : list (string * JsValue)).

(** Truthiness, as tested by [if (v)], [!v], [a || b] and [c ? x : y]. *)
Definition truthy (v : JsValue) : bool :=
  match v with
  | JUndefined | JNull => false
  | JBool b => b
  | JNum n => negb (n =? 0)
  | JStr s => negb (String.eqb s "")
  | JArr _ | JObj _ => true
  end.

(** [a || b] *)
Definition js_or (a b : JsValue) : JsValue := if truthy a then a else b.

Definition nullish (v : JsValue) : bool :=
  match v with
  | JUndefined | JNull => true
  | _ => false
  end.

(** [a ?? b] *)
Definition js_coalesce (a b : JsValue) : JsValue := if nullish a then b else a.

(** [Array.isArray(v)] *)
Definition Array_isArray (v : JsValue) : bool :=
  match v with
  | JArr _ => true
  | _ => false
  end.

Fixpoint assoc (k : string) (l : list (string * JsValue)) : JsValue :=
  match l with
  | [] => JUndefined
  | (k', v) :: l' => if String.eqb k k' then v else assoc k l'
  end.

(** String conversion, as performed by template literals and by
    [Array.prototype.join]: [String(v)]. *)
Fixpoint js_String (v : JsValue) : string :=
  match v with
  | JUndefined => "undefined"
  | JNull => "null"
  | JBool true => "true"
  | JBool false => "false"
  | JNum n => pretty n
  | JStr s => s
  | JArr items =>
      String.concat ","
        (List.map (fun x => if nullish x then "" else js_String x) items)
  | JObj _ => "[object Object]"
  end.

(** [arr.join(sep)]: [undefined] and [null] elements render as the
    empty string. *)
Definition Array_join (sep : string) (items : list JsValue) : string :=
  String.concat sep
    (List.map (fun x => if nullish x then "" else js_String x) items).

(** ** Exceptions *)

(** Thrown values are [Error] objects: a [name] and a [message]. *)
Record Exn : Type := MkExn { exn_name : string; exn_message : string }.

(** [new Error(msg)] *)
Definition Error (msg : string) : Exn := MkExn "Error" msg.

(** [String(e)], i.e. [Error.prototype.toString]. *)
Definition String_of_exn (e : Exn) : string :=
  if String.eqb (exn_name e) "" then exn_message e
  else if String.eqb (exn_message e) "" then exn_name e
  else exn_name e +:+ ": " +:+ exn_message e.

(** The [TypeError] raised when a property of [undefined] or [null] is
    read. *)
Definition TypeError_read (v : JsValue) (k : string) : Exn :=
  MkExn "TypeError"
    ("Cannot read properties of " +:+ js_String v +:+ " (reading '" +:+ k +:+ "')").

(** ** Built-in functions taken as parameters *)

(** [JSON.parse] answers [None] where JavaScript raises a [SyntaxError];
    [JSON_stringify_2 v] is [JSON.stringify(v, null, 2)]; [base64 s] is
    [Buffer.from(s).toString("base64")]. *)
Class Builtins : Type := {
  JSON_parse : string -> option JsValue;
  JSON_stringify : JsValue -> string;
  JSON_stringify_2 : JsValue -> string;
  base64 : string -> string
}.

(** ** Numbers read from text *)

(** The Number nearest to the integer [z], a tie going to the even
    significand: the rounding of binary64 arithmetic.  Every integer
    below 2^53 in absolute value is its own Number.  [None] is the
    result when it is an infinity. *)
Definition binary64 (z : Z) : option Z :=
  let a := Z.abs z in
  let e := Z.log2 a - 52 in
  if e <=? 0 then Some z
  else
    let q := Z.shiftr a e in
    let r := Z.land a (Z.ones e) in
    let half := Z.shiftl 1 (e - 1) in
    let q' := if (half <? r) || ((r =? half) && Z.odd q) then q + 1 else q in
    let v := Z.shiftl q' e in
    if Z.shiftl 1 1024 <=? v then None else Some (Z.sgn z * v).

(** [x * y] on Numbers that are integers or not finite: [None] stands
    for a value that is not a finite number, [NaN] or an infinity.  The
    sign of a zero is not kept. *)
Definition Number_mul (x y : option Z) : option Z :=
  match x, y with
  | Some a, Some b => binary64 (a * b)
  | _, _ => None
  end.

(** [parseInt(s, 10)]: leading white space, an optional sign, then the
    longest run of decimal digits, all of which count; the result is
    the Number nearest to the integer they write, and [NaN] without a
    digit.  A character of a string is one code unit below 256, as in
    the value of a header: the white space among them is the tab, the
    line feed, the vertical tab, the form feed, the carriage return,
    the space and the no-break space. *)
Definition is_space (a : Ascii.ascii) : bool :=
  let n := nat_of_ascii a in
  (n =? 32)%nat || ((9 <=? n)%nat && (n <=? 13)%nat) || (n =? 160)%nat.

Fixpoint skip_spaces (s : string) : string :=
  match s with
  | String a s' => if is_space a then skip_spaces s' else s
  | EmptyString => s
  end.

Definition digit_of (a : Ascii.ascii) : option Z :=
  let n := nat_of_ascii a in
  if ((48 <=? n)%nat && (n <=? 57)%nat)%bool then Some (Z.of_nat n - 48) else None.

Fixpoint parse_digits (s : string) (acc : option Z) : option Z :=
  match s with
  | String a s' =>
      match digit_of a with
      | Some d => parse_digits s' (Some (10 * default 0 acc + d))
      | None => acc
      end
  | EmptyString => acc
  end.

Definition parseInt (s : string) : option Z :=
  match skip_spaces s with
  | String "-"%char s' => parse_digits s' None ≫= (fun n => binary64 (- n))
  | String "+"%char s' => parse_digits s' None ≫= binary64
  | s' => parse_digits s' None ≫= binary64
  end.

(** ** Records of the data model *)

(** [TokenRecord] of [src/storage/tokenStore.ts].  The fields that the
    callers fill from an [any]-typed payload hold a [JsValue]; an absent
    optional field is [JUndefined].  A time stamp is the number of
    milliseconds since the epoch whose [toISOString()] rendering the
    source stores; [None] is an absent stamp. *)
Module Token.
Inductive Provider : Type := notion.

Definition Provider_text (p : Provider) : string :=
  match p with notion => "notion" end.

Record TokenRecord : Type := {
  provider : Provider;
  subject : JsValue;
  access_token : JsValue;
  refresh_token : JsValue;
  expires_at : JsValue;
  scope : JsValue;
  workspace_id : JsValue;
  workspace_name : JsValue;
  bot_id : JsValue;
  raw : JsValue;
  created_at : option Z;
  updated_at : option Z
}.

(** [{ ...record, updated_at: u, created_at: c }] *)
Definition stamped (record : TokenRecord) (u c : Z) : TokenRecord :=
  {| provider := provider record;
     subject := subject record;
     access_token := access_token record;
     refresh_token := refresh_token record;
     expires_at := expires_at record;
     scope := scope record;
     workspace_id := workspace_id record;
     workspace_name := workspace_name record;
     bot_id := bot_id record;
     raw := raw record;
     created_at := Some c;
     updated_at := Some u |}.
End Token.

(** [UsageRecord] of [src/storage/usageStore.ts]; [None] is an absent
    optional field. *)
Module Usage.
Record UsageRecord : Type := {
  provider : string;
  tool_name : string;
  subject : option string;
  success : bool;
  latency_ms : option Z;
  error_message : option string
}.
End Usage.

(** ** The environment *)

(** The settlement of a promise. *)
Inductive Settled (A : Type) : Type :=
| Fulfilled (a : A)
| Rejected (e : Exn).
Arguments Fulfilled {A} a.
Arguments Rejected {A} e.

Record Request : Type := {
  req_method : string;
  req_url : string;
  req_headers : list (string * string);
  req_body : option string
}.

(** What [fetch] resolves to.  [text] is the settlement of [res.text()];
    header names are in lower case. *)
Module Response.
Record Response : Type := {
  status : Z;
  headers : list (string * string);
  text : Settled string
}.

(** [res.ok] *)
Definition ok (res : Response) : bool :=
  (200 <=? status res) && (status res <=? 299).

(** [res.headers.get(name)] *)
Fixpoint get (name : string) (hs : list (string * string)) : option string :=
  match hs with
  | [] => None
  | (k, v) :: hs' => if String.eqb k name then Some v else get name hs'
  end.
End Response.

(** The observable effects of a run, in the order in which they happen.
    [EvSend] marks one call of [httpWithRetry]; each [fetch] it performs
    is an [EvFetch]; the delay of an [EvSleep] is [None] when it is not
    a finite number.  [EvGetToken], [EvUpsertToken] and [EvLog] mark
    the calls that the program makes of the methods of its stores:
    [getToken] for the provider and the subject that make [key],
    [upsertToken] with [record], whose provider and subject make [key],
    and [log] with [rec]. *)
Inductive Event : Type :=
| EvSend (method url : string) (body : JsValue)
| EvFetch (req : Request)
| EvSleep (ms : option Z)
| EvGetToken (key : string)
| EvUpsertToken (key : string) (record : Token.TokenRecord)
| EvLog (rec : Usage.UsageRecord).

(** The mutable state of the process and the oracles of its
    environment.  The [n]-th [fetch] of a run is answered by
    [network n], the [n]-th [Math.random()] by [random n], the [n]-th
    reading of the clock by [clock n]. *)
Record World : Type := {
  network : nat -> Request -> Settled Response.Response;
  fetches : nat;
  random : nat -> Q;
  draws : nat;
  clock : nat -> Z;
  ticks : nat;
  tokens : gmap string Token.TokenRecord;   (* InMemoryTokenStore.map *)
  arr : list Usage.UsageRecord;             (* InMemoryUsageStore.arr *)
  pkceByState : gmap string string          (* NotionProvider.pkceByState *)
}.

Definition set_fetches (n : nat) (w : World) : World :=
  {| network := network w; fetches := n; random := random w; draws := draws w;
     clock := clock w; ticks := ticks w; tokens := tokens w; arr := arr w;
     pkceByState := pkceByState w |}.

Definition set_draws (n : nat) (w : World) : World :=
  {| network := network w; fetches := fetches w; random := random w; draws := n;
     clock := clock w; ticks := ticks w; tokens := tokens w; arr := arr w;
     pkceByState := pkceByState w |}.

Definition set_ticks (n : nat) (w : World) : World :=
  {| network := network w; fetches := fetches w; random := random w; draws := draws w;
     clock := clock w; ticks := n; tokens := tokens w; arr := arr w;
     pkceByState := pkceByState w |}.

Definition set_tokens (m : gmap string Token.TokenRecord) (w : World) : World :=
  {| network := network w; fetches := fetches w; random := random w; draws := draws w;
     clock := clock w; ticks := ticks w; tokens := m; arr := arr w;
     pkceByState := pkceByState w |}.

Definition set_arr (l : list Usage.UsageRecord) (w : World) : World :=
  {| network := network w; fetches := fetches w; random := random w; draws := draws w;
     clock := clock w; ticks := ticks w; tokens := tokens w; arr := l;
     pkceByState := pkceByState w |}.

Definition set_pkceByState (m : gmap string string) (w : World) : World :=
  {| network := network w; fetches := fetches w; random := random w; draws := draws w;
     clock := clock w; ticks := ticks w; tokens := tokens w; arr := arr w;
     pkceByState := m |}.

(** ** The monad of asynchronous computations *)

(** A run from a world: how the promise settles, the world it leaves and
    the events it emitted. *)
#[projections(primitive)]
Record Run (A : Type) : Type := Ran {
  settled : Settled A;
  final : World;
  emitted : list Event
}.
Arguments Ran {A} settled final emitted.
Arguments settled {A} r.
Arguments final {A} r.
Arguments emitted {A} r.

Definition M (A : Type) : Type := World -> Run A.

Definition ret {A} (a : A) : M A := fun w => Ran (Fulfilled a) w [].

(** [throw e] *)
Definition throw {A} (e : Exn) : M A := fun w => Ran (Rejected e) w [].

Definition bind {A B} (m : M A) (k : A -> M B) : M B := fun w =>
  let r := m w in
  match settled r with
  | Fulfilled a =>
      let r' := k a (final r) in
      Ran (settled r') (final r') (emitted r ++ emitted r')
  | Rejected e => Ran (Rejected e) (final r) (emitted r)
  end.

(** [try { m } catch (e) { h e }] *)
Definition try_catch {A} (m : M A) (h : Exn -> M A) : M A := fun w =>
  let r := m w in
  match settled r with
  | Fulfilled _ => r
  | Rejected e =>
      let r' := h e (final r) in
      Ran (settled r') (final r') (emitted r ++ emitted r')
  end.

(** [try { m } finally { fin }]: [fin] runs however [m] completes, and
    the completion of [m] stands unless [fin] itself throws. *)
Definition try_finally {A} (m : M A) (fin : M unit) : M A := fun w =>
  let r := m w in
  let r' := fin (final r) in
  match settled r' with
  | Fulfilled _ => Ran (settled r) (final r') (emitted r ++ emitted r')
  | Rejected e => Ran (Rejected e) (final r') (emitted r ++ emitted r')
  end.

Notation "x <- c1 ;; c2" := (bind c1 (fun x => c2))
  (at level 100, c1 at next level, right associativity).
Notation "c1 ;; c2" := (bind c1 (fun _ => c2))
  (at level 100, right associativity).

Definition emit (e : Event) : M unit := fun w => Ran (Fulfilled tt) w [e].

Definition gets {A} (f : World -> A) : M A := fun w => Ran (Fulfilled (f w)) w [].

Definition modify (f : World -> World) : M unit := fun w => Ran (Fulfilled tt) (f w) [].

(** Settling a promise obtained from the environment. *)
Definition await {A} (p : Settled A) : M A :=
  match p with
  | Fulfilled a => ret a
  | Rejected e => throw e
  end.

(** [await fetch(url, { method, headers, body })] *)
Definition fetch (req : Request) : M Response.Response :=
  emit (EvFetch req) ;;
  w <- gets id ;;
  modify (set_fetches (S (fetches w))) ;;
  await (network w (fetches w) req).

(** [Math.random()] *)
Definition Math_random : M Q :=
  w <- gets id ;;
  modify (set_draws (S (draws w))) ;;
  ret (random w (draws w)).

(** [Date.now()], also the instant read by [new Date()]. *)
Definition Date_now : M Z :=
  w <- gets id ;;
  modify (set_ticks (S (ticks w))) ;;
  ret (clock w (ticks w)).

(** [await sleep(ms)] of [src/utils/http.ts]. *)
Definition sleep (ms : option Z) : M unit := emit (EvSleep ms).

(** [await obj.method(args)] on an object that the caller holds by its
    interface: the call settles and leaves a world; what the object
    does inside is not among the events of the caller's run. *)
Definition call {A} (m : M A) : M A := fun w =>
  let r := m w in
  Ran (settled r) (final r) [].

(** Reading [v.k]: a [TypeError] on [undefined] and [null], the field of
    an object, [undefined] on every other value. *)
Definition prop (v : JsValue) (k : string) : M JsValue :=
  match v with
  | JUndefined | JNull => throw (TypeError_read v k)
  | JObj fields => ret (assoc k fields)
  | _ => ret JUndefined
  end.

(** ** [src/utils/http.ts] *)

(** [RetryOptions]; [None] is an option left out.  [retries] is a
    count, and the two delays are whole milliseconds. *)
Record RetryOptions : Type := {
  retries : option nat;
  baseDelayMs : option Z;
  maxDelayMs : option Z
}.

(** The object [{ ok, status, json }] that [httpWithRetry] returns. *)
Record HttpResult : Type := {
  ok : bool;
  status : Z;
  json : JsValue
}.

(** [[429, 500, 502, 503, 504].includes(status)] *)
Definition retryable_status (s : Z) : bool :=
  existsb (Z.eqb s) [429; 500; 502; 503; 504].

(** [Math.min(maxDelay, baseDelay * Math.pow(2, attempt) +
    Math.floor(Math.random()*100))], the expression of lines 33 and 41. *)
Definition backoff (maxDelay baseDelay : Z) (attempt : nat) : M Z :=
  r <- Math_random ;;
  ret (Z.min maxDelay (baseDelay * 2 ^ Z.of_nat attempt + Qfloor (r * 100)%Q)).

(** [{ ok: false, status: 0, json: { error: String(lastErr) } }];
    [lastErr] is [null] until a [fetch] has failed. *)
Definition network_error (lastErr : option Exn) : HttpResult :=
  {| ok := false;
     status := 0;
     json := JObj [("error",
                    JStr (match lastErr with
                          | Some e => String_of_exn e
                          | None => "null"
                          end))] |}.

(** How one turn of the [for] loop ends: by [continue], with the value
    of [lastErr], or by [return]. *)
Inductive Flow : Type :=
| Continue (lastErr : option Exn)
| Return (r : HttpResult).

Section Http.
Context `{Builtins}.

(** [text ? JSON.parse(text) : null], with [{ raw: text }] when
    [JSON.parse] throws. *)
Definition parse_body (text : string) : JsValue :=
  if String.eqb text "" then JNull
  else match JSON_parse text with
       | Some v => v
       | None => JObj [("raw", JStr text)]
       end.

Section Loop.
Variables (method url : string) (headers : list (string * string)).
Variables (body : JsValue) (nretries : nat) (baseDelay maxDelay : Z).

(** The body of the [for] loop, lines 24 to 46. *)
Definition iteration (attempt : nat) (lastErr : option Exn) : M Flow :=
  try_catch
    (res <- fetch {| req_method := method;
                     req_url := url;
                     req_headers := headers;
                     req_body := if truthy body
                                 then Some (JSON_stringify body)
                                 else None |} ;;
     text <- await (Response.text res) ;;
     let json := parse_body text in
     if retryable_status (Response.status res) && (attempt <? nretries)%nat
     then
       let ra := Response.get "retry-after" (Response.headers res) in
       delay <- match ra with
                | Some s =>
                    if String.eqb s "" then
                      d <- backoff maxDelay baseDelay attempt ;; ret (Some d)
                    else ret (Number_mul (parseInt s) (Some 1000))
                | None =>
                    d <- backoff maxDelay baseDelay attempt ;; ret (Some d)
                end ;;
       sleep delay ;;
       ret (Continue lastErr)
     else
       ret (Return {| ok := Response.ok res;
                      status := Response.status res;
                      json := json |}))
    (fun e =>
       if (attempt <? nretries)%nat then
         delay <- backoff maxDelay baseDelay attempt ;;
         sleep (Some delay) ;;
         ret (Continue (Some e))
       else ret (Return (network_error (Some e)))).

(** [for (let attempt = ...; attempt <= retries; attempt++) { ... }]
    followed by the [return] of line 48; [turns] is the number of
    turns left before [attempt] exceeds [retries]. *)
Fixpoint attempts (turns attempt : nat) (lastErr : option Exn) : M HttpResult :=
  match turns with
  | O => ret (network_error lastErr)
  | S turns' =>
      flow <- iteration attempt lastErr ;;
      match flow with
      | Continue lastErr' => attempts turns' (S attempt) lastErr'
      | Return r => ret r
      end
  end.
End Loop.

(** [httpWithRetry(method, url, headers, body, opts)].  The [EvSend]
    that opens the run records the call itself, so that calls can be
    told from the attempts they are made of. *)
Definition httpWithRetry (method url : string) (headers : list (string * string))
    (body : JsValue) (opts : RetryOptions) : M HttpResult :=
  let retries := default 3%nat (retries opts) in
  let baseDelay := default 300 (baseDelayMs opts) in
  let maxDelay := default 3000 (maxDelayMs opts) in
  emit (EvSend method url body) ;;
  attempts method url headers body retries baseDelay maxDelay (S retries) 0 None.

End Http.

(** ** [src/storage/tokenStore.ts] *)

(** The interface [TokenStore]: the two methods that every credential
    store has.  [src/index.ts] hands the provider an
    [InMemoryTokenStore] or, when a database is configured, a
    [PostgresTokenStore], whose methods settle as the queries that they
    send to the database do. *)
Module TokenStore.
Record TokenStore : Type := {
  upsertToken : Token.TokenRecord -> M unit;
  getToken : Token.Provider -> JsValue -> M (option Token.TokenRecord)
}.
End TokenStore.

(** *** [InMemoryTokenStore], whose map is [tokens] of the world *)

(** [`${provider}:${subject}`] *)
Definition token_key (provider : Token.Provider) (subject : JsValue) : string :=
  Token.Provider_text provider +:+ ":" +:+ js_String subject.

(** [upsertToken(record)]: the stored object is [record] with
    [updated_at] set to the clock and [created_at] taken from the entry
    already under the key, or else read from the clock in turn. *)
Definition upsertToken (record : Token.TokenRecord) : M unit :=
  let key := token_key (Token.provider record) (Token.subject record) in
  updated <- Date_now ;;
  m <- gets tokens ;;
  created <- match m !! key ≫= Token.created_at with
             | Some c => ret c
             | None => Date_now
             end ;;
  let stored := Token.stamped record updated created in
  modify (set_tokens (<[key := stored]> m)).

(** The default parameter [subject = 'default'] applies to [undefined]
    only. *)
Definition subject_or_default (subject : JsValue) : JsValue :=
  match subject with
  | JUndefined => JStr "default"
  | _ => subject
  end.

(** [getToken(provider, subject = 'default')]; [None] is [null]. *)
Definition getToken (provider : Token.Provider) (subject : JsValue)
    : M (option Token.TokenRecord) :=
  let key := token_key provider (subject_or_default subject) in
  m <- gets tokens ;;
  ret (m !! key).

Definition InMemoryTokenStore : TokenStore.TokenStore :=
  {| TokenStore.upsertToken := upsertToken;
     TokenStore.getToken := getToken |}.

(** ** [src/storage/usageStore.ts] *)

(** The names of the properties that an object literal inherits from
    [Object.prototype]. *)
Definition Object_prototype : list string :=
  ["constructor"; "__defineGetter__"; "__defineSetter__"; "hasOwnProperty";
   "__lookupGetter__"; "__lookupSetter__"; "isPrototypeOf"; "propertyIsEnumerable";
   "toString"; "valueOf"; "__proto__"; "toLocaleString"].

Definition inherited (k : string) : bool := existsb (String.eqb k) Object_prototype.

(** What an entry of the tables [byProvider] and [byTool] holds: a
    number, or the string that [+ 1] makes of a value that is not a
    number. *)
Inductive Count : Type :=
| Num (n : Z)
| Text.

(** [o[k] = (o[k] || 0) + 1] on a table that was created as [{}].  An
    own entry is read first.  Under a name that the table inherits the
    read gives a function or an object, which is truthy, and [+ 1]
    makes a string of it; that string is stored as an own entry, except
    under [__proto__], where the assignment of a string is ignored. *)
Definition increment (k : string) (o : gmap string Count) : gmap string Count :=
  match o !! k with
  | Some (Num n) => <[k := Num ((if n =? 0 then 0 else n) + 1)]> o
  | Some Text => <[k := Text]> o
  | None =>
      if String.eqb k "__proto__" then o
      else if inherited k then <[k := Text]> o
      else <[k := Num 1]> o
  end.

(** The [for] loop of [stats], lines 127 to 131. *)
Fixpoint tally (rs : list Usage.UsageRecord) (byProvider byTool : gmap string Count)
    : gmap string Count * gmap string Count :=
  match rs with
  | [] => (byProvider, byTool)
  | r :: rs' =>
      let key := Usage.provider r +:+ ":" +:+ Usage.tool_name r in
      tally rs' (increment (Usage.provider r) byProvider) (increment key byTool)
  end.

(** The object [{ total, byProvider, byTool }]. *)
Record Stats : Type := {
  total : Z;
  byProvider : gmap string Count;
  byTool : gmap string Count
}.

(** The interface [UsageStore]: the two methods that every usage store
    has.  [src/index.ts] hands the provider an [InMemoryUsageStore] or,
    when a database is configured, a [PostgresUsageStore], whose [log]
    settles as the insertion that it sends to the database does. *)
Record UsageStore : Type := {
  log : Usage.UsageRecord -> M unit;
  stats : M Stats
}.

(** [InMemoryUsageStore], whose array is [arr] of the world: [log(rec)]
    is [this.arr.push(rec)], and [stats()] counts the array. *)
Definition InMemoryUsageStore : UsageStore :=
  {| log := fun rec => modify (fun w => set_arr (arr w ++ [rec]) w);
     stats :=
       rs <- gets arr ;;
       let tables := tally rs ∅ ∅ in
       ret {| total := Z.of_nat (length rs);
              byProvider := fst tables;
              byTool := snd tables |} |}.

(** ** [src/core/provider.ts] *)

(** One element of [CallToolResult.content]. *)
Record ContentItem : Type := { type : string; text : string }.

(** [CallToolResult], as the handlers build it. *)
Record CallToolResult : Type := { content : list ContentItem }.

Module ToolSpec.
(** [inputSchema] is kept as the list of the fields the schema
    declares, each with the text of its zod type. *)
Record ToolSpec : Type := {
  name : string;
  title : string;
  description : string;
  inputSchema : list (string * string);
  handler : JsValue -> M CallToolResult
}.
End ToolSpec.

(** The state of a [Provider] object. *)
Record Provider : Type := {
  name : string;
  tools : list ToolSpec.ToolSpec;
  usage : option UsageStore
}.

(** [toolFullName(t)] *)
Definition toolFullName (p : Provider) (t : ToolSpec.ToolSpec) : string :=
  name p +:+ "." +:+ ToolSpec.name t.

(** [registerTool(spec)]: [this.tools.push(spec)] *)
Definition registerTool (spec : ToolSpec.ToolSpec) (p : Provider) : Provider :=
  {| name := name p; tools := tools p ++ [spec]; usage := usage p |}.

(** [e?.message || String(e)] *)
Definition error_text (e : Exn) : string :=
  if String.eqb (exn_message e) "" then String_of_exn e else exn_message e.

(** [await this.usage?.log(rec)]: without a usage store the argument is
    not evaluated, so the clock is not read. *)
Definition usage_log (p : Provider) (rec : Z -> Usage.UsageRecord) : M unit :=
  match usage p with
  | Some store =>
      now <- Date_now ;;
      emit (EvLog (rec now)) ;;
      call (log store (rec now))
  | None => ret tt
  end.

(** The handler that [registerAll] binds to [toolFullName(t)], lines 40
    to 50. *)
Definition instrumented (p : Provider) (t : ToolSpec.ToolSpec) (args : JsValue)
    : M CallToolResult :=
  start <- Date_now ;;
  try_catch
    (out <- ToolSpec.handler t args ;;
     usage_log p (fun now =>
       {| Usage.provider := name p;
          Usage.tool_name := ToolSpec.name t;
          Usage.subject := None;
          Usage.success := true;
          Usage.latency_ms := Some (now - start);
          Usage.error_message := None |}) ;;
     ret out)
    (fun e =>
       usage_log p (fun now =>
         {| Usage.provider := name p;
            Usage.tool_name := ToolSpec.name t;
            Usage.subject := None;
            Usage.success := false;
            Usage.latency_ms := Some (now - start);
            Usage.error_message := Some (error_text e) |}) ;;
       throw e).

(** What [McpServer.registerTool(name, meta, handler)] records. *)
Record Registration : Type := {
  reg_name : string;
  reg_title : string;
  reg_description : string;
  reg_inputSchema : list (string * string);
  reg_handler : JsValue -> M CallToolResult
}.

(** [server.registerTool(name, meta, handler)] of the MCP SDK.  An
    [McpServer] is the list of the registrations made on it.  It looks
    the name up in an object that was created as [{}] and throws when
    it finds something there: a name can be registered once. *)
Definition McpServer_registerTool (reg : Registration) (server : list Registration)
    : Exn + list Registration :=
  if inherited (reg_name reg) ||
     existsb (String.eqb (reg_name reg)) (List.map reg_name server)
  then inl (Error ("Tool " +:+ reg_name reg +:+ " is already registered"))
  else inr (server ++ [reg]).

(** The call of [server.registerTool] for the tool [t], lines 36 to
    50. *)
Definition registration (p : Provider) (t : ToolSpec.ToolSpec) : Registration :=
  {| reg_name := toolFullName p t;
     reg_title := ToolSpec.title t;
     reg_description := ToolSpec.description t;
     reg_inputSchema := ToolSpec.inputSchema t;
     reg_handler := instrumented p t |}.

(** The [for] loop of [registerAll] over the tools [ts]: the server as
    the loop leaves it, and what it threw.  The loop ends at the first
    registration that the server turns down. *)
Fixpoint register_tools (p : Provider) (ts : list ToolSpec.ToolSpec)
    (server : list Registration) : list Registration * option Exn :=
  match ts with
  | [] => (server, None)
  | t :: ts' =>
      match McpServer_registerTool (registration p t) server with
      | inr server' => register_tools p ts' server'
      | inl e => (server, Some e)
      end
  end.

(** [registerAll(server)] *)
Definition registerAll (p : Provider) (server : list Registration)
    : list Registration * option Exn :=
  register_tools p (tools p) server.

(** One element of the array that [listTools()] returns;
    [inputSchema] holds [t.inputSchema._def], for which the list of
    the declared fields stands as in [ToolSpec]. *)
Module Listed.
Record Listed : Type := {
  name : string;
  description : string;
  inputSchema : list (string * string)
}.
End Listed.

(** [listTools()] *)
Definition listTools (p : Provider) : list Listed.Listed :=
  List.map (fun t =>
              {| Listed.name := toolFullName p t;
                 Listed.description := ToolSpec.description t;
                 Listed.inputSchema := ToolSpec.inputSchema t |})
           (tools p).

(** ** [src/core/registry.ts] *)

(** A [ProviderRegistry] object is its array [providers]. *)
Module ProviderRegistry.
Definition ProviderRegistry : Type := list Provider.

(** [add(p)]: [this.providers.push(p)] *)
Definition add (p : Provider) (r : ProviderRegistry) : ProviderRegistry := r ++ [p].

(** [registerAll(server)]: [for (const p of this.providers)
    p.registerAll(server)].  An error of a provider ends the loop. *)
Definition registerAll (r : ProviderRegistry) (server : list Registration)
    : list Registration * option Exn :=
  fold_left (fun done p =>
               match snd done with
               | None => registerAll p (fst done)
               | Some _ => done
               end)
            r (server, None).

(** [listTools()]: [this.providers.flatMap(p => p.listTools())] *)
Definition listTools (r : ProviderRegistry) : list Listed.Listed :=
  flat_map listTools r.

(** [list()] *)
Definition list (r : ProviderRegistry) : ProviderRegistry := r.
End ProviderRegistry.

(** ** [src/integrations/notion.ts] *)

Definition NOTION_API : string := "https://api.notion.com/v1".
Definition NOTION_VERSION : string := "2022-06-28".

(** [NotionConfig]; [None] is an optional field left out. *)
Record NotionConfig : Type := {
  clientId : string;
  clientSecret : string;
  redirectUri : string;
  staticToken : option string;
  usePkce : option bool
}.

(** What a route handler sends: [res.status(code).send(text)]. *)
Record Reply : Type := { reply_status : Z; reply_text : string }.

(** [v.k] on a value known not to be [undefined] or [null]. *)
Definition field (v : JsValue) (k : string) : JsValue :=
  match v with
  | JObj fields => assoc k fields
  | _ => JUndefined
  end.

(** [Array.isArray(scope) ? scope.join(" ") : (alt)] *)
Definition scope_text (scope alt : JsValue) : JsValue :=
  match scope with
  | JArr items => JStr (Array_join " " items)
  | _ => alt
  end.

Section Notion.
Context `{Builtins}.
Variable cfg : NotionConfig.      (* this.cfg *)
Variable store : TokenStore.TokenStore.   (* this.store *)

(** [if (this.cfg.staticToken)] *)
Definition static_token : option string :=
  match staticToken cfg with
  | Some s => if String.eqb s "" then None else Some s
  | None => None
  end.

(** [if (this.cfg.usePkce)] *)
Definition pkce : bool := default false (usePkce cfg).

(** [basicAuthHeader(id, secret)] *)
Definition basicAuthHeader (id secret : string) : string :=
  "Basic " +:+ base64 (id +:+ ":" +:+ secret).

(** [notionFetch(token, endpoint, method, data)] *)
Definition notionFetch (token : JsValue) (endpoint method : string) (data : JsValue)
    : M HttpResult :=
  let headers := [("Authorization", "Bearer " +:+ js_String token);
                  ("Notion-Version", NOTION_VERSION);
                  ("Content-Type", "application/json")] in
  httpWithRetry method (NOTION_API +:+ "/" +:+ endpoint) headers data
    {| retries := Some 3%nat; baseDelayMs := None; maxDelayMs := None |}.

(** [getAccessToken(subject)]: the pair [{ token, rec }]. *)
Definition getAccessToken (subject : JsValue)
    : M (JsValue * option Token.TokenRecord) :=
  match static_token with
  | Some t => ret (JStr t, None)
  | None =>
      let s := js_or subject (JStr "default") in
      emit (EvGetToken (token_key Token.notion s)) ;;
      rec <- call (TokenStore.getToken store Token.notion s) ;;
      match rec with
      | None =>
          throw (Error ("No Notion token for subject '" +:+ js_String s +:+
                        "'. Visit /auth/notion or set NOTION_STATIC_TOKEN."))
      | Some rec => ret (Token.access_token rec, Some rec)
      end
  end.

(** [upsertFromRefresh(old, refreshed)] *)
Definition upsertFromRefresh (old : Token.TokenRecord) (refreshed : JsValue) : M unit :=
  access_token <- prop refreshed "access_token" ;;
  refresh_token <- prop refreshed "refresh_token" ;;
  scope <- prop refreshed "scope" ;;
  workspace_id <- prop refreshed "workspace_id" ;;
  workspace_name <- prop refreshed "workspace_name" ;;
  bot_id <- prop refreshed "bot_id" ;;
  let rec :=
    {| Token.provider := Token.notion;
       Token.subject := Token.subject old;
       Token.access_token := access_token;
       Token.refresh_token := js_coalesce refresh_token (Token.refresh_token old);
       Token.expires_at := JUndefined;
       Token.scope := scope_text scope (js_or (js_or scope (Token.scope old)) JNull);
       Token.workspace_id := js_coalesce workspace_id (Token.workspace_id old);
       Token.workspace_name := js_coalesce workspace_name (Token.workspace_name old);
       Token.bot_id := js_coalesce bot_id (Token.bot_id old);
       Token.raw := refreshed;
       Token.created_at := None;
       Token.updated_at := None |} in
  emit (EvUpsertToken (token_key Token.notion (Token.subject old)) rec) ;;
  call (TokenStore.upsertToken store rec).

(** [`${NOTION_API}/oauth/token`] *)
Definition token_url : string := NOTION_API +:+ "/oauth/token".

(** [refresh(refresh_token)] *)
Definition refresh (refresh_token : JsValue) : M JsValue :=
  let headers := [("Accept", "application/json");
                  ("Content-Type", "application/json")] ++
                 (if pkce then []
                  else [("Authorization",
                         basicAuthHeader (clientId cfg) (clientSecret cfg))]) in
  let body := JObj [("grant_type", JStr "refresh_token");
                    ("refresh_token", refresh_token)] in
  res <- httpWithRetry "POST" token_url headers body
           {| retries := Some 1%nat; baseDelayMs := None; maxDelayMs := None |} ;;
  if negb (ok res) then
    throw (Error ("Notion refresh failed (" +:+ pretty (status res) +:+ "): " +:+
                  JSON_stringify (json res)))
  else ret (json res).

(** [rec?.refresh_token] *)
Definition refresh_token_of (rec : option Token.TokenRecord) : JsValue :=
  match rec with
  | Some r => Token.refresh_token r
  | None => JUndefined
  end.

(** The block that the five tool handlers share, up to the name of
    the tool, the endpoint, the method and the request body (lines
    50-58, 75-87, 97-105, 122-134 and 149-159). *)
Definition invoke (tool : string) (subject : JsValue) (endpoint method : string)
    (data : JsValue) : M CallToolResult :=
  tr <- getAccessToken subject ;;
  let token := fst tr in
  let rec := snd tr in
  res <- notionFetch token endpoint method data ;;
  res <- (if negb (ok res) && (status res =? 401) && truthy (refresh_token_of rec)
          then
            r <- refresh (refresh_token_of rec) ;;
            match rec with
            | Some old => upsertFromRefresh old r
            | None => ret tt
            end ;;
            access_token <- prop r "access_token" ;;
            notionFetch access_token endpoint method data
          else ret res) ;;
  if negb (ok res) then
    throw (Error (tool +:+ " failed: " +:+ JSON_stringify (json res)))
  else
    ret {| content := [{| type := "text"; text := JSON_stringify_2 (json res) |}] |}.

(** [if (v) body.k = v] *)
Definition optional (k : string) (v : JsValue) : list (string * JsValue) :=
  if truthy v then [(k, v)] else [].

(** The handlers of the five tools.  [args] is the validated input, an
    object; the body of a request is built from its fields. *)
Definition getSelf (args : JsValue) : M CallToolResult :=
  subject <- prop args "subject" ;;
  invoke "getSelf" subject "users/me" "GET" JUndefined.

Definition search (args : JsValue) : M CallToolResult :=
  subject <- prop args "subject" ;;
  let body := JObj ([("query", field args "query");
                     ("page_size", field args "page_size")] ++
                    optional "filter" (field args "filter") ++
                    optional "sort" (field args "sort") ++
                    optional "start_cursor" (field args "start_cursor")) in
  invoke "search" subject "search" "POST" body.

Definition fetchPage (args : JsValue) : M CallToolResult :=
  subject <- prop args "subject" ;;
  invoke "fetchPage" subject ("pages/" +:+ js_String (field args "page_id")) "GET"
    JUndefined.

Definition queryDatabase (args : JsValue) : M CallToolResult :=
  subject <- prop args "subject" ;;
  let body := JObj ([("page_size", field args "page_size")] ++
                    optional "filter" (field args "filter") ++
                    optional "sorts" (field args "sorts") ++
                    optional "start_cursor" (field args "start_cursor")) in
  invoke "queryDatabase" subject
    ("databases/" +:+ js_String (field args "database_id") +:+ "/query") "POST" body.

Definition createPage (args : JsValue) : M CallToolResult :=
  subject <- prop args "subject" ;;
  let body := JObj ([("parent", field args "parent");
                     ("properties", field args "properties")] ++
                    optional "children" (field args "children")) in
  invoke "createPage" subject "pages" "POST" body.

(** The five descriptors that the constructor registers. *)
Definition getSelf_tool : ToolSpec.ToolSpec :=
  {| ToolSpec.name := "getSelf";
     ToolSpec.title := "Notion: Get Bot User";
     ToolSpec.description := "Returns the bot user and workspace for the current token.";
     ToolSpec.inputSchema := [("subject", "string.optional")];
     ToolSpec.handler := getSelf |}.

Definition search_tool : ToolSpec.ToolSpec :=
  {| ToolSpec.name := "search";
     ToolSpec.title := "Notion: Search";
     ToolSpec.description := "Search your Notion workspace";
     ToolSpec.inputSchema := [("subject", "string.optional");
                              ("query", "string.default()");
                              ("filter", "any.optional");
                              ("sort", "any.optional");
                              ("start_cursor", "string.optional");
                              ("page_size", "number.int.min(1).max(100).default(25)")];
     ToolSpec.handler := search |}.

Definition fetchPage_tool : ToolSpec.ToolSpec :=
  {| ToolSpec.name := "fetchPage";
     ToolSpec.title := "Notion: Fetch Page";
     ToolSpec.description := "Fetch page metadata by ID";
     ToolSpec.inputSchema := [("subject", "string.optional"); ("page_id", "string")];
     ToolSpec.handler := fetchPage |}.

Definition queryDatabase_tool : ToolSpec.ToolSpec :=
  {| ToolSpec.name := "queryDatabase";
     ToolSpec.title := "Notion: Query Database";
     ToolSpec.description := "Query a database with optional filter/sort";
     ToolSpec.inputSchema := [("subject", "string.optional");
                              ("database_id", "string");
                              ("filter", "any.optional");
                              ("sorts", "any.optional");
                              ("start_cursor", "string.optional");
                              ("page_size", "number.int.min(1).max(100).default(25)")];
     ToolSpec.handler := queryDatabase |}.

Definition createPage_tool : ToolSpec.ToolSpec :=
  {| ToolSpec.name := "createPage";
     ToolSpec.title := "Notion: Create Page";
     ToolSpec.description := "Create a new page (supply a parent and properties).";
     ToolSpec.inputSchema := [("subject", "string.optional");
                              ("parent", "any");
                              ("properties", "record(any)");
                              ("children", "array(any).optional")];
     ToolSpec.handler := createPage |}.

(** The provider as its constructor leaves it: [super("notion", usage)]
    followed by the five [registerTool] calls. *)
Definition NotionProvider (usage : option UsageStore) : Provider :=
  registerTool createPage_tool
    (registerTool queryDatabase_tool
       (registerTool fetchPage_tool
          (registerTool search_tool
             (registerTool getSelf_tool
                {| name := "notion"; tools := []; usage := usage |})))).

(** [(req.query.k as string) || ""] *)
Definition query_param (v : option string) : string := default "" v.

(** The end of the [try] block of the callback route, lines 210 to
    225, once [headers] and [body] are set: the exchange of the code
    at the token endpoint and the write of the record. *)
Definition exchange (headers : list (string * string))
    (body : list (string * JsValue)) : M Reply :=
  res <- httpWithRetry "POST" token_url headers (JObj body)
           {| retries := Some 1%nat; baseDelayMs := None; maxDelayMs := None |} ;;
  if negb (ok res) then
    throw (Error ("Notion token exchange failed (" +:+ pretty (status res) +:+
                  "): " +:+ JSON_stringify (json res)))
  else
    let json := json res in
    workspace_id <- prop json "workspace_id" ;;
    let subject := js_or workspace_id (JStr "default") in
    let rec :=
      {| Token.provider := Token.notion;
         Token.subject := subject;
         Token.access_token := field json "access_token";
         Token.refresh_token := field json "refresh_token";
         Token.expires_at := JUndefined;
         Token.scope := scope_text (field json "scope")
                          (js_or (field json "scope") JNull);
         Token.workspace_id := field json "workspace_id";
         Token.workspace_name := field json "workspace_name";
         Token.bot_id := field json "bot_id";
         Token.raw := json;
         Token.created_at := None;
         Token.updated_at := None |} in
    emit (EvUpsertToken (token_key Token.notion subject) rec) ;;
    call (TokenStore.upsertToken store rec) ;;
    ret {| reply_status := 200;
           reply_text := "✅ Notion authorized. You can close this tab." |}.

(** The route [GET /oauth/notion/callback], lines 193 to 231.  The
    arguments are [req.query.code] and [req.query.state]. *)
Definition callback (query_code query_state : option string) : M Reply :=
  let code := query_param query_code in
  let state := query_param query_state in
  if String.eqb code "" then ret {| reply_status := 400; reply_text := "Missing code" |}
  else
    try_finally
      (try_catch
         (let headers := [("Accept", "application/json");
                          ("Content-Type", "application/json")] in
          let body := [("grant_type", JStr "authorization_code");
                       ("code", JStr code);
                       ("redirect_uri", JStr (redirectUri cfg))] in
          if pkce then
            m <- gets pkceByState ;;
            match m !! state with
            | Some verifier =>
                if String.eqb verifier "" then
                  ret {| reply_status := 400;
                         reply_text := "Missing PKCE verifier for state" |}
                else exchange headers (body ++ [("code_verifier", JStr verifier)])
            | None =>
                ret {| reply_status := 400;
                       reply_text := "Missing PKCE verifier for state" |}
            end
          else
            exchange
              (headers ++ [("Authorization",
                            basicAuthHeader (clientId cfg) (clientSecret cfg))])
              body)
         (fun e =>
            ret {| reply_status := 500;
                   reply_text := "❌ Notion OAuth failed: " +:+ exn_message e |}))
      (if String.eqb state "" then ret tt
       else modify (fun w => set_pkceByState (delete state (pkceByState w)) w)).

End Notion.

(** ** Reading a run *)

(** The requests fetched, the delays slept, the calls of
    [httpWithRetry] and the calls of the credential store among the
    events of a run. *)
Definition fetched (evs : list Event) : list Request :=
  omap (fun e => match e with EvFetch req => Some req | _ => None end) evs.

Definition slept (evs : list Event) : list (option Z) :=
  omap (fun e => match e with EvSleep ms => Some ms | _ => None end) evs.

Definition sends (evs : list Event) : list Event :=
  List.filter (fun e => match e with EvSend _ _ _ => true | _ => false end) evs.

Definition store_reads (evs : list Event) : list string :=
  omap (fun e => match e with EvGetToken key => Some key | _ => None end) evs.

Definition store_writes (evs : list Event) : list (string * Token.TokenRecord) :=
  omap (fun e => match e with
                 | EvUpsertToken key record => Some (key, record)
                 | _ => None
                 end) evs.

(** The records handed to the usage store. *)
Definition log_calls (evs : list Event) : list Usage.UsageRecord :=
  omap (fun e => match e with EvLog rec => Some rec | _ => None end) evs.

(** What the environment answers to an attempt decides how the attempt
    ends.  [transient o]: the attempt is one that the loop retries, a
    failed [fetch], a body that cannot be read, or a status among the
    five retryable ones. *)
Definition transient (o : Settled Response.Response) : bool :=
  match o with
  | Rejected _ => true
  | Fulfilled res =>
      match Response.text res with
      | Rejected _ => true
      | Fulfilled _ => retryable_status (Response.status res)
      end
  end.

(** The wait that the server asks for: a non-empty [retry-after] header
    on a response whose body was read. *)
Definition hint (o : Settled Response.Response) : option string :=
  match o with
  | Rejected _ => None
  | Fulfilled res =>
      match Response.text res with
      | Rejected _ => None
      | Fulfilled _ =>
          match Response.get "retry-after" (Response.headers res) with
          | Some s => if String.eqb s "" then None else Some s
          | None => None
          end
      end
  end.

(** The number of answers in a row, from the [start]-th on and at most
    [bound], that are transient. *)
Fixpoint leading (net : nat -> Request -> Settled Response.Response) (req : Request)
    (start bound : nat) : nat :=
  match bound with
  | O => O
  | S bound' =>
      if transient (net start req) then S (leading net req (S start) bound') else O
  end.

(** A list of integers that never decreases. *)
Definition nondecreasing (l : list Z) : Prop :=
  forall i j x y, (i <= j)%nat -> l !! i = Some x -> l !! j = Some y -> x <= y.

(** [Math.random()] answers in the interval from 0 (included) to 1
    (excluded). *)
Definition random_in_range (w : World) : Prop :=
  forall n, (0 <= random w n)%Q /\ (random w n < 1)%Q.

(** No answer of the network carries a wait hint. *)
Definition hint_free (w : World) : Prop :=
  forall n req, hint (network w n req) = None.

(** ** The course of one call of [httpWithRetry], read off the oracles *)

Section HttpReading.
Context `{Builtins}.
Variables (method url : string) (headers : list (string * string)).
Variables (body : JsValue) (baseDelay maxDelay : Z).

(** The request that every attempt of the call sends. *)
Definition request_of : Request :=
  {| req_method := method;
     req_url := url;
     req_headers := headers;
     req_body := if truthy body then Some (JSON_stringify body) else None |}.

(** The result with which the loop returns on the answer [o]. *)
Definition observed (o : Settled Response.Response) : HttpResult :=
  match o with
  | Rejected e => network_error (Some e)
  | Fulfilled res =>
      match Response.text res with
      | Rejected e => network_error (Some e)
      | Fulfilled t =>
          {| ok := Response.ok res;
             status := Response.status res;
             json := parse_body t |}
      end
  end.

(** The value of [backoff] for the draw [r]. *)
Definition backoff_value (attempt : nat) (r : Q) : Z :=
  Z.min maxDelay (baseDelay * 2 ^ Z.of_nat attempt + Qfloor (r * 100)%Q).

(** [lastErr] after an attempt that was answered by [o]. *)
Definition carried (lastErr : option Exn) (o : Settled Response.Response) : option Exn :=
  match o with
  | Rejected e => Some e
  | Fulfilled res =>
      match Response.text res with
      | Rejected e => Some e
      | Fulfilled _ => lastErr
      end
  end.

(** The delay slept after a retried attempt answered by [o]. *)
Definition delay_of (w : World) (attempt : nat) (o : Settled Response.Response)
    : option Z :=
  match hint o with
  | Some s => Number_mul (parseInt s) (Some 1000)
  | None => Some (backoff_value attempt (random w (draws w)))
  end.

(** The world after a retried attempt: one more [fetch], and one more
    draw unless the server gave a hint. *)
Definition after_retry (w : World) (o : Settled Response.Response) : World :=
  match hint o with
  | Some _ => set_fetches (S (fetches w)) w
  | None => set_draws (S (draws w)) (set_fetches (S (fetches w)) w)
  end.

(** The events of a call whose retried attempts slept [ds]. *)
Definition attempt_events (ds : list (option Z)) : list Event :=
  concat (List.map (fun d => [EvFetch request_of; EvSleep d]) ds) ++
  [EvFetch request_of].

(** The delays of [n] retried attempts in a row, the first of them
    being attempt number [attempt], and the world they leave. *)
Fixpoint delays (w : World) (attempt n : nat) : list (option Z) :=
  match n with
  | O => []
  | S n' =>
      let o := network w (fetches w) request_of in
      delay_of w attempt o :: delays (after_retry w o) (S attempt) n'
  end.

Fixpoint after_retries (w : World) (n : nat) : World :=
  match n with
  | O => w
  | S n' => after_retries (after_retry w (network w (fetches w) request_of)) n'
  end.
End HttpReading.

(** ** Reading the draws of a call *)

(** The number of answers without a wait hint among the [n] answers
    from the [start]-th on. *)
Fixpoint unhinted (net : nat -> Request -> Settled Response.Response) (req : Request)
    (start n : nat) : nat :=
  match n with
  | O => O
  | S n' =>
      match hint (net start req) with
      | Some _ => O
      | None => 1%nat
      end + unhinted net req (S start) n'
  end.

(** ** Reading the credential store *)

(** [stored] carries the fields of [record] other than the two time
    stamps. *)
Definition same_credential (record stored : Token.TokenRecord) : Prop :=
  Token.provider stored = Token.provider record /\
  Token.subject stored = Token.subject record /\
  Token.access_token stored = Token.access_token record /\
  Token.refresh_token stored = Token.refresh_token record /\
  Token.expires_at stored = Token.expires_at record /\
  Token.scope stored = Token.scope record /\
  Token.workspace_id stored = Token.workspace_id record /\
  Token.workspace_name stored = Token.workspace_name record /\
  Token.bot_id stored = Token.bot_id record /\
  Token.raw stored = Token.raw record.

(** The clock never runs backwards. *)
Definition clock_monotone (w : World) : Prop :=
  forall i j, (i <= j)%nat -> clock w i <= clock w j.

(** Every [updated_at] in the store is a past reading of the clock. *)
Definition stamps_read (w : World) : Prop :=
  forall key stored u,
    tokens w !! key = Some stored ->
    Token.updated_at stored = Some u ->
    exists i, (i < ticks w)%nat /\ u = clock w i.

(** ** Reading a series of writes *)

(** The key under which the store files a record. *)
Definition key_of (record : Token.TokenRecord) : string :=
  token_key (Token.provider record) (Token.subject record).

(** [for (const record of records) await store.upsertToken(record)] *)
Fixpoint upsertAll (records : list Token.TokenRecord) : M unit :=
  match records with
  | [] => ret tt
  | record :: records' => upsertToken record ;; upsertAll records'
  end.

(** The records of a series that are filed under [key]. *)
Definition written_under (key : string) (records : list Token.TokenRecord)
    : list Token.TokenRecord :=
  List.filter (fun record => String.eqb (key_of record) key) records.

(** Every record of the store is filed under the key made of its own
    provider and subject. *)
Definition keyed (m : gmap string Token.TokenRecord) : Prop :=
  forall key stored, m !! key = Some stored -> key_of stored = key.

(** ** Reading the refresh cycle *)

(** The record that [upsertFromRefresh(old, refreshed)] hands to the
    store when [refreshed] is neither [undefined] nor [null]. *)
Definition merge_refreshed (old : Token.TokenRecord) (refreshed : JsValue)
    : Token.TokenRecord :=
  {| Token.provider := Token.notion;
     Token.subject := Token.subject old;
     Token.access_token := field refreshed "access_token";
     Token.refresh_token :=
       js_coalesce (field refreshed "refresh_token") (Token.refresh_token old);
     Token.expires_at := JUndefined;
     Token.scope :=
       scope_text (field refreshed "scope")
         (js_or (js_or (field refreshed "scope") (Token.scope old)) JNull);
     Token.workspace_id :=
       js_coalesce (field refreshed "workspace_id") (Token.workspace_id old);
     Token.workspace_name :=
       js_coalesce (field refreshed "workspace_name") (Token.workspace_name old);
     Token.bot_id := js_coalesce (field refreshed "bot_id") (Token.bot_id old);
     Token.raw := refreshed;
     Token.created_at := None;
     Token.updated_at := None |}.

(** The body of the request that [refresh] posts. *)
Definition refresh_body (refresh_token : JsValue) : JsValue :=
  JObj [("grant_type", JStr "refresh_token"); ("refresh_token", refresh_token)].

Section ToolReading.
Context `{Builtins}.

(** What a tool handler settles with on the result [res] of its last
    upstream call. *)
Definition tool_outcome (tool : string) (res : HttpResult) : Settled CallToolResult :=
  if ok res then
    Fulfilled {| content := [{| type := "text"; text := JSON_stringify_2 (json res) |}] |}
  else Rejected (Error (tool +:+ " failed: " +:+ JSON_stringify (json res))).
End ToolReading.

(** ** Reading the refresh cycle of a handler *)

Section CycleReading.
Context `{Builtins}.
Variable cfg : NotionConfig.
Variable store : TokenStore.TokenStore.

(** The refresh cycle of a handler that holds the record [old]: the
    block that follows the test for a 401 (lines 53 to 55 for
    [getSelf]). *)
Definition retry_cycle (old : Token.TokenRecord) (endpoint method : string)
    (data : JsValue) : M HttpResult :=
  r <- refresh cfg (Token.refresh_token old) ;;
  upsertFromRefresh store old r ;;
  access_token <- prop r "access_token" ;;
  notionFetch access_token endpoint method data.

(** The test that opens the cycle. *)
Definition wants_refresh (res : HttpResult) (old : Token.TokenRecord) : bool :=
  negb (ok res) && (status res =? 401) && truthy (Token.refresh_token old).

(** The error with which [getAccessToken] turns down a subject for
    which nothing is stored. *)
Definition no_token (subject : JsValue) : Exn :=
  Error ("No Notion token for subject '" +:+
         js_String (js_or subject (JStr "default")) +:+
         "'. Visit /auth/notion or set NOTION_STATIC_TOKEN.").
End CycleReading.

(** ** Reading the callback route *)

Section CallbackReading.
Context `{Builtins}.
Variable cfg : NotionConfig.

(** The token endpoint turns down whatever is posted to it from
    [w]. *)
Definition exchange_fails (w : World) : Prop :=
  forall headers body res,
    settled (httpWithRetry "POST" token_url headers body
               {| retries := Some 1%nat; baseDelayMs := None; maxDelayMs := None |} w) =
    Fulfilled res ->
    ok res = false.

(** The callback reaches the exchange: outside proof-key mode always,
    in proof-key mode when a non-empty verifier is recorded under the
    state. *)
Definition reaches_exchange (state : string) (w : World) : Prop :=
  pkce cfg = false \/
  exists verifier, pkceByState w !! state = Some verifier /\ verifier <> "".

(** The world after the [finally] block of the callback. *)
Definition evicted (state : string) (w : World) : World :=
  if String.eqb state "" then w
  else set_pkceByState (delete state (pkceByState w)) w.
End CallbackReading.

(** ** Reading the requests of a run *)

Section RequestReading.
Context `{Builtins}.
Variable cfg : NotionConfig.

(** The request that [notionFetch] sends with [token]. *)
Definition api_request (token : JsValue) (endpoint method : string) (data : JsValue)
    : Request :=
  request_of method (NOTION_API +:+ "/" +:+ endpoint)
    [("Authorization", "Bearer " +:+ js_String token);
     ("Notion-Version", NOTION_VERSION);
     ("Content-Type", "application/json")] data.

(** The headers of a post to the token endpoint: the client secret
    goes into them outside proof-key mode only. *)
Definition token_headers : list (string * string) :=
  [("Accept", "application/json"); ("Content-Type", "application/json")] ++
  (if pkce cfg then []
   else [("Authorization", basicAuthHeader (clientId cfg) (clientSecret cfg))]).

(** The request that [refresh] posts. *)
Definition refresh_request (refresh_token : JsValue) : Request :=
  request_of "POST" token_url token_headers (refresh_body refresh_token).

(** The request that the callback route posts for [code], with the
    verifier recorded under the state in proof-key mode. *)
Definition exchange_request (code : string) (verifier : option string) : Request :=
  request_of "POST" token_url token_headers
    (JObj ([("grant_type", JStr "authorization_code");
            ("code", JStr code);
            ("redirect_uri", JStr (redirectUri cfg))] ++
           match verifier with
           | Some v => [("code_verifier", JStr v)]
           | None => []
           end)).
End RequestReading.

(** ** Reading the exchange of the callback route *)

(** The record that the callback route hands to the store for the
    answer [json] of the token endpoint (lines 212 to 223). *)
Definition granted (json : JsValue) : Token.TokenRecord :=
  {| Token.provider := Token.notion;
     Token.subject := js_or (field json "workspace_id") (JStr "default");
     Token.access_token := field json "access_token";
     Token.refresh_token := field json "refresh_token";
     Token.expires_at := JUndefined;
     Token.scope := scope_text (field json "scope") (js_or (field json "scope") JNull);
     Token.workspace_id := field json "workspace_id";
     Token.workspace_name := field json "workspace_name";
     Token.bot_id := field json "bot_id";
     Token.raw := json;
     Token.created_at := None;
     Token.updated_at := None |}.

(** The reply of the callback route after a write. *)
Definition authorized : Reply :=
  {| reply_status := 200;
     reply_text := "✅ Notion authorized. You can close this tab." |}.

(** The reply of the callback route to an error [e] of its [try]
    block. *)
Definition oauth_failed (e : Exn) : Reply :=
  {| reply_status := 500;
     reply_text := "❌ Notion OAuth failed: " +:+ exn_message e |}.

(** The token endpoint answers whatever is posted to it from [w] with
    a success status and no body. *)
Definition exchange_empty `{Builtins} (w : World) : Prop :=
  forall headers body res,
    settled (httpWithRetry "POST" token_url headers body
               {| retries := Some 1%nat; baseDelayMs := None; maxDelayMs := None |} w) =
    Fulfilled res ->
    ok res = true /\ json res = JNull.

(** ** Reading the usage log *)

(** How many elements of a list pass a test. *)
Definition occurrences {A} (f : A -> bool) (l : list A) : Z :=
  Z.of_nat (length (List.filter f l)).

(** The entry of a table under a key that was counted [n] times. *)
Definition counted (n : Z) : option Count :=
  if n =? 0 then None else Some (Num n).

Definition count_value (c : Count) : Z :=
  match c with
  | Num n => n
  | Text => 0
  end.

(** The sum of the counts of a table. *)
Definition table_sum (o : gmap string Count) : Z :=
  map_fold (fun _ c acc => count_value c + acc) 0 o.

(** The key of a record in [byTool]. *)
Definition tool_key (r : Usage.UsageRecord) : string :=
  Usage.provider r +:+ ":" +:+ Usage.tool_name r.

(** The table after one increment under [f r] for every [r] of a
    list. *)
Definition filled {A} (f : A -> string) (rs : list A) (o : gmap string Count)
    : gmap string Count :=
  fold_left (fun o r => increment (f r) o) rs o.

(** No entry of the table is a string. *)
Definition numeric (o : gmap string Count) : Prop :=
  forall k, o !! k <> Some Text.

(** [c] occurs in [s]. *)
Fixpoint occurs (c : Ascii.ascii) (s : string) : bool :=
  match s with
  | EmptyString => false
  | String a s' => Ascii.eqb a c || occurs c s'
  end.

(** ** Reading the instrumentation wrapper *)

Section WrapperReading.
Variables (p : Provider) (t : ToolSpec.ToolSpec).

(** The record that the wrapper of the tool [t] builds at the time
    [now], having been entered at the time [start]. *)
Definition usage_entry (start now : Z) (success : bool) (message : option string)
    : Usage.UsageRecord :=
  {| Usage.provider := name p;
     Usage.tool_name := ToolSpec.name t;
     Usage.subject := None;
     Usage.success := success;
     Usage.latency_ms := Some (now - start);
     Usage.error_message := message |}.

(** The call of [log] that the wrapper makes from the world [w]: the
    clock is read for the latency, then the store is called. *)
Definition log_attempt (store : UsageStore) (start : Z) (success : bool)
    (message : option string) (w : World) : Run unit :=
  log store (usage_entry start (clock w (ticks w)) success message)
    (set_ticks (S (ticks w)) w).
End WrapperReading.

(** ** Reading the registry *)

(** The name and the description that a client is told of a tool,
    and those that the server holds of it. *)
Definition advertised (l : Listed.Listed) : string * string :=
  (Listed.name l, Listed.description l).

Definition registered (reg : Registration) : string * string :=
  (reg_name reg, reg_description reg).

(** The registrations that a registry asks the server for, provider
    after provider. *)
Definition wanted (r : ProviderRegistry.ProviderRegistry) : list Registration :=
  flat_map (fun p => List.map (registration p) (tools p)) r.

(** ** Sample environments *)

(** A stand-in for [JSON.parse] that knows the payloads of the samples;
    every other text is unparsable. *)
Definition sample_parse (text : string) : option JsValue :=
  if String.eqb text "grant" then
    Some (JObj [("access_token", JStr "at1");
                ("refresh_token", JStr "rt1");
                ("workspace_id", JStr "ws1");
                ("workspace_name", JStr "Acme")])
  else if String.eqb text "fresh" then Some (JObj [("access_token", JStr "at2")])
  else if String.eqb text "me" then Some (JObj [("object", JStr "user")])
  else None.

Definition sample_builtins : Builtins :=
  {| JSON_parse := sample_parse;
     JSON_stringify := js_String;
     JSON_stringify_2 := js_String;
     base64 := fun s => s |}.

(** A response with a status, no header and a readable body. *)
Definition answer (code : Z) (body : string) : Settled Response.Response :=
  Fulfilled {| Response.status := code;
               Response.headers := [];
               Response.text := Fulfilled body |}.

(** A world whose network gives the listed answers in turn and is
    unreachable afterwards, whose draws are the listed ones and then 0,
    and whose clock reads 1000, 1001, and so on. *)
Definition scripted (answers : list (Settled Response.Response)) (rolls : list Q)
    (store : gmap string Token.TokenRecord) (verifiers : gmap string string) : World :=
  {| network := fun n _ =>
       default (Rejected (MkExn "TypeError" "fetch failed")) (answers !! n);
     fetches := 0;
     random := fun n => default 0%Q (rolls !! n);
     draws := 0;
     clock := fun n => 1000 + Z.of_nat n;
     ticks := 2;
     tokens := store;
     arr := [];
     pkceByState := verifiers |}.

Definition sample_record : Token.TokenRecord :=
  {| Token.provider := Token.notion;
     Token.subject := JStr "ws1";
     Token.access_token := JStr "at0";
     Token.refresh_token := JStr "rt0";
     Token.expires_at := JUndefined;
     Token.scope := JNull;
     Token.workspace_id := JStr "ws1";
     Token.workspace_name := JStr "Acme";
     Token.bot_id := JUndefined;
     Token.raw := JNull;
     Token.created_at := Some 1001;
     Token.updated_at := Some 1000 |}.

Definition sample_store : gmap string Token.TokenRecord :=
  {["notion:ws1" := sample_record]}.

Definition oauth_cfg : NotionConfig :=
  {| clientId := "client";
     clientSecret := "secret";
     redirectUri := "https://hub.example/oauth/notion/callback";
     staticToken := None;
     usePkce := None |}.


Definition static_cfg : NotionConfig :=
  {| clientId := "client";
     clientSecret := "secret";
     redirectUri := "https://hub.example/oauth/notion/callback";
     staticToken := Some "secret_static";
     usePkce := None |}.

(** The arguments [{ subject: "ws1" }]. *)
Definition for_ws1 : JsValue := JObj [("subject", JStr "ws1")].

(** A usage record of a call that succeeded. *)
Definition used (provider tool_name : string) : Usage.UsageRecord :=
  {| Usage.provider := provider;
     Usage.tool_name := tool_name;
     Usage.subject := None;
     Usage.success := true;
     Usage.latency_ms := Some 1;
     Usage.error_message := None |}.

(** A world whose usage log holds the listed records. *)
Definition with_log (l : list Usage.UsageRecord) : World :=
  set_arr l (scripted [] [] ∅ ∅).

(** A 429 that asks to wait [seconds]. *)
Definition throttled (seconds : string) : Settled Response.Response :=
  Fulfilled {| Response.status := 429;
               Response.headers := [("retry-after", seconds)];
               Response.text := Fulfilled "" |}.

(** The arguments [{ subject: "ws2" }]. *)
Definition for_ws2 : JsValue := JObj [("subject", JStr "ws2")].

(** A world with an empty store whose clock steps back: it reads
    5000, 4800, 4600, and so on. *)
Definition backwards : World :=
  {| network := fun _ _ => Rejected (MkExn "TypeError" "fetch failed");
     fetches := 0;
     random := fun _ => 0%Q;
     draws := 0;
     clock := fun n => 5000 - 200 * Z.of_nat n;
     ticks := 0;
     tokens := ∅;
     arr := [];
     pkceByState := ∅ |}.


(** A credential store that answers the lookups as the in-memory store
    does and turns every record down. *)
Definition refusing : TokenStore.TokenStore :=
  {| TokenStore.upsertToken := fun _ => throw (Error "connection refused");
     TokenStore.getToken := getToken |}.

(** * Properties *)

(** ** The monad *)

Lemma bind_ret {A B} (a : A) (k : A -> M B) w : bind (ret a) k w = k a w.
Proof. unfold bind, ret. simpl. by destruct (k a w). Qed.

Lemma bind_fulfilled {A B} (m : M A) (k : A -> M B) w a :
  settled (m w) = Fulfilled a ->
  bind m k w =
  Ran (settled (k a (final (m w)))) (final (k a (final (m w))))
      (emitted (m w) ++ emitted (k a (final (m w)))).
Proof. intros Hm. unfold bind. by rewrite Hm. Qed.

Lemma bind_rejected {A B} (m : M A) (k : A -> M B) w e :
  settled (m w) = Rejected e ->
  bind m k w = Ran (Rejected e) (final (m w)) (emitted (m w)).
Proof. intros Hm. unfold bind. by rewrite Hm. Qed.

Lemma bind_then {A B} (m : M A) (k : A -> M B) w :
  bind m k w =
  match settled (m w) with
  | Fulfilled a =>
      Ran (settled (k a (final (m w)))) (final (k a (final (m w))))
          (emitted (m w) ++ emitted (k a (final (m w))))
  | Rejected e => Ran (Rejected e) (final (m w)) (emitted (m w))
  end.
Proof. reflexivity. Qed.

Lemma try_catch_run {A} (m : M A) (h : Exn -> M A) w :
  try_catch m h w =
  match settled (m w) with
  | Fulfilled _ => m w
  | Rejected e =>
      Ran (settled (h e (final (m w)))) (final (h e (final (m w))))
          (emitted (m w) ++ emitted (h e (final (m w))))
  end.
Proof. reflexivity. Qed.

Lemma bind_gets {A B} (f : World -> A) (k : A -> M B) w :
  bind (gets f) k w = k (f w) w.
Proof. reflexivity. Qed.

Lemma prop_field v k : nullish v = false -> prop v k = ret (field v k).
Proof. by destruct v. Qed.

Lemma sends_app l1 l2 : sends (l1 ++ l2) = sends l1 ++ sends l2.
Proof. apply List.filter_app. Qed.

Lemma store_reads_app l1 l2 : store_reads (l1 ++ l2) = store_reads l1 ++ store_reads l2.
Proof. apply omap_app. Qed.

Lemma store_writes_app l1 l2 : store_writes (l1 ++ l2) = store_writes l1 ++ store_writes l2.
Proof. apply omap_app. Qed.

(** ** The resilient call client *)

Section HttpFacts.
Context `{Builtins}.
Variables (method url : string) (headers : list (string * string)).
Variables (body : JsValue) (nretries : nat) (baseDelay maxDelay : Z).

Abbreviation req := (request_of method url headers body).
Abbreviation iteration' := (iteration method url headers body nretries baseDelay maxDelay).
Abbreviation attempts' := (attempts method url headers body nretries baseDelay maxDelay).
Abbreviation delays' := (delays method url headers body baseDelay maxDelay).
Abbreviation after_retries' := (after_retries method url headers body).

(** A turn of the loop that returns. *)
Lemma iteration_return attempt lastErr w :
  transient (network w (fetches w) req) && (attempt <? nretries)%nat = false ->
  iteration' attempt lastErr w =
  Ran (Fulfilled (Return (observed (network w (fetches w) req))))
      (set_fetches (S (fetches w)) w) [EvFetch req].
Proof.
  intros Hc.
  unfold iteration, try_catch, fetch, bind, emit, gets, modify, await. simpl.
  fold req.
  destruct (network w (fetches w) req) as [res|e] eqn:Ho; simpl in *.
  - destruct (Response.text res) as [t|e] eqn:Ht; simpl in *;
      rewrite Hc; reflexivity.
  - rewrite Hc. reflexivity.
Qed.

(** A turn of the loop that sleeps and continues. *)
Lemma iteration_continue attempt lastErr w :
  transient (network w (fetches w) req) = true ->
  (attempt < nretries)%nat ->
  iteration' attempt lastErr w =
  Ran (Fulfilled (Continue (carried lastErr (network w (fetches w) req))))
      (after_retry w (network w (fetches w) req))
      [EvFetch req;
       EvSleep (delay_of baseDelay maxDelay w attempt (network w (fetches w) req))].
Proof.
  intros Ht Hlt. apply Nat.ltb_lt in Hlt.
  unfold iteration, try_catch, fetch, bind, emit, gets, modify, await,
    after_retry, delay_of, hint, carried.
  simpl. fold req.
  destruct (network w (fetches w) req) as [res|e] eqn:Ho; simpl in *.
  - destruct (Response.text res) as [t|e] eqn:Htx; simpl in *.
    + rewrite Ht, Hlt. simpl.
      destruct (Response.get "retry-after" (Response.headers res)) as [s|]; simpl.
      * destruct (String.eqb s ""); reflexivity.
      * reflexivity.
    + rewrite Hlt. reflexivity.
  - rewrite Hlt. reflexivity.
Qed.

Lemma after_retry_frame w o :
  network (after_retry w o) = network w /\
  fetches (after_retry w o) = S (fetches w) /\
  random (after_retry w o) = random w /\
  clock (after_retry w o) = clock w /\
  ticks (after_retry w o) = ticks w /\
  tokens (after_retry w o) = tokens w /\
  arr (after_retry w o) = arr w /\
  pkceByState (after_retry w o) = pkceByState w.
Proof. unfold after_retry. destruct (hint o); simpl; repeat split; reflexivity. Qed.

Lemma after_retries_frame n : forall w,
  network (after_retries' w n) = network w /\
  fetches (after_retries' w n) = (fetches w + n)%nat /\
  random (after_retries' w n) = random w /\
  clock (after_retries' w n) = clock w /\
  ticks (after_retries' w n) = ticks w /\
  tokens (after_retries' w n) = tokens w /\
  arr (after_retries' w n) = arr w /\
  pkceByState (after_retries' w n) = pkceByState w.
Proof.
  induction n as [|n IH]; intros w; simpl.
  - rewrite Nat.add_0_r. repeat split; reflexivity.
  - destruct (IH (after_retry w (network w (fetches w) req)))
      as (-> & -> & -> & -> & -> & -> & -> & ->).
    destruct (after_retry_frame w (network w (fetches w) req))
      as (-> & -> & -> & -> & -> & -> & -> & ->).
    repeat split; try reflexivity. lia.
Qed.

(** The whole loop: it is retried as long as the answers are
    transient and turns are left, and returns what its last attempt
    observed. *)
Lemma attempts_run turns : forall attempt lastErr w,
  (attempt + turns = S nretries)%nat ->
  (1 <= turns)%nat ->
  let n := leading (network w) req (fetches w) (nretries - attempt) in
  let w' := after_retries' w n in
  attempts' turns attempt lastErr w =
  Ran (Fulfilled (observed (network w' (fetches w') req)))
      (set_fetches (S (fetches w')) w')
      (attempt_events method url headers body (delays' w attempt n)).
Proof.
  induction turns as [|turns IH]; intros attempt lastErr w Hsum Hpos; [lia|].
  simpl attempts. unfold bind at 1.
  destruct (transient (network w (fetches w) req) && (attempt <? nretries)%nat) eqn:Hc.
  - apply andb_true_iff in Hc as [Ht Hlt]. apply Nat.ltb_lt in Hlt.
    rewrite (iteration_continue _ _ _ Ht Hlt). simpl.
    replace (nretries - attempt)%nat with (S (nretries - S attempt)) by lia.
    simpl leading. rewrite Ht. simpl.
    rewrite IH by lia.
    destruct (after_retry_frame w (network w (fetches w) req)) as (-> & -> & _).
    reflexivity.
  - rewrite (iteration_return _ _ _ Hc). simpl.
    assert (Hn : leading (network w) req (fetches w) (nretries - attempt) = O).
    { apply andb_false_iff in Hc as [Ht|Hlt].
      - destruct (nretries - attempt)%nat; simpl; [reflexivity|]. by rewrite Ht.
      - apply Nat.ltb_ge in Hlt. replace (nretries - attempt)%nat with O by lia.
        reflexivity. }
    rewrite Hn. reflexivity.
Qed.
End HttpFacts.

Lemma leading_le net req bound : forall start, (leading net req start bound <= bound)%nat.
Proof.
  induction bound as [|b IH]; intros start; simpl; [lia|].
  destruct (transient (net start req)); [specialize (IH (S start))|]; lia.
Qed.

Lemma leading_transient net req bound : forall start k,
  (k < leading net req start bound)%nat -> transient (net (start + k)%nat req) = true.
Proof.
  induction bound as [|b IH]; intros start k Hk; simpl in Hk; [lia|].
  destruct (transient (net start req)) eqn:Ht; [|lia].
  destruct k as [|k]; [by rewrite Nat.add_0_r|].
  replace (start + S k)%nat with (S start + k)%nat by lia. apply IH. lia.
Qed.

Lemma leading_stops net req bound : forall start,
  (leading net req start bound < bound)%nat ->
  transient (net (start + leading net req start bound)%nat req) = false.
Proof.
  induction bound as [|b IH]; intros start Hlt; simpl in *; [lia|].
  destruct (transient (net start req)) eqn:Ht.
  - replace (start + S (leading net req (S start) b))%nat
      with (S start + leading net req (S start) b)%nat by lia.
    apply IH. lia.
  - by rewrite Nat.add_0_r.
Qed.

Lemma leading_all net req bound : forall start,
  (forall k, transient (net k req) = true) -> leading net req start bound = bound.
Proof.
  induction bound as [|b IH]; intros start Hall; simpl; [reflexivity|].
  rewrite Hall. f_equal. by apply IH.
Qed.

Lemma fetched_attempt_events `{Builtins} method url headers body ds :
  fetched (attempt_events method url headers body ds) =
  replicate (S (length ds)) (request_of method url headers body).
Proof.
  unfold attempt_events, fetched.
  induction ds as [|d ds IH]; simpl; [reflexivity|].
  f_equal. exact IH.
Qed.

Lemma slept_attempt_events `{Builtins} method url headers body ds :
  slept (attempt_events method url headers body ds) = ds.
Proof.
  unfold attempt_events, slept.
  induction ds as [|d ds IH]; simpl; [reflexivity|].
  f_equal. exact IH.
Qed.

Lemma length_delays `{Builtins} method url headers body baseDelay maxDelay n :
  forall w attempt,
  length (delays method url headers body baseDelay maxDelay w attempt n) = n.
Proof. induction n as [|n IH]; intros w attempt; simpl; [reflexivity|]. by rewrite IH. Qed.

(** One call of [httpWithRetry], in full. *)
Lemma httpWithRetry_run `{Builtins} method url headers body opts w :
  let nretries := default 3%nat (retries opts) in
  let baseDelay := default 300 (baseDelayMs opts) in
  let maxDelay := default 3000 (maxDelayMs opts) in
  let req := request_of method url headers body in
  let n := leading (network w) req (fetches w) nretries in
  let w' := after_retries method url headers body w n in
  httpWithRetry method url headers body opts w =
  Ran (Fulfilled (observed (network w (fetches w + n)%nat req)))
      (set_fetches (S (fetches w + n)) w')
      (EvSend method url body ::
       attempt_events method url headers body
         (delays method url headers body baseDelay maxDelay w O n)).
Proof.
  intros. unfold httpWithRetry, bind, emit. cbn [settled final emitted].
  rewrite attempts_run by lia. cbn [settled final emitted app].
  rewrite Nat.sub_0_r.
  fold nretries req n. fold w'.
  destruct (after_retries_frame method url headers body n w) as (Hnet & Hf & _).
  fold w' in Hnet, Hf. rewrite Hnet, Hf. reflexivity.
Qed.

(** Every attempt of a call sends the same request. *)
Lemma httpWithRetry_fetched `{Builtins} method url headers body opts w :
  fetched (emitted (httpWithRetry method url headers body opts w)) =
  replicate
    (S (leading (network w) (request_of method url headers body) (fetches w)
          (default 3%nat (retries opts))))
    (request_of method url headers body).
Proof.
  rewrite httpWithRetry_run. cbn [emitted].
  change (fetched (EvSend ?m ?u ?b :: ?l)) with (fetched l).
  by rewrite fetched_attempt_events, length_delays.
Qed.

Lemma retryable_status_not_ok s :
  retryable_status s = true -> (200 <=? s) && (s <=? 299) = false.
Proof.
  unfold retryable_status. simpl. intros Hs.
  repeat (apply orb_true_iff in Hs as [Hs|Hs];
          [apply Z.eqb_eq in Hs; subst; reflexivity|]).
  discriminate.
Qed.

(** A transient answer is never observed as a success. *)
Lemma transient_not_ok `{Builtins} o : transient o = true -> ok (observed o) = false.
Proof.
  destruct o as [res|e]; simpl; [|reflexivity].
  destruct (Response.text res); simpl; [|reflexivity].
  apply retryable_status_not_ok.
Qed.

Lemma fetched_send m u b l : fetched (EvSend m u b :: l) = fetched l.
Proof. reflexivity. Qed.

Lemma slept_send m u b l : slept (EvSend m u b :: l) = slept l.
Proof. reflexivity. Qed.

(** C3.  [httpWithRetry] never throws for HTTP or network failures: its
    promise is always fulfilled, after at most [retries + 1] attempts,
    with what its last attempt observed, which is the synthetic result
    [{ ok: false, status: 0, json: { error } }] when that attempt failed
    at the network level.  With [retries = 2] and an upstream of which
    every answer is a transient failure, exactly 3 attempts are made
    and the result has [ok: false]. *)
Theorem httpWithRetry_never_throws `{Builtins} method url headers body opts w :
  let nretries := default 3%nat (retries opts) in
  let req := request_of method url headers body in
  let run := httpWithRetry method url headers body opts w in
  exists n : nat,
    length (fetched (emitted run)) = S n /\
    (S n <= nretries + 1)%nat /\
    settled run = Fulfilled (observed (network w (fetches w + n)%nat req)) /\
    (forall e, network w (fetches w + n)%nat req = Rejected e ->
       settled run =
       Fulfilled {| ok := false;
                    status := 0;
                    json := JObj [("error", JStr (String_of_exn e))] |}) /\
    (retries opts = Some 2%nat ->
     (forall k, transient (network w k req) = true) ->
     length (fetched (emitted run)) = 3%nat /\
     exists r, settled run = Fulfilled r /\ ok r = false).
Proof.
  intros nretries req run.
  pose proof (httpWithRetry_run method url headers body opts w) as Hrun.
  cbv zeta in Hrun. fold nretries req run in Hrun.
  set (n := leading (network w) req (fetches w) nretries) in *.
  assert (Hlen : length (fetched (emitted run)) = S n).
  { rewrite Hrun. cbn [emitted].
    rewrite fetched_send, fetched_attempt_events, length_replicate, length_delays. reflexivity. }
  exists n. split; [exact Hlen|]. split.
  { pose proof (leading_le (network w) req nretries (fetches w)). fold n in H0. lia. }
  split; [by rewrite Hrun|]. split.
  { intros e He. rewrite Hrun. cbn [settled]. rewrite He. reflexivity. }
  intros Hr Hall.
  assert (Hn : n = 2%nat).
  { unfold n, nretries. rewrite Hr. simpl default. by apply leading_all. }
  split; [by rewrite Hlen, Hn|].
  eexists. split; [by rewrite Hrun|].
  apply transient_not_ok, Hall.
Qed.

(** C4.  An attempt is followed by a retry exactly when its answer is
    transient (a status among 429, 500, 502, 503, 504, or a failure at
    the network level) and fewer than [retries] retries were made; any
    other status makes the call return at once, with [ok: false] when
    it is not a 2xx.  With the answers 503, 503, 200 and [retries = 3]
    the result is [ok: true, status: 200] after exactly 2 delays. *)
Theorem httpWithRetry_retry_rule `{Builtins} method url headers body opts w :
  let nretries := default 3%nat (retries opts) in
  let req := request_of method url headers body in
  let run := httpWithRetry method url headers body opts w in
  let answer := fun k : nat => network w (fetches w + k)%nat req in
  (exists n : nat,
     (n <= nretries)%nat /\
     (forall k, (k < n)%nat -> transient (answer k) = true) /\
     ((n < nretries)%nat -> transient (answer n) = false) /\
     length (fetched (emitted run)) = S n /\
     length (slept (emitted run)) = n /\
     settled run = Fulfilled (observed (answer n))) /\
  (forall res t,
     answer O = Fulfilled res ->
     Response.text res = Fulfilled t ->
     retryable_status (Response.status res) = false ->
     run = Ran (Fulfilled {| ok := Response.ok res;
                             status := Response.status res;
                             json := parse_body t |})
               (set_fetches (S (fetches w)) w)
               [EvSend method url body; EvFetch req] /\
     (~ 200 <= Response.status res <= 299 -> Response.ok res = false)) /\
  (retries opts = Some 3%nat ->
   forall r0 r1 r2 t0 t1 t2,
     answer 0%nat = Fulfilled r0 -> Response.text r0 = Fulfilled t0 ->
     Response.status r0 = 503 ->
     answer 1%nat = Fulfilled r1 -> Response.text r1 = Fulfilled t1 ->
     Response.status r1 = 503 ->
     answer 2%nat = Fulfilled r2 -> Response.text r2 = Fulfilled t2 ->
     Response.status r2 = 200 ->
     settled run = Fulfilled {| ok := true; status := 200; json := parse_body t2 |} /\
     length (fetched (emitted run)) = 3%nat /\
     length (slept (emitted run)) = 2%nat).
Proof.
  intros nretries req run answer.
  pose proof (httpWithRetry_run method url headers body opts w) as Hrun.
  cbv zeta in Hrun. fold nretries req run in Hrun.
  set (n := leading (network w) req (fetches w) nretries) in *.
  assert (Hf : length (fetched (emitted run)) = S n).
  { rewrite Hrun. cbn [emitted].
    rewrite fetched_send, fetched_attempt_events, length_replicate, length_delays. reflexivity. }
  assert (Hs : length (slept (emitted run)) = n).
  { rewrite Hrun. cbn [emitted].
    rewrite slept_send, slept_attempt_events, length_delays. reflexivity. }
  assert (Hres : settled run = Fulfilled (observed (answer n))) by by rewrite Hrun.
  split; [|split].
  - exists n. split; [apply leading_le|]. split.
    { intros k Hk. exact (leading_transient _ _ nretries _ _ Hk). }
    split; [|done].
    intros Hlt. by apply leading_stops.
  - intros res t Ha Ht Hst.
    assert (Hn : n = O).
    { unfold n. unfold answer in Ha. rewrite Nat.add_0_r in Ha.
      destruct nretries; simpl; [reflexivity|]. rewrite Ha. simpl. by rewrite Ht, Hst. }
    split.
    + rewrite Hrun, Hn. simpl. unfold answer in Ha. rewrite Ha. simpl. rewrite Ht.
      rewrite Nat.add_0_r. reflexivity.
    + intros Hno. unfold Response.ok. apply andb_false_iff.
      destruct (Z.leb_spec 200 (Response.status res)); [|by left].
      destruct (Z.leb_spec (Response.status res) 299); [lia|by right].
  - intros Hr r0 r1 r2 t0 t1 t2 Ha0 Ht0 Hs0 Ha1 Ht1 Hs1 Ha2 Ht2 Hs2.
    assert (Hn : n = 2%nat).
    { unfold n, nretries. rewrite Hr. unfold answer in *. simpl.
      rewrite Nat.add_0_r in Ha0. rewrite Ha0. simpl. rewrite Ht0, Hs0. simpl.
      replace (S (fetches w)) with (fetches w + 1)%nat by lia.
      rewrite Ha1. simpl. rewrite Ht1, Hs1. simpl.
      replace (S (fetches w + 1)) with (fetches w + 2)%nat by lia.
      rewrite Ha2. simpl. rewrite Ht2, Hs2. reflexivity. }
    rewrite Hres, Hf, Hs, Hn. unfold answer in Ha2. unfold answer. rewrite Ha2. simpl.
    rewrite Ht2. unfold Response.ok. rewrite Hs2. done.
Qed.

(** The jitter [Math.floor(Math.random()*100)] lies between 0 and 99. *)
Lemma jitter_range (r : Q) :
  (0 <= r)%Q -> (r < 1)%Q -> 0 <= Qfloor (r * 100)%Q <= 99.
Proof.
  intros H0 H1. split.
  - change 0 with (Qfloor 0). apply Qfloor_resp_le.
    apply Qmult_le_0_compat; [exact H0|discriminate].
  - assert (Hlt : (inject_Z (Qfloor (r * 100)) < inject_Z 100)%Q).
    { eapply Qle_lt_trans; [apply Qfloor_le|].
      change (inject_Z 100) with (1 * 100)%Q.
      apply Qmult_lt_compat_r; [reflexivity|exact H1]. }
    rewrite <- Zlt_Qlt in Hlt. lia.
Qed.

Lemma backoff_value_le_max baseDelay maxDelay attempt r :
  backoff_value baseDelay maxDelay attempt r <= maxDelay.
Proof. unfold backoff_value. lia. Qed.

(** Doubling a base of at least 99 outweighs the jitter. *)
Lemma backoff_value_mono baseDelay maxDelay i j r r' :
  99 <= baseDelay -> (i < j)%nat ->
  0 <= Qfloor (r * 100)%Q <= 99 -> 0 <= Qfloor (r' * 100)%Q <= 99 ->
  backoff_value baseDelay maxDelay i r <= backoff_value baseDelay maxDelay j r'.
Proof.
  intros Hb Hij Hr Hr'. unfold backoff_value.
  apply Z.min_le_compat_l.
  assert (H1 : 1 <= 2 ^ Z.of_nat i) by (apply Z.pow_le_mono_r with (b := 0); lia).
  assert (H2 : 2 * 2 ^ Z.of_nat i <= 2 ^ Z.of_nat j).
  { rewrite <- Z.pow_succ_r by lia. apply Z.pow_le_mono_r; lia. }
  nia.
Qed.

(** The delays of a call that receives no hint: one backoff value for
    each retried attempt, each on its own draw. *)
Lemma delays_hint_free `{Builtins} method url headers body baseDelay maxDelay n :
  forall w attempt,
  hint_free w ->
  delays method url headers body baseDelay maxDelay w attempt n =
  List.map (fun k => Some (backoff_value baseDelay maxDelay (attempt + k)
                             (random w (draws w + k)%nat)))
           (seq 0 n).
Proof.
  induction n as [|n IH]; intros w attempt Hfree; [reflexivity|].
  cbn [delays seq List.map]. unfold delay_of, after_retry.
  rewrite (Hfree (fetches w)). rewrite !Nat.add_0_r. f_equal.
  rewrite IH by (intros k r; apply Hfree).
  rewrite <- seq_shift, List.map_map. apply List.map_ext. intros k. simpl.
  do 2 f_equal; [lia|f_equal; lia].
Qed.

(** C5, as amended.  Absent a wait hint, every delay that a call of
    [httpWithRetry] sleeps is at most [maxDelay], whatever [baseDelay]
    and [maxDelay] are; the successive delays never decrease when
    [baseDelay] is at least 99, so that each doubling outweighs the
    jitter of up to 99 ms. *)
Theorem backoff_bounded_and_monotone `{Builtins} method url headers body opts w :
  hint_free w ->
  let baseDelay := default 300 (baseDelayMs opts) in
  let maxDelay := default 3000 (maxDelayMs opts) in
  let run := httpWithRetry method url headers body opts w in
  exists ds : list Z,
    slept (emitted run) = List.map Some ds /\
    Forall (fun d => d <= maxDelay) ds /\
    (random_in_range w -> 99 <= baseDelay -> nondecreasing ds).
Proof.
  intros Hfree baseDelay maxDelay run.
  pose proof (httpWithRetry_run method url headers body opts w) as Hrun.
  cbv zeta in Hrun. fold baseDelay maxDelay run in Hrun.
  set (n := leading _ _ _ _) in Hrun.
  set (f := fun k : nat => backoff_value baseDelay maxDelay k (random w (draws w + k)%nat)).
  exists (List.map f (seq 0 n)).
  split; [|split].
  - rewrite Hrun. cbn [emitted]. rewrite slept_send, slept_attempt_events.
    rewrite delays_hint_free by exact Hfree. by rewrite List.map_map.
  - apply Forall_forall. intros d Hd. apply list_elem_of_In, in_map_iff in Hd as (k & <- & _).
    apply backoff_value_le_max.
  - intros Hrange Hbase i j x y Hij Hx Hy.
    rewrite list_lookup_fmap in Hx, Hy.
    destruct (seq 0 n !! i) as [i'|] eqn:Hi; [|discriminate].
    destruct (seq 0 n !! j) as [j'|] eqn:Hj; [|discriminate].
    apply lookup_seq in Hi as [-> _]. apply lookup_seq in Hj as [-> _].
    simpl in Hx, Hy. injection Hx as <-. injection Hy as <-.
    destruct (decide (i = j)) as [->|Hne]; [lia|].
    unfold f. apply backoff_value_mono; [exact Hbase|lia| |];
      apply jitter_range; apply Hrange.
Qed.

(** ** What a call of [httpWithRetry] leaves untouched *)

Lemma sends_attempt_events `{Builtins} method url headers body ds :
  sends (attempt_events method url headers body ds) = [] /\
  store_reads (attempt_events method url headers body ds) = [] /\
  store_writes (attempt_events method url headers body ds) = [].
Proof.
  unfold attempt_events, sends, store_reads, store_writes.
  induction ds as [|d ds IH]; simpl; [done|exact IH].
Qed.

(** A call of [httpWithRetry] is fulfilled with the result observed on
    some answer of the network; it is one [EvSend], touches neither
    store, and leaves the clock alone. *)
Lemma httpWithRetry_quiet `{Builtins} method url headers body opts w :
  let run := httpWithRetry method url headers body opts w in
  (exists o, settled run = Fulfilled (observed o)) /\
  sends (emitted run) = [EvSend method url body] /\
  store_reads (emitted run) = [] /\
  store_writes (emitted run) = [] /\
  tokens (final run) = tokens w /\
  pkceByState (final run) = pkceByState w /\
  arr (final run) = arr w /\
  clock (final run) = clock w /\
  ticks (final run) = ticks w /\
  network (final run) = network w /\
  random (final run) = random w.
Proof.
  intros run. subst run. rewrite httpWithRetry_run. cbn [settled final emitted].
  set (n := leading _ _ _ _).
  destruct (sends_attempt_events method url headers body
              (delays method url headers body (default 300 (baseDelayMs opts))
                 (default 3000 (maxDelayMs opts)) w 0 n)) as (Hs & Hr & Hw).
  destruct (after_retries_frame method url headers body n w)
    as (Hnet & _ & Hrand & Hclock & Hticks & Htok & Harr & Hpk).
  split; [eauto|].
  split; [cbn; unfold sends in Hs; by rewrite Hs|].
  split; [exact Hr|]. split; [exact Hw|].
  repeat split; assumption.
Qed.

(** The result of a call has [ok] only on a 2xx status. *)
Lemma observed_ok `{Builtins} o :
  ok (observed o) = (200 <=? status (observed o)) && (status (observed o) <=? 299).
Proof.
  destruct o as [res|e]; [|reflexivity].
  simpl. destruct (Response.text res); reflexivity.
Qed.

Lemma httpWithRetry_ok `{Builtins} method url headers body opts w r :
  settled (httpWithRetry method url headers body opts w) = Fulfilled r ->
  ok r = (200 <=? status r) && (status r <=? 299).
Proof.
  intros Hr.
  destruct (httpWithRetry_quiet method url headers body opts w) as ((o & Ho) & _).
  rewrite Ho in Hr. injection Hr as <-. apply observed_ok.
Qed.

(** ** The credential store *)

Lemma stamped_same_credential record u c :
  same_credential record (Token.stamped record u c).
Proof. repeat split. Qed.

(** What [upsertToken] does, in full. *)
Lemma upsertToken_run record w :
  let key := token_key (Token.provider record) (Token.subject record) in
  let created := match tokens w !! key ≫= Token.created_at with
                 | Some c => c
                 | None => clock w (S (ticks w))
                 end in
  let stored := Token.stamped record (clock w (ticks w)) created in
  let n := match tokens w !! key ≫= Token.created_at with
           | Some _ => 1%nat
           | None => 2%nat
           end in
  upsertToken record w =
  Ran (Fulfilled tt)
      (set_tokens (<[key := stored]> (tokens w)) (set_ticks (ticks w + n) w))
      [].
Proof.
  intros. unfold upsertToken, bind, Date_now, gets, modify, ret. simpl.
  fold key. subst created stored n.
  destruct (tokens w !! key ≫= Token.created_at) as [c|]; simpl.
  - replace (ticks w + 1)%nat with (S (ticks w)) by lia. reflexivity.
  - replace (ticks w + 2)%nat with (S (S (ticks w))) by lia. reflexivity.
Qed.

Lemma upsertToken_settled record w : settled (upsertToken record w) = Fulfilled tt.
Proof. by rewrite upsertToken_run. Qed.

Lemma getToken_run provider subject w :
  let key := token_key provider (subject_or_default subject) in
  getToken provider subject w = Ran (Fulfilled (tokens w !! key)) w [].
Proof. reflexivity. Qed.

(** A write keeps the [created_at] of every entry that has one. *)
Lemma upsertToken_keeps_created_at record w key c :
  tokens w !! key ≫= Token.created_at = Some c ->
  tokens (final (upsertToken record w)) !! key ≫= Token.created_at = Some c.
Proof.
  intros Hc. rewrite upsertToken_run. cbn [final tokens set_tokens].
  destruct (decide (token_key (Token.provider record) (Token.subject record) = key))
    as [<-|Hne].
  - rewrite lookup_insert_eq. simpl. by rewrite Hc.
  - by rewrite lookup_insert_ne.
Qed.

(** The two invariants under which time stamps grow are kept by a
    write. *)
Lemma upsertToken_invariant record w :
  clock_monotone w -> stamps_read w ->
  clock_monotone (final (upsertToken record w)) /\
  stamps_read (final (upsertToken record w)).
Proof.
  intros Hmono Hread. rewrite upsertToken_run. cbn [final]. split; [exact Hmono|].
  intros key stored u. cbn [tokens set_tokens ticks set_ticks clock].
  set (k := token_key _ _). set (n := match _ with Some _ => 1%nat | None => 2%nat end).
  assert (1 <= n)%nat by (subst n; destruct (_ ≫= _); lia).
  destruct (decide (k = key)) as [<-|Hne].
  - rewrite lookup_insert_eq. intros [= <-]. simpl. intros [= <-].
    exists (ticks w). split; [lia|reflexivity].
  - rewrite lookup_insert_ne by exact Hne. intros Hl Hu.
    destruct (Hread key stored u Hl Hu) as (i & Hi & ->). exists i. split; [lia|reflexivity].
Qed.

(** C6, as amended.  After [upsertToken(record)] on the in-memory
    store, a [getToken] with the key of the record returns a record
    that agrees with [record] on every field but the two time stamps.
    Its [updated_at] is the reading of the clock at the write: the
    store compares nothing, and the stamp is at or after the
    [updated_at] stored before when that one is a past reading of a
    clock that never runs backwards.  Its [created_at] is the one
    already stored under the key, or the clock when this is the first
    write; a further write keeps it. *)
Theorem upsert_then_get record provider subject w :
  token_key provider (subject_or_default subject) =
  token_key (Token.provider record) (Token.subject record) ->
  let key := token_key (Token.provider record) (Token.subject record) in
  let w1 := final (upsertToken record w) in
  settled (upsertToken record w) = Fulfilled tt /\
  exists stored,
    settled (getToken provider subject w1) = Fulfilled (Some stored) /\
    same_credential record stored /\
    Token.updated_at stored = Some (clock w (ticks w)) /\
    (forall old u,
       tokens w !! key = Some old -> Token.updated_at old = Some u ->
       clock_monotone w -> stamps_read w -> u <= clock w (ticks w)) /\
    (forall old c,
       tokens w !! key = Some old -> Token.created_at old = Some c ->
       Token.created_at stored = Some c) /\
    (tokens w !! key = None -> Token.created_at stored = Some (clock w (S (ticks w)))) /\
    (forall later,
       tokens (final (upsertToken later w1)) !! key ≫= Token.created_at =
       Token.created_at stored).
Proof.
  intros Hkey key w1. subst w1. rewrite getToken_run, Hkey.
  pose proof (upsertToken_run record w) as Hrun. cbv zeta in Hrun. fold key in Hrun.
  rewrite Hrun. cbn [settled final tokens set_tokens].
  split; [reflexivity|].
  eexists. split; [by rewrite lookup_insert_eq|].
  split; [apply stamped_same_credential|].
  split; [reflexivity|]. split; [|split; [|split]].
  - intros old u Hold Hu Hmono Hread.
    destruct (Hread key old u Hold Hu) as (i & Hi & ->). apply Hmono. lia.
  - intros old c Hold Hc. simpl. by rewrite Hold; simpl; rewrite Hc.
  - intros Hnone. simpl. by rewrite Hnone.
  - intros later. cbn [Token.created_at Token.stamped].
    apply upsertToken_keeps_created_at. cbn [tokens set_tokens].
    by rewrite lookup_insert_eq.
Qed.

(** ** The instrumentation wrapper *)

Lemma log_calls_app evs evs' : log_calls (evs ++ evs') = log_calls evs ++ log_calls evs'.
Proof. unfold log_calls. apply omap_app. Qed.

(** One call of [usage_log] with a store. *)
Lemma usage_log_run p store rec w :
  usage p = Some store ->
  let now := clock w (ticks w) in
  let attempt := log store (rec now) (set_ticks (S (ticks w)) w) in
  usage_log p rec w = Ran (settled attempt) (final attempt) [EvLog (rec now)].
Proof.
  intros Hu. unfold usage_log. rewrite Hu. cbv zeta.
  assert (Hnow : Date_now w = Ran (Fulfilled (clock w (ticks w)))
                                  (set_ticks (S (ticks w)) w) []) by reflexivity.
  rewrite (bind_fulfilled _ _ _ _ (f_equal settled Hnow)), Hnow.
  cbn [final emitted app]. reflexivity.
Qed.

(** The course of the wrapper, in full.  Without a usage store it is
    the handler of the tool.  With one, the record of the outcome is
    handed to [log]; a [log] that rejects in the [try] block is caught
    like an error of the handler, so that a second record is handed
    over, and the error of the store is the one thrown. *)
Lemma instrumented_run p t args w :
  let start := clock w (ticks w) in
  let h := ToolSpec.handler t args (set_ticks (S (ticks w)) w) in
  let now := clock (final h) (ticks (final h)) in
  instrumented p t args w =
  match usage p with
  | None => Ran (settled h) (final h) (emitted h)
  | Some store =>
      match settled h with
      | Fulfilled out =>
          let first := log_attempt p t store start true None (final h) in
          match settled first with
          | Fulfilled _ =>
              Ran (Fulfilled out) (final first)
                  (emitted h ++ [EvLog (usage_entry p t start now true None)])
          | Rejected e =>
              let second :=
                log_attempt p t store start false (Some (error_text e)) (final first) in
              Ran (match settled second with
                   | Fulfilled _ => Rejected e
                   | Rejected e' => Rejected e'
                   end)
                  (final second)
                  (emitted h ++
                   [EvLog (usage_entry p t start now true None);
                    EvLog (usage_entry p t start
                             (clock (final first) (ticks (final first)))
                             false (Some (error_text e)))])
          end
      | Rejected e =>
          let first :=
            log_attempt p t store start false (Some (error_text e)) (final h) in
          Ran (match settled first with
               | Fulfilled _ => Rejected e
               | Rejected e' => Rejected e'
               end)
              (final first)
              (emitted h ++
               [EvLog (usage_entry p t start now false (Some (error_text e)))])
      end
  end.
Proof.
  cbv zeta. unfold instrumented.
  assert (Hstart : Date_now w = Ran (Fulfilled (clock w (ticks w)))
                                    (set_ticks (S (ticks w)) w) []) by reflexivity.
  rewrite (bind_fulfilled _ _ _ _ (f_equal settled Hstart)), Hstart.
  cbn [final emitted app].
  rewrite try_catch_run.
  destruct (usage p) as [store|] eqn:Hu.
  - destruct (settled (ToolSpec.handler t args (set_ticks (S (ticks w)) w)))
      as [out|e] eqn:Hh.
    + rewrite (bind_fulfilled _ _ _ _ Hh).
      match goal with |- context [bind (usage_log p ?rec) ?k ?w1] =>
        rewrite (bind_then (usage_log p rec) k w1);
        rewrite (usage_log_run p store rec w1 Hu)
      end.
      cbv zeta. cbn [settled final emitted]. unfold log_attempt, usage_entry.
      destruct (settled (log store _ _)) as [[]|e1] eqn:Hl.
      * cbn [ret settled final emitted]. by rewrite app_nil_r.
      * cbn [settled final emitted].
        match goal with |- context [bind (usage_log p ?rec) ?k ?w1] =>
          rewrite (bind_then (usage_log p rec) k w1);
          rewrite (usage_log_run p store rec w1 Hu)
        end.
        cbv zeta. cbn [settled final emitted].
        destruct (settled (log store _ (set_ticks _ (final (log store _ _))))) as [[]|e2];
          cbn [throw settled final emitted]; rewrite ?app_nil_r, <- ?app_assoc;
          reflexivity.
    + rewrite (bind_rejected _ _ _ _ Hh). cbn [settled final emitted].
      match goal with |- context [bind (usage_log p ?rec) ?k ?w1] =>
        rewrite (bind_then (usage_log p rec) k w1);
        rewrite (usage_log_run p store rec w1 Hu)
      end.
      cbv zeta. cbn [settled final emitted]. unfold log_attempt, usage_entry.
      destruct (settled (log store _ _)) as [[]|e2];
        cbn [throw settled final emitted]; rewrite ?app_nil_r; reflexivity.
  - unfold usage_log. rewrite Hu.
    destruct (settled (ToolSpec.handler t args (set_ticks (S (ticks w)) w)))
      as [out|e] eqn:Hh.
    + rewrite (bind_fulfilled _ _ _ _ Hh). rewrite !bind_ret.
      cbn [ret settled final emitted]. by rewrite app_nil_r.
    + rewrite (bind_rejected _ _ _ _ Hh). cbn [settled final emitted].
      rewrite bind_ret. cbn [throw settled final emitted]. by rewrite app_nil_r.
Qed.

(** What the loop of [registerAll] leaves on the server: after what
    was there, the registrations of the first tools, in order, and of
    all of them when nothing was thrown. *)
Lemma register_tools_run p ts : forall server,
  exists k,
    (k <= length ts)%nat /\
    fst (register_tools p ts server) =
    server ++ List.map (registration p) (take k ts) /\
    (snd (register_tools p ts server) = None -> k = length ts).
Proof.
  induction ts as [|t ts IH]; intros server.
  - exists 0%nat. cbn. by rewrite app_nil_r.
  - cbn [register_tools].
    destruct (McpServer_registerTool (registration p t) server) as [e|server'] eqn:Hr.
    + exists 0%nat. cbn. rewrite app_nil_r. split; [lia|]. split; [done|]. discriminate.
    + unfold McpServer_registerTool in Hr.
      destruct (_ || _); [discriminate|]. injection Hr as <-.
      destruct (IH (server ++ [registration p t])) as (k & Hk & Hf & Hs).
      exists (S k). cbn [length take List.map]. split; [lia|]. split.
      * rewrite Hf, <- app_assoc. reflexivity.
      * intros Hn. by rewrite (Hs Hn).
Qed.



(** C10.  Whatever the arguments of the invocation and whatever the
    usage store, the records that the wrapper hands to [log] (none
    without a usage store, one with one, and a second when the store
    turns down the first) carry the name of the provider and the bare
    name of the tool, and no subject.  With the in-memory store the one
    record handed over is what the wrapper adds to the usage log. *)
Theorem usage_record_has_no_subject p t args w :
  let h := ToolSpec.handler t args (set_ticks (S (ticks w)) w) in
  let run := instrumented p t args w in
  exists written,
    log_calls (emitted run) = log_calls (emitted h) ++ written /\
    Forall (fun u => Usage.provider u = name p /\
                     Usage.tool_name u = ToolSpec.name t /\
                     Usage.subject u = None) written /\
    (usage p = None -> written = [] /\ arr (final run) = arr (final h)) /\
    (forall store, usage p = Some store -> (1 <= length written <= 2)%nat) /\
    (usage p = Some InMemoryUsageStore ->
     length written = 1%nat /\ arr (final run) = arr (final h) ++ written).
Proof.
  intros h run. subst run. rewrite instrumented_run. cbv zeta. fold h.
  destruct (usage p) as [store|] eqn:Hu.
  - destruct (settled h) as [out|e] eqn:Hh.
    + destruct (settled (log_attempt p t store _ true None (final h))) as [[]|e1] eqn:Hl.
      * eexists [_]. cbn [settled final emitted]. rewrite log_calls_app.
        split; [reflexivity|]. split; [by repeat constructor|].
        split; [discriminate|]. split; [intros; cbn; lia|].
        intros [= ->]. done.
      * eexists [_; _]. cbn [settled final emitted]. rewrite log_calls_app.
        split; [reflexivity|]. split; [by repeat constructor|].
        split; [discriminate|]. split; [intros; cbn; lia|].
        intros [= ->]. discriminate.
    + eexists [_]. cbn [settled final emitted]. rewrite log_calls_app.
      split; [reflexivity|]. split; [by repeat constructor|].
      split; [discriminate|]. split; [intros; cbn; lia|].
      intros [= ->]. done.
  - exists []. cbn [settled final emitted]. rewrite app_nil_r.
    split; [reflexivity|]. split; [constructor|].
    split; [done|]. split; [discriminate|]. discriminate.
Qed.

(** ** The tool handlers *)

Section NotionFacts.
Context `{Builtins}.
Variable cfg : NotionConfig.
Variable store : TokenStore.TokenStore.

Lemma subject_or_default_js_or subject :
  subject_or_default (js_or subject (JStr "default")) = js_or subject (JStr "default").
Proof.
  unfold js_or. destruct (truthy subject) eqn:Ht; [|reflexivity].
  by destruct subject.
Qed.

Lemma getAccessToken_static subject tok w :
  static_token cfg = Some tok ->
  getAccessToken cfg store subject w = Ran (Fulfilled (JStr tok, None)) w [].
Proof. intros Hs. unfold getAccessToken. by rewrite Hs. Qed.


(** Without a static token, [getAccessToken] is one call of the
    store. *)
Lemma getAccessToken_run subject w :
  static_token cfg = None ->
  let s := js_or subject (JStr "default") in
  let lookup := TokenStore.getToken store Token.notion s w in
  getAccessToken cfg store subject w =
  Ran (match settled lookup with
       | Fulfilled (Some rec) => Fulfilled (Token.access_token rec, Some rec)
       | Fulfilled None => Rejected (no_token subject)
       | Rejected e => Rejected e
       end)
      (final lookup) [EvGetToken (token_key Token.notion s)].
Proof.
  intros Hs. cbv zeta. unfold getAccessToken. rewrite Hs.
  unfold bind, emit, call. cbn [settled final emitted app].
  destruct (settled (TokenStore.getToken store _ _ w)) as [[rec|]|e]; reflexivity.
Qed.

(** [upsertFromRefresh] on an answer that is not [null] is one call of
    the store, with the merged record. *)
Lemma upsertFromRefresh_run old refreshed w :
  nullish refreshed = false ->
  let write := TokenStore.upsertToken store (merge_refreshed old refreshed) w in
  upsertFromRefresh store old refreshed w =
  Ran (settled write) (final write)
      [EvUpsertToken (token_key Token.notion (Token.subject old))
         (merge_refreshed old refreshed)].
Proof.
  intros Hn. cbv zeta. unfold upsertFromRefresh.
  rewrite !(prop_field _ _ Hn). rewrite !bind_ret. cbv zeta.
  unfold bind, emit, call. cbn [settled final emitted app].
  fold (merge_refreshed old refreshed).
  destruct (settled (TokenStore.upsertToken store _ w)); reflexivity.
Qed.

Lemma upsertFromRefresh_nullish old refreshed w :
  nullish refreshed = true ->
  upsertFromRefresh store old refreshed w =
  Ran (Rejected (TypeError_read refreshed "access_token")) w [].
Proof. by destruct refreshed. Qed.

Lemma refresh_run refresh_token w :
  let call := httpWithRetry "POST" (token_url)
                ([("Accept", "application/json"); ("Content-Type", "application/json")] ++
                 (if pkce cfg then []
                  else [("Authorization",
                         basicAuthHeader (clientId cfg) (clientSecret cfg))]))
                (refresh_body refresh_token)
                {| retries := Some 1%nat; baseDelayMs := None; maxDelayMs := None |} w in
  exists res,
    settled call = Fulfilled res /\
    final (refresh cfg refresh_token w) = final call /\
    emitted (refresh cfg refresh_token w) = emitted call /\
    settled (refresh cfg refresh_token w) =
    if ok res then Fulfilled (json res)
    else Rejected (Error ("Notion refresh failed (" +:+ pretty (status res) +:+ "): " +:+
                          JSON_stringify (json res))).
Proof.
  intros call.
  destruct (httpWithRetry_quiet "POST" token_url
              ([("Accept", "application/json"); ("Content-Type", "application/json")] ++
                 (if pkce cfg then []
                  else [("Authorization",
                         basicAuthHeader (clientId cfg) (clientSecret cfg))]))
              (refresh_body refresh_token)
              {| retries := Some 1%nat; baseDelayMs := None; maxDelayMs := None |} w)
    as ((o & Ho) & _).
  fold call in Ho. exists (observed o). split; [exact Ho|].
  unfold refresh. fold (refresh_body refresh_token). fold call.
  rewrite (bind_fulfilled _ _ _ _ Ho).
  destruct (ok (observed o)); cbn; rewrite app_nil_r; done.
Qed.

(** One refresh is one call of [httpWithRetry], to the token
    endpoint; it touches no store. *)
Lemma refresh_quiet refresh_token w :
  let run := refresh cfg refresh_token w in
  sends (emitted run) = [EvSend "POST" token_url (refresh_body refresh_token)] /\
  store_reads (emitted run) = [] /\
  store_writes (emitted run) = [] /\
  tokens (final run) = tokens w /\
  clock (final run) = clock w /\
  ticks (final run) = ticks w.
Proof.
  intros run. destruct (refresh_run refresh_token w) as (res & _ & Hf & He & _).
  fold run in Hf, He. rewrite Hf, He.
  match goal with |- context [httpWithRetry ?m ?u ?h ?b ?o w] =>
    destruct (httpWithRetry_quiet m u h b o w)
      as (_ & Hs & Hr & Hw & Ht & _ & _ & Hc & Hk & _) end.
  repeat split; assumption.
Qed.
End NotionFacts.

Section InvokeFacts.
Context `{Builtins}.
Variable cfg : NotionConfig.
Variable store : TokenStore.TokenStore.

(** The five handlers are the shared block at their own endpoint. *)
Lemma handlers_invoke usage t fields :
  t ∈ tools (NotionProvider cfg store usage) ->
  exists endpoint method data, forall w,
    ToolSpec.handler t (JObj fields) w =
    invoke cfg store (ToolSpec.name t) (assoc "subject" fields) endpoint method data w.
Proof.
  intros Hin. apply list_elem_of_In in Hin. simpl in Hin.
  destruct Hin as [<-|[<-|[<-|[<-|[<-|[]]]]]];
    unfold getSelf_tool, search_tool, fetchPage_tool, queryDatabase_tool,
      createPage_tool;
    cbn [ToolSpec.handler ToolSpec.name];
    do 3 eexists; intros w;
    unfold getSelf, search, fetchPage, queryDatabase, createPage;
    cbn [prop]; rewrite bind_ret; reflexivity.
Qed.

(** With a static token, the block is one upstream call and nothing
    else. *)
Lemma invoke_static tool subject endpoint method data tok w :
  static_token cfg = Some tok ->
  let call := notionFetch (JStr tok) endpoint method data w in
  exists res,
    settled call = Fulfilled res /\
    invoke cfg store tool subject endpoint method data w =
    Ran (tool_outcome tool res) (final call) (emitted call).
Proof.
  intros Hs call.
  destruct (httpWithRetry_quiet method (NOTION_API +:+ "/" +:+ endpoint)
              [("Authorization", "Bearer " +:+ js_String (JStr tok));
               ("Notion-Version", NOTION_VERSION);
               ("Content-Type", "application/json")] data
              {| retries := Some 3%nat; baseDelayMs := None; maxDelayMs := None |} w)
    as ((o & Ho) & _).
  change (httpWithRetry _ _ _ _ _ w) with call in Ho.
  exists (observed o). split; [exact Ho|].
  unfold invoke.
  rewrite (bind_fulfilled _ _ _ _
             (f_equal settled (getAccessToken_static cfg store subject tok w Hs))).
  rewrite (getAccessToken_static cfg store subject tok w Hs).
  cbn [final emitted fst snd app].
  fold call. rewrite (bind_fulfilled _ _ _ _ Ho).
  cbn [refresh_token_of truthy]. rewrite andb_false_r. rewrite bind_ret.
  unfold tool_outcome. destruct (ok (observed o)); cbn; by rewrite app_nil_r.
Qed.

(** Without a static token, the invocation opens with a lookup in the
    store.  When the lookup fails, or finds nothing, the invocation
    ends there. *)
Lemma invoke_unanswered tool subject endpoint method data w e :
  static_token cfg = None ->
  let s := js_or subject (JStr "default") in
  let lookup := TokenStore.getToken store Token.notion s w in
  settled lookup = Rejected e ->
  invoke cfg store tool subject endpoint method data w =
  Ran (Rejected e) (final lookup) [EvGetToken (token_key Token.notion s)].
Proof.
  intros Hs s lookup Hl.
  pose proof (getAccessToken_run cfg store subject w Hs) as Hget.
  cbv zeta in Hget. fold s in Hget. fold lookup in Hget. rewrite Hl in Hget.
  unfold invoke. rewrite (bind_rejected _ _ _ _ (f_equal settled Hget)).
  by rewrite Hget.
Qed.

Lemma invoke_not_found tool subject endpoint method data w :
  static_token cfg = None ->
  let s := js_or subject (JStr "default") in
  let lookup := TokenStore.getToken store Token.notion s w in
  settled lookup = Fulfilled None ->
  invoke cfg store tool subject endpoint method data w =
  Ran (Rejected (no_token subject)) (final lookup)
      [EvGetToken (token_key Token.notion s)].
Proof.
  intros Hs s lookup Hl.
  pose proof (getAccessToken_run cfg store subject w Hs) as Hget.
  cbv zeta in Hget. fold s in Hget. fold lookup in Hget. rewrite Hl in Hget.
  unfold invoke. rewrite (bind_rejected _ _ _ _ (f_equal settled Hget)).
  by rewrite Hget.
Qed.

(** When the lookup finds a record: the first call, and the refresh
    cycle when the call asks for it. *)
Lemma invoke_found tool subject endpoint method data w old :
  static_token cfg = None ->
  let s := js_or subject (JStr "default") in
  let lookup := TokenStore.getToken store Token.notion s w in
  settled lookup = Fulfilled (Some old) ->
  let first := notionFetch (Token.access_token old) endpoint method data (final lookup) in
  exists res1,
    settled first = Fulfilled res1 /\
    invoke cfg store tool subject endpoint method data w =
    if wants_refresh res1 old then
      Ran (match settled (retry_cycle cfg store old endpoint method data (final first))
           with
           | Fulfilled res2 => tool_outcome tool res2
           | Rejected e => Rejected e
           end)
          (final (retry_cycle cfg store old endpoint method data (final first)))
          (EvGetToken (token_key Token.notion s) ::
           emitted first ++
           emitted (retry_cycle cfg store old endpoint method data (final first)))
    else
      Ran (tool_outcome tool res1) (final first)
          (EvGetToken (token_key Token.notion s) :: emitted first).
Proof.
  intros Hs s lookup Hl. cbv zeta.
  destruct (httpWithRetry_quiet method (NOTION_API +:+ "/" +:+ endpoint)
              [("Authorization", "Bearer " +:+ js_String (Token.access_token old));
               ("Notion-Version", NOTION_VERSION);
               ("Content-Type", "application/json")] data
              {| retries := Some 3%nat; baseDelayMs := None; maxDelayMs := None |}
              (final lookup))
    as ((o & Ho) & _).
  change (httpWithRetry _ _ _ _ _ (final lookup))
    with (notionFetch (Token.access_token old) endpoint method data (final lookup)) in Ho.
  exists (observed o). split; [exact Ho|].
  pose proof (getAccessToken_run cfg store subject w Hs) as Hget.
  cbv zeta in Hget. fold s in Hget. fold lookup in Hget. rewrite Hl in Hget.
  unfold invoke.
  rewrite (bind_fulfilled _ _ _ _ (f_equal settled Hget)). rewrite Hget.
  cbn [final emitted fst snd app refresh_token_of].
  rewrite (bind_fulfilled _ _ _ _ Ho).
  fold (wants_refresh (observed o) old).
  destruct (wants_refresh (observed o) old).
  - unfold retry_cycle.
    match goal with |- context [bind ?m ?k ?w1] => rewrite (bind_then m k w1) end.
    match goal with |- _ = Ran (match settled ?x with _ => _ end) _ _ =>
      generalize x end.
    intros [[res2|e] w2 evs]; cbn [settled final emitted]; [|reflexivity].
    unfold tool_outcome, throw, ret.
    destruct (ok res2); cbn [negb settled final emitted]; by rewrite app_nil_r.
  - rewrite bind_ret.
    unfold tool_outcome, throw, ret.
    destruct (ok (observed o)); cbn [negb settled final emitted]; by rewrite app_nil_r.
Qed.

(** The four ways in which the refresh cycle runs: the refresh fails,
    it answers [null], the store turns the merged record down, or the
    store takes it and the call is made again. *)
Lemma retry_cycle_course old endpoint method data w :
  let exchange := refresh cfg (Token.refresh_token old) w in
  retry_cycle cfg store old endpoint method data w =
  match settled exchange with
  | Rejected e => Ran (Rejected e) (final exchange) (emitted exchange)
  | Fulfilled r =>
      if nullish r then
        Ran (Rejected (TypeError_read r "access_token")) (final exchange)
            (emitted exchange)
      else
        let write :=
          TokenStore.upsertToken store (merge_refreshed old r) (final exchange) in
        let handed :=
          EvUpsertToken (token_key Token.notion (Token.subject old))
            (merge_refreshed old r) in
        match settled write with
        | Rejected e => Ran (Rejected e) (final write) (emitted exchange ++ [handed])
        | Fulfilled _ =>
            let second :=
              notionFetch (field r "access_token") endpoint method data (final write) in
            Ran (settled second) (final second)
                (emitted exchange ++ [handed] ++ emitted second)
        end
  end.
Proof.
  cbv zeta. unfold retry_cycle.
  destruct (settled (refresh cfg (Token.refresh_token old) w)) as [r|e] eqn:Hr.
  - rewrite (bind_fulfilled _ _ _ _ Hr).
    destruct (nullish r) eqn:Hn.
    + rewrite (bind_rejected _ _ _ (TypeError_read r "access_token"))
        by (by rewrite upsertFromRefresh_nullish).
      rewrite upsertFromRefresh_nullish by done.
      cbn [settled final emitted]. by rewrite app_nil_r.
    + pose proof (upsertFromRefresh_run store old r
                    (final (refresh cfg (Token.refresh_token old) w)) Hn) as Hup.
      cbv zeta in Hup.
      destruct (settled (TokenStore.upsertToken store (merge_refreshed old r)
                           (final (refresh cfg (Token.refresh_token old) w))))
        as [[]|e] eqn:Hw.
      * rewrite (bind_fulfilled _ _ _ tt) by (by rewrite Hup).
        rewrite Hup. cbn [settled final emitted].
        rewrite (prop_field _ _ Hn), bind_ret. reflexivity.
      * rewrite (bind_rejected _ _ _ e) by (by rewrite Hup).
        rewrite Hup. reflexivity.
  - by rewrite (bind_rejected _ _ _ _ Hr).
Qed.
End InvokeFacts.

(** *** With the in-memory store *)

Section InMemoryFacts.
Context `{Builtins}.
Variable cfg : NotionConfig.

(** The in-memory store answers a lookup from its map and leaves the
    world as it is. *)
Lemma InMemoryTokenStore_getToken subject w :
  TokenStore.getToken InMemoryTokenStore Token.notion (js_or subject (JStr "default")) w =
  Ran (Fulfilled (tokens w !! token_key Token.notion (js_or subject (JStr "default"))))
      w [].
Proof.
  cbn [TokenStore.getToken InMemoryTokenStore]. rewrite getToken_run. cbv zeta.
  by rewrite subject_or_default_js_or.
Qed.

Lemma InMemoryTokenStore_upsertToken record w :
  TokenStore.upsertToken InMemoryTokenStore record w = upsertToken record w.
Proof. reflexivity. Qed.

Lemma getAccessToken_stored subject w :
  static_token cfg = None ->
  let s := js_or subject (JStr "default") in
  let key := token_key Token.notion s in
  getAccessToken cfg InMemoryTokenStore subject w =
  match tokens w !! key with
  | Some rec => Ran (Fulfilled (Token.access_token rec, Some rec)) w [EvGetToken key]
  | None =>
      Ran (Rejected (Error ("No Notion token for subject '" +:+ js_String s +:+
                            "'. Visit /auth/notion or set NOTION_STATIC_TOKEN.")))
          w [EvGetToken key]
  end.
Proof.
  intros Hs s key. subst key s.
  rewrite (getAccessToken_run cfg InMemoryTokenStore subject w Hs). cbv zeta.
  rewrite InMemoryTokenStore_getToken. cbn [settled final].
  by destruct (tokens w !! _).
Qed.

(** Without a static token and without a record for the subject, the
    invocation ends at the lookup. *)
Lemma invoke_missing tool subject endpoint method data w :
  static_token cfg = None ->
  tokens w !! token_key Token.notion (js_or subject (JStr "default")) = None ->
  invoke cfg InMemoryTokenStore tool subject endpoint method data w =
  Ran (Rejected (no_token subject)) w
      [EvGetToken (token_key Token.notion (js_or subject (JStr "default")))].
Proof.
  intros Hs Hnone.
  rewrite (invoke_not_found cfg InMemoryTokenStore tool subject endpoint method data w Hs);
    rewrite InMemoryTokenStore_getToken; [reflexivity|].
  cbn [settled]. by rewrite Hnone.
Qed.

(** With a record for the subject: the first call, and the refresh
    cycle when the call asks for it. *)
Lemma invoke_stored tool subject endpoint method data w old :
  static_token cfg = None ->
  tokens w !! token_key Token.notion (js_or subject (JStr "default")) = Some old ->
  exists res1,
    settled (notionFetch (Token.access_token old) endpoint method data w) =
    Fulfilled res1 /\
    invoke cfg InMemoryTokenStore tool subject endpoint method data w =
    if wants_refresh res1 old then
      Ran (match settled
                   (retry_cycle cfg InMemoryTokenStore old endpoint method data
                      (final (notionFetch (Token.access_token old) endpoint method
                                data w)))
           with
           | Fulfilled res2 => tool_outcome tool res2
           | Rejected e => Rejected e
           end)
          (final (retry_cycle cfg InMemoryTokenStore old endpoint method data
                    (final (notionFetch (Token.access_token old) endpoint method
                              data w))))
          (EvGetToken (token_key Token.notion (js_or subject (JStr "default"))) ::
           emitted (notionFetch (Token.access_token old) endpoint method data w) ++
           emitted (retry_cycle cfg InMemoryTokenStore old endpoint method data
                      (final (notionFetch (Token.access_token old) endpoint method
                                data w))))
    else
      Ran (tool_outcome tool res1)
          (final (notionFetch (Token.access_token old) endpoint method data w))
          (EvGetToken (token_key Token.notion (js_or subject (JStr "default"))) ::
           emitted (notionFetch (Token.access_token old) endpoint method data w)).
Proof.
  intros Hs Hold.
  pose proof (invoke_found cfg InMemoryTokenStore tool subject endpoint method data w old Hs)
    as Hf.
  cbv zeta in Hf. rewrite InMemoryTokenStore_getToken in Hf. cbn [settled final] in Hf.
  apply Hf. by rewrite Hold.
Qed.

(** The three ways in which the refresh cycle runs; the in-memory
    store takes every record. *)
Lemma retry_cycle_run old endpoint method data w :
  retry_cycle cfg InMemoryTokenStore old endpoint method data w =
  match settled (refresh cfg (Token.refresh_token old) w) with
  | Rejected e =>
      Ran (Rejected e) (final (refresh cfg (Token.refresh_token old) w))
          (emitted (refresh cfg (Token.refresh_token old) w))
  | Fulfilled r =>
      if nullish r then
        Ran (Rejected (TypeError_read r "access_token"))
            (final (refresh cfg (Token.refresh_token old) w))
            (emitted (refresh cfg (Token.refresh_token old) w))
      else
        Ran (settled
               (notionFetch (field r "access_token") endpoint method data
                  (final (upsertToken (merge_refreshed old r)
                            (final (refresh cfg (Token.refresh_token old) w))))))
            (final
               (notionFetch (field r "access_token") endpoint method data
                  (final (upsertToken (merge_refreshed old r)
                            (final (refresh cfg (Token.refresh_token old) w))))))
            (emitted (refresh cfg (Token.refresh_token old) w) ++
             [EvUpsertToken (token_key Token.notion (Token.subject old))
                (merge_refreshed old r)] ++
             emitted
               (notionFetch (field r "access_token") endpoint method data
                  (final (upsertToken (merge_refreshed old r)
                            (final (refresh cfg (Token.refresh_token old) w))))))
  end.
Proof.
  rewrite retry_cycle_course. cbv zeta.
  destruct (settled (refresh cfg (Token.refresh_token old) w)) as [r|e]; [|reflexivity].
  destruct (nullish r); [reflexivity|].
  cbn [TokenStore.upsertToken InMemoryTokenStore].
  by rewrite upsertToken_settled.
Qed.
End InMemoryFacts.

(** C9.  With a static override token, whatever the credential store,
    every tool handler makes its upstream call with that token and does
    nothing else: the credential store is neither read nor written, no
    refresh is sent, and a result that is not [ok], such as a 401,
    makes the handler throw the upstream error at once. *)
Theorem static_token_skips_store_and_refresh `{Builtins} cfg store usage tok t fields w :
  static_token cfg = Some tok ->
  t ∈ tools (NotionProvider cfg store usage) ->
  let run := ToolSpec.handler t (JObj fields) w in
  exists endpoint method data res,
    let call := notionFetch (JStr tok) endpoint method data w in
    settled call = Fulfilled res /\
    emitted run = emitted call /\
    final run = final call /\
    sends (emitted run) = [EvSend method (NOTION_API +:+ "/" +:+ endpoint) data] /\
    Forall (fun req => List.In ("Authorization", "Bearer " +:+ tok) (req_headers req))
           (fetched (emitted run)) /\
    store_reads (emitted run) = [] /\
    store_writes (emitted run) = [] /\
    tokens (final run) = tokens w /\
    settled run = tool_outcome (ToolSpec.name t) res /\
    (status res = 401 ->
     settled run =
     Rejected (Error (ToolSpec.name t +:+ " failed: " +:+ JSON_stringify (json res)))).
Proof.
  intros Hs Hin run.
  destruct (handlers_invoke cfg store usage t fields Hin)
    as (endpoint & method & data & Hh).
  destruct (invoke_static cfg store (ToolSpec.name t) (assoc "subject" fields)
              endpoint method data tok w Hs) as (res & Hres & Hrun).
  exists endpoint, method, data, res. cbv zeta.
  subst run. rewrite Hh, Hrun. cbn [settled final emitted].
  destruct (httpWithRetry_quiet method (NOTION_API +:+ "/" +:+ endpoint)
              [("Authorization", "Bearer " +:+ js_String (JStr tok));
               ("Notion-Version", NOTION_VERSION);
               ("Content-Type", "application/json")] data
              {| retries := Some 3%nat; baseDelayMs := None; maxDelayMs := None |} w)
    as (_ & Hsend & Hr & Hw & Ht & _).
  do 4 (split; [assumption || reflexivity|]).
  split.
  { unfold notionFetch. rewrite httpWithRetry_fetched.
    apply Forall_forall. intros req Hreq. apply elem_of_replicate in Hreq as [-> _].
    left. reflexivity. }
  repeat (split; [assumption || reflexivity|]).
  intros H401. unfold tool_outcome.
  rewrite (httpWithRetry_ok _ _ _ _ _ _ _ Hres), H401. reflexivity.
Qed.


(** ** The callback route *)

Section CallbackFacts.
Context `{Builtins}.
Variable cfg : NotionConfig.
Variable store : TokenStore.TokenStore.

Lemma callback_missing_code query_code query_state w :
  query_param query_code = "" ->
  callback cfg store query_code query_state w =
  Ran (Fulfilled {| reply_status := 400; reply_text := "Missing code" |}) w [].
Proof. intros Hc. unfold callback. by rewrite Hc. Qed.

Lemma callback_params query_code query_state :
  callback cfg store query_code query_state =
  callback cfg store (Some (query_param query_code)) (Some (query_param query_state)).
Proof. by destruct query_code, query_state. Qed.

(** A callback that carries a code: the [try] block, then the
    [catch] clause, then the [finally] block. *)
Lemma callback_with_code code state w :
  code <> "" ->
  callback cfg store (Some code) (Some state) w =
  match
    if pkce cfg then
      match pkceByState w !! state with
      | Some verifier =>
          if String.eqb verifier "" then None
          else Some (exchange store
                       [("Accept", "application/json");
                        ("Content-Type", "application/json")]
                       ([("grant_type", JStr "authorization_code");
                         ("code", JStr code);
                         ("redirect_uri", JStr (redirectUri cfg))] ++
                        [("code_verifier", JStr verifier)]) w)
      | None => None
      end
    else
      Some (exchange store
              ([("Accept", "application/json");
                ("Content-Type", "application/json")] ++
               [("Authorization",
                 basicAuthHeader (clientId cfg) (clientSecret cfg))])
              [("grant_type", JStr "authorization_code");
               ("code", JStr code);
               ("redirect_uri", JStr (redirectUri cfg))] w)
  with
  | None =>
      Ran (Fulfilled {| reply_status := 400;
                        reply_text := "Missing PKCE verifier for state" |})
          (evicted state w) []
  | Some ex =>
      Ran (match settled ex with
           | Fulfilled reply => Fulfilled reply
           | Rejected e =>
               Fulfilled {| reply_status := 500;
                            reply_text := "❌ Notion OAuth failed: " +:+ exn_message e |}
           end)
          (evicted state (final ex)) (emitted ex)
  end.
Proof.
  intros Hc.
  unfold callback.
  change (query_param (Some code)) with code.
  change (query_param (Some state)) with state.
  destruct (String.eqb_spec code ""); [contradiction|].
  unfold try_finally, evicted. rewrite try_catch_run.
  destruct (pkce cfg).
  - rewrite !bind_gets.
    destruct (pkceByState w !! state) as [verifier|].
    + destruct (String.eqb verifier "").
      * destruct (String.eqb state ""); reflexivity.
      * generalize (exchange store
                       [("Accept", "application/json");
                        ("Content-Type", "application/json")]
                       ([("grant_type", JStr "authorization_code");
                         ("code", JStr code);
                         ("redirect_uri", JStr (redirectUri cfg))] ++
                        [("code_verifier", JStr verifier)]) w).
        intros [[reply|e] w1 evs];
          destruct (String.eqb state ""); cbn; by rewrite ?app_nil_r.
    + destruct (String.eqb state ""); reflexivity.
  - generalize (exchange store
              ([("Accept", "application/json");
                ("Content-Type", "application/json")] ++
               [("Authorization",
                 basicAuthHeader (clientId cfg) (clientSecret cfg))])
              [("grant_type", JStr "authorization_code");
               ("code", JStr code);
               ("redirect_uri", JStr (redirectUri cfg))] w).
    intros [[reply|e] w1 evs];
      destruct (String.eqb state ""); cbn; by rewrite ?app_nil_r.
Qed.

(** An exchange that the endpoint turns down throws after its one
    call, without touching the store. *)
Lemma exchange_failed headers body w :
  exchange_fails w ->
  exists res,
    ok res = false /\
    settled (exchange store headers body w) =
    Rejected (Error ("Notion token exchange failed (" +:+ pretty (status res) +:+
                     "): " +:+ JSON_stringify (json res))) /\
    store_writes (emitted (exchange store headers body w)) = [] /\
    tokens (final (exchange store headers body w)) = tokens w.
Proof.
  intros Hfail.
  destruct (httpWithRetry_quiet "POST" token_url headers (JObj body)
              {| retries := Some 1%nat; baseDelayMs := None; maxDelayMs := None |} w)
    as ((o & Ho) & _ & _ & Hw & Ht & _).
  pose proof (Hfail _ _ _ Ho) as Hok.
  exists (observed o). split; [exact Hok|].
  unfold exchange. rewrite (bind_fulfilled _ _ _ _ Ho), Hok.
  cbn [negb settled final emitted throw]. rewrite app_nil_r. done.
Qed.

Lemma evicted_tokens state w : tokens (evicted state w) = tokens w.
Proof. unfold evicted. by destruct (String.eqb state ""). Qed.


(** The three ways in which a callback fails before or at the
    exchange. *)
Lemma callback_without_code query_code query_state w :
  query_param query_code = "" ->
  let run := callback cfg store query_code query_state w in
  settled run = Fulfilled {| reply_status := 400; reply_text := "Missing code" |} /\
  store_writes (emitted run) = [] /\
  tokens (final run) = tokens w.
Proof. intros Hc. cbv zeta. by rewrite (callback_missing_code _ _ w Hc). Qed.

Lemma callback_without_verifier query_code query_state w :
  query_param query_code <> "" ->
  pkce cfg = true ->
  pkceByState w !! query_param query_state = None ->
  let run := callback cfg store query_code query_state w in
  settled run =
  Fulfilled {| reply_status := 400; reply_text := "Missing PKCE verifier for state" |} /\
  store_writes (emitted run) = [] /\
  tokens (final run) = tokens w.
Proof.
  intros Hc Hp Hnone. cbv zeta.
  rewrite callback_params, (callback_with_code _ _ w Hc).
  rewrite Hp, Hnone. cbn [settled final emitted]. by rewrite evicted_tokens.
Qed.

End CallbackFacts.

(** C2, as amended.  Whatever the credential store, a callback hands
    it no credential and answers with
    an error that says why when the code is missing (400), when in
    proof-key mode no verifier is recorded under the state, a missing
    state included (400), and when the token endpoint turns the
    exchange down (500, with the status and the body of the answer).
    Outside proof-key mode the state is not looked at. *)
Theorem callback_failures_write_nothing `{Builtins} cfg store query_code query_state w :
  let code := query_param query_code in
  let state := query_param query_state in
  let run := callback cfg store query_code query_state w in
  (code = "" ->
   settled run = Fulfilled {| reply_status := 400; reply_text := "Missing code" |} /\
   store_writes (emitted run) = [] /\
   tokens (final run) = tokens w) /\
  (code <> "" -> pkce cfg = true -> pkceByState w !! state = None ->
   settled run =
   Fulfilled {| reply_status := 400; reply_text := "Missing PKCE verifier for state" |} /\
   store_writes (emitted run) = [] /\
   tokens (final run) = tokens w) /\
  (code <> "" -> reaches_exchange cfg state w -> exchange_fails w ->
   exists res,
     ok res = false /\
     settled run =
     Fulfilled {| reply_status := 500;
                  reply_text := "❌ Notion OAuth failed: " +:+
                                "Notion token exchange failed (" +:+
                                pretty (status res) +:+ "): " +:+
                                JSON_stringify (json res) |} /\
     store_writes (emitted run) = [] /\
     tokens (final run) = tokens w).
Proof.
  cbv zeta. split; [|split].
  - apply callback_without_code.
  - apply callback_without_verifier.
  - intros Hc Hreach Hfail. rewrite callback_params, (callback_with_code cfg store _ _ w Hc).
    destruct Hreach as [Hp|(verifier & Hv & Hne)].
    + rewrite Hp.
      match goal with |- context [exchange store ?hs ?bd w] =>
        destruct (exchange_failed store hs bd w Hfail) as (res & Hok & Hset & Hw & Ht) end.
      exists res. cbn [settled final emitted].
      rewrite Hset, Hw, evicted_tokens, Ht. done.
    + destruct (pkce cfg).
      * rewrite Hv. destruct (String.eqb_spec verifier ""); [contradiction|].
        match goal with |- context [exchange store ?hs ?bd w] =>
          destruct (exchange_failed store hs bd w Hfail) as (res & Hok & Hset & Hw & Ht) end.
        exists res. cbn [settled final emitted].
        rewrite Hset, Hw, evicted_tokens, Ht. done.
      * match goal with |- context [exchange store ?hs ?bd w] =>
          destruct (exchange_failed store hs bd w Hfail) as (res & Hok & Hset & Hw & Ht) end.
        exists res. cbn [settled final emitted].
        rewrite Hset, Hw, evicted_tokens, Ht. done.
Qed.


(** ** Series of writes to the credential store *)

Lemma upsertAll_cons record records w :
  upsertAll (record :: records) w =
  Ran (settled (upsertAll records (final (upsertToken record w))))
      (final (upsertAll records (final (upsertToken record w))))
      (emitted (upsertToken record w) ++
       emitted (upsertAll records (final (upsertToken record w)))).
Proof.
  cbn [upsertAll].
  apply (bind_fulfilled (upsertToken record) (fun _ => upsertAll records) w tt).
  by rewrite upsertToken_run.
Qed.

Lemma upsertAll_settled records : forall w, settled (upsertAll records w) = Fulfilled tt.
Proof.
  induction records as [|record records IH]; intros w; [reflexivity|].
  rewrite upsertAll_cons. cbn [settled]. apply IH.
Qed.

Lemma upsertToken_lookup record w key :
  tokens (final (upsertToken record w)) !! key =
  if String.eqb (key_of record) key
  then Some (Token.stamped record (clock w (ticks w))
               (match tokens w !! key ≫= Token.created_at with
                | Some c => c
                | None => clock w (S (ticks w))
                end))
  else tokens w !! key.
Proof.
  rewrite upsertToken_run. cbn [final tokens set_tokens]. fold (key_of record).
  destruct (String.eqb_spec (key_of record) key) as [->|Hne].
  - by rewrite lookup_insert_eq.
  - by rewrite lookup_insert_ne.
Qed.

Lemma last_written_under_cons key record records :
  last (written_under key (record :: records)) =
  match last (written_under key records) with
  | Some r => Some r
  | None => if String.eqb (key_of record) key then Some record else None
  end.
Proof.
  unfold written_under. cbn [List.filter].
  destruct (String.eqb (key_of record) key).
  - destruct (List.filter _ records) as [|r rs] eqn:Hf; [reflexivity|].
    by rewrite last_cons.
  - by destruct (last _).
Qed.

(** What a series of writes leaves under a key. *)
Lemma upsertAll_lookup key records : forall w,
  match last (written_under key records) with
  | Some record =>
      exists u c,
        tokens (final (upsertAll records w)) !! key = Some (Token.stamped record u c)
  | None => tokens (final (upsertAll records w)) !! key = tokens w !! key
  end.
Proof.
  induction records as [|record records IH]; intros w; [reflexivity|].
  rewrite last_written_under_cons, upsertAll_cons. cbn [final].
  specialize (IH (final (upsertToken record w))).
  destruct (last (written_under key records)) as [r|]; [exact IH|].
  rewrite IH, upsertToken_lookup.
  destruct (String.eqb (key_of record) key); eauto.
Qed.

(** X1.  The in-memory credential store is a map in which the last
    write wins: after any series of [upsertToken] calls, [getToken]
    for a provider and a subject returns the record that was written
    last under their key, with every field other than the time stamps
    as it was handed in; when the series wrote nothing under that key,
    it returns what the store held before, so that writes for other
    subjects never show. *)
Theorem last_write_wins records provider subject w :
  let key := token_key provider (subject_or_default subject) in
  let run := upsertAll records w in
  let got := settled (getToken provider subject (final run)) in
  settled run = Fulfilled tt /\
  match last (written_under key records) with
  | Some record =>
      exists stored, got = Fulfilled (Some stored) /\ same_credential record stored
  | None => got = Fulfilled (tokens w !! key)
  end.
Proof.
  intros key run got. split; [apply upsertAll_settled|].
  subst got. rewrite getToken_run. cbn [settled]. fold key.
  pose proof (upsertAll_lookup key records w) as Hl. fold run in Hl.
  destruct (last (written_under key records)) as [record|].
  - destruct Hl as (u & c & ->). eexists. split; [reflexivity|].
    apply stamped_same_credential.
  - by rewrite Hl.
Qed.

Lemma upsertAll_invariant records : forall w,
  clock_monotone w -> stamps_read w ->
  clock_monotone (final (upsertAll records w)) /\
  stamps_read (final (upsertAll records w)).
Proof.
  induction records as [|record records IH]; intros w Hmono Hread; [done|].
  rewrite upsertAll_cons. cbn [final].
  destruct (upsertToken_invariant record w Hmono Hread) as [Hmono1 Hread1].
  by apply IH.
Qed.

(** X2.  Through any series of writes, an entry of the store that has a
    [created_at] keeps it, and its [updated_at] never goes back when
    the clock does not: [created_at] is the time of the first write
    under the key, [updated_at] the time of the last. *)
Theorem stamps_through_writes records w key old c :
  tokens w !! key = Some old ->
  Token.created_at old = Some c ->
  clock_monotone w ->
  stamps_read w ->
  exists stored,
    tokens (final (upsertAll records w)) !! key = Some stored /\
    Token.created_at stored = Some c /\
    forall u u',
      Token.updated_at old = Some u -> Token.updated_at stored = Some u' -> u <= u'.
Proof.
  revert w old.
  induction records as [|record records IH]; intros w old Hold Hc Hmono Hread.
  - exists old. cbn. split; [exact Hold|]. split; [exact Hc|].
    intros u u' Hu Hu'. rewrite Hu in Hu'. injection Hu' as <-. lia.
  - rewrite upsertAll_cons. cbn [final].
    destruct (upsertToken_invariant record w Hmono Hread) as [Hmono1 Hread1].
    pose proof (upsertToken_lookup record w key) as Hl.
    rewrite Hold in Hl. cbn [mbind option_bind] in Hl. rewrite Hc in Hl.
    destruct (String.eqb (key_of record) key).
    + destruct (IH _ _ Hl eq_refl Hmono1 Hread1) as (stored & Hs & Hcs & Hus).
      exists stored. split; [exact Hs|]. split; [exact Hcs|].
      intros u u' Hu Hu'.
      destruct (Hread key old u Hold Hu) as (i & Hi & ->).
      etrans; [|apply (Hus (clock w (ticks w)) u' eq_refl Hu')].
      apply Hmono. lia.
    + destruct (IH _ _ Hl Hc Hmono1 Hread1) as (stored & Hs & Hcs & Hus).
      exists stored. split; [exact Hs|]. split; [exact Hcs|]. exact Hus.
Qed.

Lemma append_inv_head (a b c : string) : a +:+ b = a +:+ c -> b = c.
Proof. induction a as [|x a IH]; cbn; [done|]. intros [= Heq]. by apply IH. Qed.

Lemma key_of_key provider subject record :
  key_of record = token_key provider subject ->
  Token.provider record = provider /\
  js_String (Token.subject record) = js_String subject.
Proof.
  unfold key_of, token_key. destruct (Token.provider record), provider. cbn [Token.Provider_text].
  intros Heq. split; [reflexivity|].
  apply (append_inv_head "notion:"). exact Heq.
Qed.

Lemma upsertToken_keyed record w :
  keyed (tokens w) -> keyed (tokens (final (upsertToken record w))).
Proof.
  intros Hk key stored. rewrite upsertToken_lookup.
  destruct (String.eqb_spec (key_of record) key) as [<-|Hne].
  - by intros [= <-].
  - apply Hk.
Qed.

Lemma upsertAll_keyed records : forall w,
  keyed (tokens w) -> keyed (tokens (final (upsertAll records w))).
Proof.
  induction records as [|record records IH]; intros w Hk; [exact Hk|].
  rewrite upsertAll_cons. cbn [final]. by apply IH, upsertToken_keyed.
Qed.

(** X3.  The store never hands out the record of another tenant.  In a
    store in which every record is filed under its own key, as in the
    empty one, every record stays so through any series of writes, and
    a record that [getToken] returns for a provider and a subject is
    one of that provider whose subject reads as the subject asked
    for. *)
Theorem lookup_returns_own_record records provider subject w stored :
  keyed (tokens w) ->
  settled (getToken provider subject (final (upsertAll records w))) =
  Fulfilled (Some stored) ->
  keyed (tokens (final (upsertAll records w))) /\
  Token.provider stored = provider /\
  js_String (Token.subject stored) = js_String (subject_or_default subject).
Proof.
  intros Hk Hget. pose proof (upsertAll_keyed records w Hk) as Hk'.
  split; [exact Hk'|].
  rewrite getToken_run in Hget. cbn [settled] in Hget. injection Hget as Hget.
  apply key_of_key. by apply Hk'.
Qed.

(** ** Names with a separator *)

Lemma occurs_app c a b : occurs c (a +:+ b) = occurs c a || occurs c b.
Proof.
  induction a as [|x a IH]; simpl; [reflexivity|].
  by rewrite IH, orb_assoc.
Qed.

(** A name and what follows its separator can be read back from their
    concatenation when the separator does not occur in the name. *)
Lemma separated_inj c a b x y :
  occurs c a = false -> occurs c b = false ->
  a +:+ String c x = b +:+ String c y -> a = b /\ x = y.
Proof.
  revert b. induction a as [|a0 a IH]; intros [|b0 b]; cbn; intros Ha Hb Heq.
  - by injection Heq as ->.
  - injection Heq as <- _. by rewrite Ascii.eqb_refl in Hb.
  - injection Heq as -> _. by rewrite Ascii.eqb_refl in Ha.
  - apply orb_false_iff in Ha as [_ Ha]. apply orb_false_iff in Hb as [_ Hb].
    injection Heq as -> Heq. destruct (IH b Ha Hb Heq) as [-> ->]. done.
Qed.

Lemma inherited_no_colon k : inherited k = true -> occurs ":" k = false.
Proof.
  unfold inherited, Object_prototype. cbn [existsb]. intros Hk.
  repeat (apply orb_true_iff in Hk as [Hk|Hk];
          [apply String.eqb_eq in Hk; subst; reflexivity|]).
  discriminate.
Qed.

Lemma tool_key_not_inherited p t : inherited (p +:+ ":" +:+ t) = false.
Proof.
  destruct (inherited _) eqn:Hi; [|reflexivity].
  apply inherited_no_colon in Hi.
  rewrite occurs_app in Hi. cbn in Hi. by rewrite orb_true_r in Hi.
Qed.

(** ** The usage statistics *)

Lemma increment_lookup_ne k k' o : k <> k' -> increment k o !! k' = o !! k'.
Proof.
  intros Hne. unfold increment.
  destruct (o !! k) as [[n|]|]; rewrite ?lookup_insert_ne by done; try done.
  destruct (String.eqb k "__proto__"); [done|].
  destruct (inherited k); by rewrite lookup_insert_ne.
Qed.

Lemma inherited_proto k : inherited k = false -> String.eqb k "__proto__" = false.
Proof.
  unfold inherited, Object_prototype. cbn [existsb]. intros Hk.
  repeat (apply orb_false_iff in Hk as [? Hk]). done.
Qed.

Lemma increment_lookup_eq k o :
  inherited k = false ->
  increment k o !! k =
  match o !! k with
  | Some (Num n) => Some (Num (n + 1))
  | Some Text => Some Text
  | None => Some (Num 1)
  end.
Proof.
  intros Hk. unfold increment. rewrite (inherited_proto k Hk), Hk.
  destruct (o !! k) as [[n|]|]; rewrite lookup_insert_eq; [|done..].
  by destruct (Z.eqb_spec n 0) as [->|].
Qed.

Lemma occurrences_cons {A} (f : A -> bool) x l :
  occurrences f (x :: l) = (if f x then 1 else 0) + occurrences f l.
Proof. unfold occurrences. cbn [List.filter]. destruct (f x); cbn [length]; lia. Qed.

Lemma occurrences_nonneg {A} (f : A -> bool) l : 0 <= occurrences f l.
Proof. unfold occurrences. lia. Qed.

Lemma occurrences_none {A} (f : A -> bool) l :
  (forall x, f x = false) -> occurrences f l = 0.
Proof.
  intros Hf. induction l as [|x l IH]; [reflexivity|].
  by rewrite occurrences_cons, Hf, IH.
Qed.

Section Tables.
Context {A : Type} (f : A -> string).

Lemma filled_untouched k rs : forall o,
  occurrences (fun r => String.eqb (f r) k) rs = 0 ->
  filled f rs o !! k = o !! k.
Proof.
  induction rs as [|r rs IH]; intros o Hz; [reflexivity|].
  rewrite occurrences_cons in Hz.
  pose proof (occurrences_nonneg (fun r => String.eqb (f r) k) rs).
  destruct (String.eqb_spec (f r) k) as [|Hne]; [lia|].
  cbn [filled fold_left]. fold (filled f rs (increment (f r) o)).
  rewrite IH by lia. by apply increment_lookup_ne.
Qed.

Lemma filled_counted k rs : forall o n,
  inherited k = false ->
  0 <= n ->
  o !! k = counted n ->
  filled f rs o !! k = counted (n + occurrences (fun r => String.eqb (f r) k) rs).
Proof.
  induction rs as [|r rs IH]; intros o n Hk Hn Ho.
  - cbn. unfold occurrences. cbn. by rewrite Z.add_0_r.
  - rewrite occurrences_cons.
    cbn [filled fold_left]. fold (filled f rs (increment (f r) o)).
    destruct (String.eqb_spec (f r) k) as [->|Hne].
    + rewrite (IH _ (n + 1)); [f_equal; lia|done|lia|].
      rewrite increment_lookup_eq, Ho by done. unfold counted.
      destruct (Z.eqb_spec n 0) as [->|]; [done|].
      by destruct (Z.eqb_spec (n + 1) 0); [lia|].
    + rewrite (IH _ n); [f_equal; lia|done|lia|].
      by rewrite increment_lookup_ne.
Qed.

Lemma table_sum_insert k c o :
  table_sum (<[k := c]> o) = count_value c + table_sum (delete k o).
Proof.
  unfold table_sum. rewrite <- insert_delete_eq.
  apply (map_fold_insert_L (fun _ c acc => count_value c + acc)).
  - intros. lia.
  - apply lookup_delete_eq.
Qed.

Lemma table_sum_lookup k o :
  table_sum o = match o !! k with
                | Some c => count_value c + table_sum (delete k o)
                | None => table_sum (delete k o)
                end.
Proof.
  destruct (o !! k) as [c|] eqn:Hl.
  - unfold table_sum.
    apply (map_fold_delete_L (fun _ c acc => count_value c + acc)); [|exact Hl].
    intros. lia.
  - by rewrite delete_id.
Qed.

Lemma increment_numeric k o :
  inherited k = false -> numeric o ->
  numeric (increment k o) /\ table_sum (increment k o) = table_sum o + 1.
Proof.
  intros Hk Hnum. split.
  - intros k'. destruct (decide (k = k')) as [<-|Hne].
    + rewrite increment_lookup_eq by done.
      specialize (Hnum k). by destruct (o !! k) as [[n|]|].
    + rewrite increment_lookup_ne by done. apply Hnum.
  - rewrite (table_sum_lookup k o). unfold increment.
    rewrite (inherited_proto k Hk), Hk. specialize (Hnum k).
    destruct (o !! k) as [[n|]|] eqn:Hl; [|done|].
    + rewrite table_sum_insert. cbn [count_value].
      destruct (Z.eqb_spec n 0); lia.
    + rewrite table_sum_insert. cbn [count_value]. lia.
Qed.

Lemma filled_sum rs : forall o,
  Forall (fun r => inherited (f r) = false) rs -> numeric o ->
  table_sum (filled f rs o) = table_sum o + Z.of_nat (length rs).
Proof.
  induction rs as [|r rs IH]; intros o Hrs Hnum; [cbn; lia|].
  apply Forall_cons in Hrs as [Hr Hrs].
  destruct (increment_numeric (f r) o Hr Hnum) as [Hnum' Hsum].
  cbn [filled fold_left]. fold (filled f rs (increment (f r) o)).
  rewrite IH, Hsum by done. cbn [length]. lia.
Qed.
End Tables.

Lemma tally_filled rs : forall byProvider byTool,
  tally rs byProvider byTool =
  (filled Usage.provider rs byProvider, filled tool_key rs byTool).
Proof.
  induction rs as [|r rs IH]; intros bp bt; [reflexivity|].
  cbn [tally]. by rewrite IH.
Qed.

Lemma stats_run w :
  stats InMemoryUsageStore w =
  Ran (Fulfilled {| total := Z.of_nat (length (arr w));
                    byProvider := filled Usage.provider (arr w) ∅;
                    byTool := filled tool_key (arr w) ∅ |}) w [].
Proof.
  cbn [stats InMemoryUsageStore]. rewrite bind_gets, tally_filled. reflexivity.
Qed.

Lemma numeric_empty : numeric ∅.
Proof. intros k. by rewrite lookup_empty. Qed.

(** X4.  [stats()] counts the log and leaves it alone: [total] is the
    number of records logged; [byTool] holds under every key the number
    of records whose provider and tool, joined by a colon, make that
    key, and no entry under a key that no record makes; [byProvider]
    does the same for every provider name that is not the name of a
    property of [Object.prototype]. *)
Theorem stats_counts w :
  exists s,
    stats InMemoryUsageStore w = Ran (Fulfilled s) w [] /\
    total s = Z.of_nat (length (arr w)) /\
    (forall k,
       byTool s !! k =
       counted (occurrences
                  (fun r => String.eqb (Usage.provider r +:+ ":" +:+ Usage.tool_name r) k)
                  (arr w))) /\
    (forall p,
       inherited p = false ->
       byProvider s !! p =
       counted (occurrences (fun r => String.eqb (Usage.provider r) p) (arr w))).
Proof.
  eexists. split; [apply stats_run|]. cbn [total byTool byProvider].
  split; [reflexivity|]. split.
  - intros k.
    destruct (inherited k) eqn:Hk.
    + assert (Hz : occurrences (fun r => String.eqb (tool_key r) k) (arr w) = 0).
      { apply occurrences_none. intros r. apply String.eqb_neq. intros <-.
        unfold tool_key in Hk. by rewrite tool_key_not_inherited in Hk. }
      rewrite (filled_untouched tool_key k (arr w) ∅ Hz).
      unfold tool_key in Hz. rewrite Hz. apply lookup_empty.
    + by rewrite (filled_counted tool_key k (arr w) ∅ 0 Hk).
  - intros p Hp. by rewrite (filled_counted Usage.provider p (arr w) ∅ 0 Hp).
Qed.

(** X5.  The counts of [stats()] add up: the entries of [byTool] sum
    to [total], and so do the entries of [byProvider] when no provider
    name in the log is the name of a property of [Object.prototype]
    (under such a name the table holds a string, not a count). *)
Theorem stats_add_up w :
  Forall (fun r => inherited (Usage.provider r) = false) (arr w) ->
  exists s,
    settled (stats InMemoryUsageStore w) = Fulfilled s /\
    table_sum (byProvider s) = total s /\
    table_sum (byTool s) = total s.
Proof.
  intros Hlog. rewrite stats_run. eexists. split; [reflexivity|].
  cbn [total byProvider byTool].
  split.
  - by rewrite (filled_sum Usage.provider (arr w) ∅ Hlog numeric_empty).
  - rewrite (filled_sum tool_key (arr w) ∅); [done| |apply numeric_empty].
    apply Forall_forall. intros r _. apply tool_key_not_inherited.
Qed.

(** ** The registry of providers *)

Lemma inherited_no_dot k : inherited k = true -> occurs "." k = false.
Proof.
  unfold inherited, Object_prototype. cbn [existsb]. intros Hk.
  repeat (apply orb_true_iff in Hk as [Hk|Hk];
          [apply String.eqb_eq in Hk; subst; reflexivity|]).
  discriminate.
Qed.

(** A full name is never the name of an inherited property. *)
Lemma full_name_not_inherited p t : inherited (toolFullName p t) = false.
Proof.
  destruct (inherited _) eqn:Hi; [|reflexivity].
  apply inherited_no_dot in Hi. unfold toolFullName in Hi.
  rewrite occurs_app in Hi. cbn in Hi. by rewrite orb_true_r in Hi.
Qed.

Lemma existsb_eqb_false name names :
  name ∉ names -> existsb (String.eqb name) names = false.
Proof.
  intros Hn. destruct (existsb _ names) eqn:He; [|reflexivity].
  apply existsb_exists in He as (x & Hx & Heq). apply String.eqb_eq in Heq as <-.
  by apply list_elem_of_In in Hx.
Qed.

(** The server takes every registration of a provider whose full
    names are new to it and differ from one another. *)
Lemma register_tools_fresh p ts : forall server,
  NoDup (List.map reg_name server ++ List.map reg_name (List.map (registration p) ts)) ->
  register_tools p ts server = (server ++ List.map (registration p) ts, None).
Proof.
  induction ts as [|t ts IH]; intros server Hnd.
  - cbn. by rewrite app_nil_r.
  - cbn [register_tools]. unfold McpServer_registerTool.
    cbn [reg_name registration]. rewrite full_name_not_inherited.
    cbn [List.map reg_name registration] in Hnd.
    apply NoDup_app in Hnd as (Hs & Hdis & Hts).
    rewrite existsb_eqb_false.
    2: { intros Hin. apply (Hdis _ Hin). left. }
    cbn [orb]. rewrite IH.
    + by rewrite <- app_assoc.
    + rewrite List.map_app. cbn [List.map reg_name registration].
      rewrite <- app_assoc. cbn [app].
      apply NoDup_app. split; [exact Hs|]. split; [|exact Hts].
      intros x Hx Hx'. by apply (Hdis x).
Qed.

Lemma registry_stuck (r : ProviderRegistry.ProviderRegistry) server e :
  fold_left (fun done p =>
               match snd done with
               | None => registerAll p (fst done)
               | Some _ => done
               end) r (server, Some e) = (server, Some e).
Proof. induction r as [|p r IH]; [reflexivity|]. cbn [fold_left snd]. exact IH. Qed.

Lemma registry_registerAll_cons p (r : ProviderRegistry.ProviderRegistry) server :
  ProviderRegistry.registerAll (p :: r) server =
  match snd (registerAll p server) with
  | None => ProviderRegistry.registerAll r (fst (registerAll p server))
  | Some e => registerAll p server
  end.
Proof.
  unfold ProviderRegistry.registerAll. cbn [fold_left snd fst].
  destruct (registerAll p server) as [server' [e|]]; cbn [snd fst]; [|reflexivity].
  apply registry_stuck.
Qed.

(** What [registerAll] of the registry leaves on the server: after
    what was there, the first of the registrations that it asks for,
    and all of them when nothing was thrown. *)
Lemma registry_registerAll_run (r : ProviderRegistry.ProviderRegistry) : forall server,
  exists k,
    fst (ProviderRegistry.registerAll r server) = server ++ take k (wanted r) /\
    (snd (ProviderRegistry.registerAll r server) = None -> k = length (wanted r)).
Proof.
  induction r as [|p r IH]; intros server.
  - exists 0%nat. cbn. by rewrite app_nil_r.
  - rewrite registry_registerAll_cons. cbn [wanted flat_map].
    destruct (register_tools_run p (tools p) server) as (k & Hk & Hf & Hs).
    fold (registerAll p server) in Hf, Hs.
    destruct (snd (registerAll p server)) as [e|] eqn:Hsnd.
    + exists k. split; [|by rewrite Hsnd].
      rewrite Hf, take_app_le by (by rewrite length_map).
      change (List.map ?f ?l) with (f <$> l). by rewrite fmap_take.
    + specialize (Hs eq_refl). subst k. rewrite firstn_all in Hf.
      destruct (IH (fst (registerAll p server))) as (k & Hf' & Hs').
      exists (length (List.map (registration p) (tools p)) + k)%nat.
      split.
      * rewrite Hf', Hf, <- app_assoc. f_equal.
        by rewrite take_app_add.
      * intros Hn. rewrite (Hs' Hn). by rewrite length_app.
Qed.

(** The server takes all the registrations of a registry whose full
    names are new to it and differ from one another. *)
Lemma registry_registerAll_fresh (r : ProviderRegistry.ProviderRegistry) : forall server,
  NoDup (List.map reg_name server ++ List.map reg_name (wanted r)) ->
  ProviderRegistry.registerAll r server = (server ++ wanted r, None).
Proof.
  induction r as [|p r IH]; intros server Hnd.
  - cbn. by rewrite app_nil_r.
  - rewrite registry_registerAll_cons. cbn [wanted flat_map] in *.
    rewrite List.map_app in Hnd.
    unfold registerAll. rewrite register_tools_fresh.
    2: { rewrite app_assoc in Hnd. by apply NoDup_app in Hnd as (Hnd & _ & _). }
    cbn [snd fst]. rewrite IH.
    + by rewrite <- app_assoc.
    + by rewrite List.map_app, <- app_assoc.
Qed.

Lemma wanted_listed (r : ProviderRegistry.ProviderRegistry) :
  List.map registered (wanted r) = List.map advertised (ProviderRegistry.listTools r).
Proof.
  unfold ProviderRegistry.listTools, wanted.
  induction r as [|p r IH]; [reflexivity|].
  cbn [flat_map]. rewrite !List.map_app, IH. f_equal.
  unfold listTools. rewrite !List.map_map. reflexivity.
Qed.

Lemma wanted_names (r : ProviderRegistry.ProviderRegistry) :
  List.map reg_name (wanted r) = List.map Listed.name (ProviderRegistry.listTools r).
Proof.
  unfold ProviderRegistry.listTools, wanted.
  induction r as [|p r IH]; [reflexivity|].
  cbn [flat_map]. rewrite !List.map_app, IH. f_equal.
  unfold listTools. rewrite !List.map_map. reflexivity.
Qed.

(** X6.  What the registry registers is what it advertises, as far as
    the server takes it: the registrations that [registerAll] adds to
    a server carry, in the same order, the full names and the
    descriptions of the first entries of [listTools()], provider after
    provider, and of all the entries when [registerAll] does not
    throw.  It does not throw when the full names listed differ from
    one another and from the names that the server holds. *)
Theorem listed_tools_are_registered (r : ProviderRegistry.ProviderRegistry) server :
  let listing := ProviderRegistry.listTools r in
  let done := ProviderRegistry.registerAll r server in
  (exists k,
     List.map registered (fst done) =
     List.map registered server ++ take k (List.map advertised listing) /\
     (snd done = None -> k = length listing)) /\
  (NoDup (List.map reg_name server ++ List.map Listed.name listing) ->
   snd done = None /\
   List.map registered (fst done) =
   List.map registered server ++ List.map advertised listing).
Proof.
  cbv zeta. split.
  - destruct (registry_registerAll_run r server) as (k & Hf & Hs).
    exists k. split.
    + rewrite Hf, List.map_app, <- wanted_listed.
      change (List.map ?f ?l) with (f <$> l). by rewrite fmap_take.
    + intros Hn. rewrite (Hs Hn), <- (length_map advertised), <- wanted_listed.
      by rewrite length_map.
  - intros Hnd. rewrite <- wanted_names in Hnd.
    rewrite (registry_registerAll_fresh r server Hnd). cbn [fst snd].
    split; [reflexivity|]. by rewrite List.map_app, wanted_listed.
Qed.

Lemma reg_names p :
  List.map reg_name (List.map (registration p) (tools p)) =
  List.map (fun n => name p +:+ "." +:+ n) (List.map ToolSpec.name (tools p)).
Proof. rewrite !List.map_map. reflexivity. Qed.

Lemma full_name_inj p : Inj (=) (=) (fun n => name p +:+ "." +:+ n).
Proof. intros x y Heq. apply append_inv_head in Heq. by injection Heq. Qed.

(** The full names that a registry asks for differ from one another
    when its providers have different names without a dot and no
    provider has two tools of the same name. *)
Lemma wanted_distinct (r : ProviderRegistry.ProviderRegistry) :
  NoDup (List.map name r) ->
  Forall (fun p => occurs "." (name p) = false /\
                   NoDup (List.map ToolSpec.name (tools p))) r ->
  NoDup (List.map reg_name (wanted r)).
Proof.
  unfold wanted.
  induction r as [|p r IH]; intros Hnames Htools; [constructor|].
  cbn [flat_map List.map] in *. rewrite List.map_app.
  apply NoDup_cons in Hnames as [Hp Hnames].
  apply Forall_cons in Htools as [[Hdot Hdup] Htools].
  apply NoDup_app. split; [|split; [|by apply IH]].
  - rewrite reg_names.
    apply (@NoDup_fmap_2 _ _ (fun n => name p +:+ "." +:+ n) (full_name_inj p) _ Hdup).
  - intros x Hx Hx'. rewrite reg_names in Hx.
    apply list_elem_of_In, in_map_iff in Hx as (n & <- & _).
    apply list_elem_of_In, in_map_iff in Hx' as (reg & Hreg & Hin).
    apply in_flat_map in Hin as (p' & Hp' & Hin).
    assert (Hn : In (reg_name reg)
                   (List.map reg_name (List.map (registration p') (tools p'))))
      by (apply in_map_iff; eauto).
    rewrite reg_names, Hreg in Hn. apply in_map_iff in Hn as (n' & Heq & _).
    apply Forall_forall with (x := p') in Htools as [Hdot' _];
      [|by apply list_elem_of_In].
    destruct (separated_inj "." _ _ _ _ Hdot' Hdot Heq) as [Hsame _].
    apply Hp. rewrite <- Hsame. apply list_elem_of_In, in_map_iff. eauto.
Qed.

(** X7.  Tools of different providers never clash: when the providers
    of a registry have different names in which no dot occurs, and no
    provider has two tools of the same name, [registerAll] on a new
    server does not throw, and all the full names under which it has
    registered the tools are different. *)
Theorem full_names_distinct (r : ProviderRegistry.ProviderRegistry) :
  NoDup (List.map name r) ->
  Forall (fun p => occurs "." (name p) = false /\
                   NoDup (List.map ToolSpec.name (tools p))) r ->
  snd (ProviderRegistry.registerAll r []) = None /\
  NoDup (List.map reg_name (fst (ProviderRegistry.registerAll r []))) /\
  List.map reg_name (fst (ProviderRegistry.registerAll r [])) =
  List.map Listed.name (ProviderRegistry.listTools r).
Proof.
  intros Hnames Htools.
  pose proof (wanted_distinct r Hnames Htools) as Hnd.
  rewrite (registry_registerAll_fresh r [] Hnd). cbn [fst snd app].
  split; [reflexivity|]. split; [exact Hnd|]. apply wanted_names.
Qed.

(** ** The course of a tool invocation *)

Lemma fetched_app l1 l2 : fetched (l1 ++ l2) = fetched l1 ++ fetched l2.
Proof. apply omap_app. Qed.

(** A call of [httpWithRetry] fetches at most [retries + 1] times. *)
Lemma httpWithRetry_fetch_bound `{Builtins} method url headers body opts w :
  (length (fetched (emitted (httpWithRetry method url headers body opts w))) <=
   S (default 3%nat (retries opts)))%nat.
Proof.
  rewrite httpWithRetry_fetched, length_replicate.
  pose proof (leading_le (network w) (request_of method url headers body)
                (default 3%nat (retries opts)) (fetches w)).
  lia.
Qed.

Section InvokeRuns.
Context `{Builtins}.
Variable cfg : NotionConfig.

(** What one upstream call and one refresh leave alone. *)
Lemma notionFetch_effects token endpoint method data w :
  let run := notionFetch token endpoint method data w in
  sends (emitted run) = [EvSend method (NOTION_API +:+ "/" +:+ endpoint) data] /\
  store_writes (emitted run) = [] /\
  (length (fetched (emitted run)) <= 4)%nat /\
  tokens (final run) = tokens w /\
  arr (final run) = arr w /\
  pkceByState (final run) = pkceByState w.
Proof.
  cbv zeta. unfold notionFetch.
  match goal with |- context [httpWithRetry ?m ?u ?h ?b ?o w] =>
    destruct (httpWithRetry_quiet m u h b o w)
      as (_ & Hs & _ & Hw & Ht & Hp & Ha & _);
    pose proof (httpWithRetry_fetch_bound m u h b o w) as Hf end.
  cbv zeta in *. cbn [retries default] in Hf. done.
Qed.

Lemma refresh_effects refresh_token w :
  let run := refresh cfg refresh_token w in
  sends (emitted run) = [EvSend "POST" token_url (refresh_body refresh_token)] /\
  store_writes (emitted run) = [] /\
  (length (fetched (emitted run)) <= 2)%nat /\
  tokens (final run) = tokens w /\
  arr (final run) = arr w /\
  pkceByState (final run) = pkceByState w.
Proof.
  cbv zeta. destruct (refresh_run cfg refresh_token w) as (res & _ & -> & -> & _).
  match goal with |- context [httpWithRetry ?m ?u ?h ?b ?o w] =>
    destruct (httpWithRetry_quiet m u h b o w)
      as (_ & Hs & _ & Hw & Ht & Hp & Ha & _);
    pose proof (httpWithRetry_fetch_bound m u h b o w) as Hf end.
  cbv zeta in *. cbn [retries default] in Hf. done.
Qed.

Lemma notionFetch_reads token endpoint method data w :
  store_reads (emitted (notionFetch token endpoint method data w)) = [].
Proof.
  unfold notionFetch.
  match goal with |- context [httpWithRetry ?m ?u ?h ?b ?o w] =>
    destruct (httpWithRetry_quiet m u h b o w) as (_ & _ & Hr & _) end.
  exact Hr.
Qed.

Lemma refresh_reads refresh_token w :
  store_reads (emitted (refresh cfg refresh_token w)) = [].
Proof. by destruct (refresh_quiet cfg refresh_token w) as (_ & Hr & _). Qed.

(** Every invocation, whatever the upstream and the store answer: at
    most three calls are made, which fetch at most ten times, and the
    store is read at most once and handed at most one record. *)
Lemma invoke_bounds store tool subject endpoint method data w :
  let run := invoke cfg store tool subject endpoint method data w in
  (length (sends (emitted run)) <= 3)%nat /\
  (length (fetched (emitted run)) <= 10)%nat /\
  (length (store_reads (emitted run)) <= 1)%nat /\
  (length (store_writes (emitted run)) <= 1)%nat.
Proof.
  cbv zeta. destruct (static_token cfg) as [tok|] eqn:Hs.
  { destruct (invoke_static cfg store tool subject endpoint method data tok w Hs)
      as (res & _ & ->).
    cbn [settled final emitted].
    destruct (notionFetch_effects (JStr tok) endpoint method data w)
      as (Hs1 & Hw1 & Hf1 & _).
    rewrite Hs1, Hw1, notionFetch_reads. cbn [length]. lia. }
  destruct (settled (TokenStore.getToken store Token.notion
                       (js_or subject (JStr "default")) w)) as [[old|]|e] eqn:Hl.
  2: { rewrite (invoke_not_found cfg store tool subject endpoint method data w Hs Hl).
       cbn. lia. }
  2: { rewrite (invoke_unanswered cfg store tool subject endpoint method data w e Hs Hl).
       cbn. lia. }
  destruct (invoke_found cfg store tool subject endpoint method data w old Hs Hl)
    as (res1 & _ & ->).
  match goal with |- context [notionFetch ?tk endpoint method data ?w0] =>
    destruct (notionFetch_effects tk endpoint method data w0)
      as (Hs1 & Hw1 & Hf1 & _);
    pose proof (notionFetch_reads tk endpoint method data w0) as Hr1;
    revert Hs1 Hw1 Hf1 Hr1;
    generalize (notionFetch tk endpoint method data w0)
  end.
  intros call1 Hs1 Hw1 Hf1 Hr1.
  destruct (wants_refresh res1 old).
  2: { cbn [settled final emitted].
       change (?x :: ?l) with ([x] ++ l).
       rewrite sends_app, store_writes_app, store_reads_app, fetched_app, Hs1, Hw1, Hr1.
       cbn. lia. }
  rewrite retry_cycle_course. cbv zeta.
  destruct (refresh_effects (Token.refresh_token old) (final call1))
    as (Hs2 & Hw2 & Hf2 & _).
  pose proof (refresh_reads (Token.refresh_token old) (final call1)) as Hr2.
  revert Hs2 Hw2 Hf2 Hr2.
  generalize (refresh cfg (Token.refresh_token old) (final call1)).
  intros [[r|e] w2 evs2]; cbn [settled final emitted]; intros Hs2 Hw2 Hf2 Hr2.
  2: { change (?x :: ?l ++ ?l') with ([x] ++ l ++ l').
       rewrite !sends_app, !store_writes_app, !store_reads_app, !fetched_app, !length_app,
         Hs1, Hw1, Hr1, Hs2, Hw2, Hr2.
       cbn. lia. }
  destruct (nullish r).
  { cbn [settled final emitted].
    change (?x :: ?l ++ ?l') with ([x] ++ l ++ l').
    rewrite !sends_app, !store_writes_app, !store_reads_app, !fetched_app, !length_app,
      Hs1, Hw1, Hr1, Hs2, Hw2, Hr2.
    cbn. lia. }
  generalize (TokenStore.upsertToken store (merge_refreshed old r) w2).
  intros [[[]|e] w3 evs3]; cbn [settled final emitted].
  2: { change (?x :: ?l ++ ?l2 ++ ?l3) with ([x] ++ l ++ l2 ++ l3).
       rewrite !sends_app, !store_writes_app, !store_reads_app, !fetched_app, !length_app,
         Hs1, Hw1, Hr1, Hs2, Hw2, Hr2.
       cbn. lia. }
  match goal with |- context [notionFetch ?tk endpoint method data ?w0] =>
    destruct (notionFetch_effects tk endpoint method data w0)
      as (Hs3 & Hw3 & Hf3 & _);
    pose proof (notionFetch_reads tk endpoint method data w0) as Hr3;
    revert Hs3 Hw3 Hf3 Hr3;
    generalize (notionFetch tk endpoint method data w0)
  end.
  intros call2 Hs3 Hw3 Hf3 Hr3.
  change (?x :: ?l ++ ?l2 ++ ?l3 ++ ?l4) with ([x] ++ l ++ l2 ++ l3 ++ l4).
  rewrite !sends_app, !store_writes_app, !store_reads_app, !fetched_app, !length_app,
    Hs1, Hw1, Hr1, Hs2, Hw2, Hr2, Hs3, Hw3, Hr3.
  cbn. lia.
Qed.

(** Every invocation with the in-memory store, whatever the upstream
    answers: the usage log and
    the verifiers are left alone, at most three calls are made, and the
    store is either left alone or written once, under the key of the
    record that was read. *)
Lemma invoke_effects tool subject endpoint method data w :
  let run := invoke cfg InMemoryTokenStore tool subject endpoint method data w in
  arr (final run) = arr w /\
  pkceByState (final run) = pkceByState w /\
  (length (sends (emitted run)) <= 3)%nat /\
  (length (fetched (emitted run)) <= 10)%nat /\
  ((store_writes (emitted run) = [] /\ tokens (final run) = tokens w) \/
   exists old record stored,
     static_token cfg = None /\
     tokens w !! token_key Token.notion (js_or subject (JStr "default")) = Some old /\
     store_writes (emitted run) = [(key_of old, record)] /\
     same_credential record stored /\
     key_of stored = key_of old /\
     tokens (final run) = <[key_of old := stored]> (tokens w)).
Proof.
  cbv zeta. destruct (static_token cfg) as [tok|] eqn:Hs.
  { destruct (invoke_static cfg InMemoryTokenStore tool subject endpoint method data tok w Hs)
      as (res & _ & ->).
    cbn [settled final emitted].
    destruct (notionFetch_effects (JStr tok) endpoint method data w)
      as (Hs1 & Hw1 & Hf1 & Ht1 & Ha1 & Hp1).
    rewrite Hs1, Hw1, Ht1, Ha1, Hp1. cbn [length].
    repeat (split; [done || lia|]). by left. }
  destruct (tokens w !! token_key Token.notion (js_or subject (JStr "default")))
    as [old|] eqn:Hold.
  2: { rewrite (invoke_missing cfg tool subject endpoint method data w Hs Hold).
       cbn. repeat (split; [done || lia|]). by left. }
  destruct (invoke_stored cfg tool subject endpoint method data w old Hs Hold)
    as (res1 & _ & ->).
  destruct (notionFetch_effects (Token.access_token old) endpoint method data w)
    as (Hs1 & Hw1 & Hf1 & Ht1 & Ha1 & Hp1).
  revert Hs1 Hw1 Hf1 Ht1 Ha1 Hp1.
  generalize (notionFetch (Token.access_token old) endpoint method data w).
  intros call1 Hs1 Hw1 Hf1 Ht1 Ha1 Hp1.
  destruct (wants_refresh res1 old).
  2: { cbn [settled final emitted].
       change (?x :: ?l) with ([x] ++ l).
       rewrite sends_app, store_writes_app, fetched_app, Hs1, Hw1, Ht1, Ha1, Hp1.
       cbn [sends store_writes fetched omap List.filter app length]. cbn.
       repeat (split; [done || lia|]). by left. }
  rewrite retry_cycle_run.
  destruct (refresh_effects (Token.refresh_token old) (final call1))
    as (Hs2 & Hw2 & Hf2 & Ht2 & Ha2 & Hp2).
  revert Hs2 Hw2 Hf2 Ht2 Ha2 Hp2.
  generalize (refresh cfg (Token.refresh_token old) (final call1)).
  intros [[r|e] w2 evs2]; cbn [settled final emitted]; intros Hs2 Hw2 Hf2 Ht2 Ha2 Hp2.
  2: { change (?x :: ?l ++ ?l') with ([x] ++ l ++ l').
       rewrite !sends_app, !store_writes_app, !fetched_app, !length_app,
         Hs1, Hw1, Hs2, Hw2, Ht2, Ha2, Hp2, Ht1, Ha1, Hp1.
       cbn. repeat (split; [done || lia|]). by left. }
  destruct (nullish r).
  { cbn [settled final emitted].
    change (?x :: ?l ++ ?l') with ([x] ++ l ++ l').
    rewrite !sends_app, !store_writes_app, !fetched_app, !length_app,
      Hs1, Hw1, Hs2, Hw2, Ht2, Ha2, Hp2, Ht1, Ha1, Hp1.
    cbn. repeat (split; [done || lia|]). by left. }
  pose proof (upsertToken_run (merge_refreshed old r) w2) as Hup. cbv zeta in Hup.
  rewrite Hup. cbn [settled final emitted].
  match goal with |- context [notionFetch ?t endpoint method data ?w3] =>
    destruct (notionFetch_effects t endpoint method data w3)
      as (Hs3 & Hw3 & Hf3 & Ht3 & Ha3 & Hp3);
    revert Hs3 Hw3 Hf3 Ht3 Ha3 Hp3;
    generalize (notionFetch t endpoint method data w3) end.
  intros call2 Hs3 Hw3 Hf3 Ht3 Ha3 Hp3.
  cbn [tokens arr pkceByState set_tokens set_ticks] in Ht3, Ha3, Hp3.
  assert (Hkey : key_of (merge_refreshed old r) = key_of old).
  { unfold key_of. cbn [merge_refreshed Token.provider Token.subject].
    by destruct (Token.provider old). }
  assert (Hkey' : token_key Token.notion (Token.subject old) = key_of old).
  { unfold key_of. by destruct (Token.provider old). }
  fold (key_of (merge_refreshed old r)) in *. rewrite Hkey in *. rewrite Hkey'.
  change (?x :: ?l ++ ?l2 ++ ?l3 ++ ?l4) with ([x] ++ l ++ l2 ++ l3 ++ l4).
  rewrite !sends_app, !store_writes_app, !fetched_app, !length_app,
    Hs1, Hw1, Hs2, Hw2, Hs3, Hw3, Ht3, Ha3, Hp3, Ha2, Hp2, Ha1, Hp1, Ht2, Ht1.
  cbn [sends store_writes fetched omap List.filter app length].
  repeat (split; [done || (cbn; lia)|]).
  right. eexists old, (merge_refreshed old r), _.
  split; [done|]. split; [done|]. split; [done|].
  split; [|split]; [| |reflexivity].
  - apply stamped_same_credential.
  - exact Hkey.
Qed.
End InvokeRuns.

(** X8.  With the in-memory stores, a tool that is invoked for a
    subject without a stored credential, in a hub without a static
    token, fails before anything is sent: the handler that is
    registered for the tool throws the error that names the subject, no
    request is fetched, the credential store is left as it was, and
    the usage log, when the hub has one, receives one failure record
    with the message of that error. *)
Theorem missing_credential_is_reported `{Builtins} cfg usage t fields w :
  usage = None \/ usage = Some InMemoryUsageStore ->
  static_token cfg = None ->
  t ∈ tools (NotionProvider cfg InMemoryTokenStore usage) ->
  tokens w !! token_key Token.notion (js_or (assoc "subject" fields) (JStr "default")) =
  None ->
  let run := instrumented (NotionProvider cfg InMemoryTokenStore usage) t (JObj fields) w in
  let e := no_token (assoc "subject" fields) in
  settled run = Rejected e /\
  fetched (emitted run) = [] /\
  store_writes (emitted run) = [] /\
  tokens (final run) = tokens w /\
  arr (final run) =
  arr w ++
  match usage with
  | Some _ =>
      [{| Usage.provider := "notion";
          Usage.tool_name := ToolSpec.name t;
          Usage.subject := None;
          Usage.success := false;
          Usage.latency_ms := Some (clock w (S (ticks w)) - clock w (ticks w));
          Usage.error_message := Some (exn_message e) |}]
  | None => []
  end.
Proof.
  intros Hu Hs Hin Hnone. cbv zeta.
  destruct (handlers_invoke cfg InMemoryTokenStore usage t fields Hin)
    as (endpoint & method & data & Hh).
  rewrite instrumented_run. cbv zeta. rewrite Hh.
  rewrite (invoke_missing cfg (ToolSpec.name t) (assoc "subject" fields) endpoint
             method data (set_ticks (S (ticks w)) w) Hs Hnone).
  cbn [settled final emitted]. destruct Hu as [-> | ->]; cbn.
  - by rewrite app_nil_r.
  - done.
Qed.

(** X9.  Without a cause there is no refresh.  When the store has
    answered the lookup with a record and the first upstream call of
    the invocation succeeds, or fails with a status other than 401, or
    the record has no refresh token, the invocation is that one call:
    its outcome is the outcome of the call, the store is read once and
    never written, and nothing is posted to the token endpoint.  This
    holds for every credential store. *)
Theorem no_refresh_without_cause `{Builtins} cfg store tool subject endpoint method data
    w old res1 :
  static_token cfg = None ->
  let lookup :=
    TokenStore.getToken store Token.notion (js_or subject (JStr "default")) w in
  settled lookup = Fulfilled (Some old) ->
  let first := notionFetch (Token.access_token old) endpoint method data (final lookup) in
  settled first = Fulfilled res1 ->
  ok res1 = true \/ status res1 <> 401 \/ truthy (Token.refresh_token old) = false ->
  let run := invoke cfg store tool subject endpoint method data w in
  settled run = tool_outcome tool res1 /\
  sends (emitted run) = [EvSend method (NOTION_API +:+ "/" +:+ endpoint) data] /\
  store_reads (emitted run) = [token_key Token.notion (js_or subject (JStr "default"))] /\
  store_writes (emitted run) = [] /\
  final run = final first /\
  tokens (final run) = tokens (final lookup).
Proof.
  intros Hs. cbv zeta. intros Hl Hres1 Hcause.
  destruct (invoke_found cfg store tool subject endpoint method data w old Hs Hl)
    as (res & Hres & ->).
  rewrite Hres1 in Hres. injection Hres as <-.
  assert (Hno : wants_refresh res1 old = false).
  { unfold wants_refresh. destruct Hcause as [->|[Hne| ->]].
    - reflexivity.
    - apply Z.eqb_neq in Hne. rewrite Hne. by rewrite andb_false_r.
    - by rewrite andb_false_r. }
  rewrite Hno. cbn [settled final emitted].
  match goal with |- context [notionFetch ?tk endpoint method data ?w0] =>
    destruct (notionFetch_effects tk endpoint method data w0)
      as (Hsend & Hw & _ & Ht & _);
    pose proof (notionFetch_reads tk endpoint method data w0) as Hr
  end.
  cbv zeta in *.
  change (?x :: ?l) with ([x] ++ l).
  rewrite sends_app, store_reads_app, store_writes_app, Hsend, Hr, Hw, Ht.
  done.
Qed.

(** X10.  A refresh that is answered with a success status and no
    body ends the invocation with a [TypeError]: the handler reads
    [access_token] of [null].  Nothing is handed to the store, whatever
    store it is, and the upstream call is not made again. *)
Theorem refresh_without_body `{Builtins} cfg store tool subject endpoint method data
    w old res1 r :
  static_token cfg = None ->
  let lookup :=
    TokenStore.getToken store Token.notion (js_or subject (JStr "default")) w in
  settled lookup = Fulfilled (Some old) ->
  truthy (Token.refresh_token old) = true ->
  let first := notionFetch (Token.access_token old) endpoint method data (final lookup) in
  settled first = Fulfilled res1 ->
  status res1 = 401 ->
  let exchange := refresh cfg (Token.refresh_token old) (final first) in
  settled exchange = Fulfilled r ->
  nullish r = true ->
  let run := invoke cfg store tool subject endpoint method data w in
  settled run = Rejected (TypeError_read r "access_token") /\
  sends (emitted run) =
  [EvSend method (NOTION_API +:+ "/" +:+ endpoint) data;
   EvSend "POST" token_url (refresh_body (Token.refresh_token old))] /\
  store_writes (emitted run) = [] /\
  final run = final exchange /\
  tokens (final run) = tokens (final lookup).
Proof.
  intros Hs. cbv zeta. intros Hl Hrt Hres1 H401 Hr Hnull.
  destruct (invoke_found cfg store tool subject endpoint method data w old Hs Hl)
    as (res & Hres & ->).
  rewrite Hres1 in Hres. injection Hres as <-.
  assert (Hyes : wants_refresh res1 old = true).
  { unfold wants_refresh. unfold notionFetch in Hres1.
    by rewrite (httpWithRetry_ok _ _ _ _ _ _ _ Hres1), H401, Hrt. }
  rewrite Hyes, retry_cycle_course. cbv zeta. rewrite Hr, Hnull.
  cbn [settled final emitted].
  match type of Hres1 with settled (notionFetch ?tk _ _ _ ?w0) = _ =>
    destruct (notionFetch_effects tk endpoint method data w0)
      as (Hs1 & Hw1 & _ & Ht1 & _);
    destruct (refresh_effects cfg (Token.refresh_token old)
                (final (notionFetch tk endpoint method data w0)))
      as (Hs2 & Hw2 & _ & Ht2 & _)
  end.
  cbv zeta in *.
  change (?x :: ?l ++ ?l') with ([x] ++ l ++ l').
  rewrite !sends_app, !store_writes_app, Hs1, Hs2, Hw1, Hw2, Ht2, Ht1.
  done.
Qed.

(** X11.  With the in-memory store, an invocation touches the
    credential of its own subject only.  In a store in which every
    record is filed under its own key, whatever the upstream answers,
    the entries under every other key are after the invocation what
    they were before, every write is made under the key of the subject
    of the invocation, every record is still filed under its own key,
    and the proof-key verifiers and the usage log are left alone. *)
Theorem invocation_touches_one_record `{Builtins} cfg tool subject endpoint method data w :
  keyed (tokens w) ->
  let key := token_key Token.notion (js_or subject (JStr "default")) in
  let run := invoke cfg InMemoryTokenStore tool subject endpoint method data w in
  (forall k, k <> key -> tokens (final run) !! k = tokens w !! k) /\
  Forall (fun written => fst written = key) (store_writes (emitted run)) /\
  keyed (tokens (final run)) /\
  pkceByState (final run) = pkceByState w /\
  arr (final run) = arr w.
Proof.
  intros Hk. cbv zeta.
  destruct (invoke_effects cfg tool subject endpoint method data w)
    as (Ha & Hp & _ & _ &
        [[Hw Ht]|(old & record & stored & _ & Hold & Hw & _ & Hks & Ht)]).
  - rewrite Hw, Ht. done.
  - rewrite Hw, Ht. pose proof (Hk _ _ Hold) as Hkey. rewrite Hkey in *.
    split; [|split; [|split]]; [| |intros k rec|done].
    + intros k Hne. by rewrite lookup_insert_ne.
    + by repeat constructor.
    + destruct (decide (token_key Token.notion (js_or subject (JStr "default")) = k))
        as [<-|Hne].
      * rewrite lookup_insert_eq. by intros [= <-].
      * rewrite lookup_insert_ne by done. apply Hk.
Qed.

(** X12.  The upstream traffic of an invocation is bounded.  Whatever
    the upstream and the credential store answer, the handler of a
    tool makes at most three calls of [httpWithRetry] (the call, a
    refresh, the call again), which fetch at most ten times in all,
    and hands the store at most one record. *)
Theorem invocation_is_bounded `{Builtins} cfg store usage t fields w :
  t ∈ tools (NotionProvider cfg store usage) ->
  let run := ToolSpec.handler t (JObj fields) w in
  (length (sends (emitted run)) <= 3)%nat /\
  (length (fetched (emitted run)) <= 10)%nat /\
  (length (store_writes (emitted run)) <= 1)%nat.
Proof.
  intros Hin. cbv zeta.
  destruct (handlers_invoke cfg store usage t fields Hin)
    as (endpoint & method & data & ->).
  destruct (invoke_bounds cfg store (ToolSpec.name t) (assoc "subject" fields)
              endpoint method data w)
    as (Hsends & Hfetched & _ & Hwrites).
  done.
Qed.

Lemma counted_succ n : 0 <= n -> counted (n + 1) = Some (Num (n + 1)).
Proof. intros Hn. unfold counted. by destruct (Z.eqb_spec (n + 1) 0); [lia|]. Qed.

Lemma occurrences_app {A} (f : A -> bool) l1 l2 :
  occurrences f (l1 ++ l2) = occurrences f l1 + occurrences f l2.
Proof. unfold occurrences. rewrite List.filter_app, length_app. lia. Qed.

(** X13.  Every invocation is counted once.  With the in-memory
    stores, the registered handler of a tool appends exactly one record
    to the log, whatever the upstream answers: the handler itself never
    writes the log.  The record says whether the invocation succeeded,
    and [stats()] afterwards shows a [total] and a count under
    [notion:<tool>] that are one more than before. *)
Theorem every_invocation_is_counted `{Builtins} cfg t fields w :
  t ∈ tools (NotionProvider cfg InMemoryTokenStore (Some InMemoryUsageStore)) ->
  let run :=
    instrumented (NotionProvider cfg InMemoryTokenStore (Some InMemoryUsageStore))
      t (JObj fields) w in
  exists entry before after n,
    arr (final run) = arr w ++ [entry] /\
    Usage.provider entry = "notion" /\
    Usage.tool_name entry = ToolSpec.name t /\
    Usage.success entry = match settled run with Fulfilled _ => true | Rejected _ => false end /\
    settled (stats InMemoryUsageStore w) = Fulfilled before /\
    settled (stats InMemoryUsageStore (final run)) = Fulfilled after /\
    total after = total before + 1 /\
    0 <= n /\
    byTool before !! ("notion:" +:+ ToolSpec.name t) = counted n /\
    byTool after !! ("notion:" +:+ ToolSpec.name t) = Some (Num (n + 1)).
Proof.
  intros Hin. cbv zeta.
  destruct (handlers_invoke cfg _ _ t fields Hin) as (endpoint & method & data & Hh).
  rewrite instrumented_run. cbv zeta. rewrite Hh.
  destruct (invoke_effects cfg (ToolSpec.name t) (assoc "subject" fields)
              endpoint method data (set_ticks (S (ticks w)) w))
    as (Ha & _).
  revert Ha.
  generalize (invoke cfg InMemoryTokenStore (ToolSpec.name t) (assoc "subject" fields)
                endpoint method data (set_ticks (S (ticks w)) w)).
  intros [[out|e] w1 evs] Ha;
    cbn [settled final emitted arr set_ticks set_arr usage NotionProvider registerTool
         log_attempt log InMemoryUsageStore modify] in *.
  all: eexists _, _, _,
         (occurrences
            (fun r => String.eqb (tool_key r) ("notion:" +:+ ToolSpec.name t)) (arr w)).
  all: rewrite !stats_run; cbn [settled final arr set_arr].
  all: rewrite Ha.
  all: split; [reflexivity|]; split; [reflexivity|]; split; [reflexivity|].
  all: split; [reflexivity|]; split; [reflexivity|]; split; [reflexivity|].
  all: cbn [total byTool].
  all: split; [rewrite length_app; cbn [length]; lia|].
  all: split; [apply occurrences_nonneg|].
  all: assert (Hk : inherited ("notion:" +:+ ToolSpec.name t) = false)
         by apply (tool_key_not_inherited "notion").
  all: rewrite !(filled_counted tool_key _ _ ∅ 0 Hk) by done.
  all: split; [reflexivity|].
  all: rewrite occurrences_app, occurrences_cons.
  all: unfold tool_key at 2; cbn [Usage.provider Usage.tool_name name usage_entry].
  all: change ("notion" +:+ ":" +:+ ToolSpec.name t) with ("notion:" +:+ ToolSpec.name t).
  all: rewrite String.eqb_refl.
  all: change (occurrences _ []) with 0.
  all: rewrite Z.add_0_l, Z.add_0_r.
  all: apply counted_succ, occurrences_nonneg.
Qed.


(** ** The course of a callback *)

Section CallbackRuns.
Context `{Builtins}.
Variable cfg : NotionConfig.
Variable store : TokenStore.TokenStore.

(** The exchange, in full: the call of the token endpoint, then the
    error of a refusal, the [TypeError] of an answer without a body,
    or the call of the store with the record, whose error, when the
    store turns the record down, is the error of the exchange. *)
Lemma exchange_run headers body w :
  let call := httpWithRetry "POST" token_url headers (JObj body)
                {| retries := Some 1%nat; baseDelayMs := None; maxDelayMs := None |} w in
  exists res,
    settled call = Fulfilled res /\
    exchange store headers body w =
    if ok res then
      if nullish (json res) then
        Ran (Rejected (TypeError_read (json res) "workspace_id")) (final call)
            (emitted call)
      else
        let write := TokenStore.upsertToken store (granted (json res)) (final call) in
        Ran (match settled write with
             | Fulfilled _ => Fulfilled authorized
             | Rejected e => Rejected e
             end)
            (final write)
            (emitted call ++
             [EvUpsertToken (key_of (granted (json res))) (granted (json res))])
    else
      Ran (Rejected (Error ("Notion token exchange failed (" +:+ pretty (status res) +:+
                            "): " +:+ JSON_stringify (json res))))
          (final call) (emitted call).
Proof.
  cbv zeta.
  destruct (httpWithRetry_quiet "POST" token_url headers (JObj body)
              {| retries := Some 1%nat; baseDelayMs := None; maxDelayMs := None |} w)
    as ((o & Ho) & _).
  exists (observed o). split; [exact Ho|].
  unfold exchange. rewrite (bind_fulfilled _ _ _ _ Ho).
  revert Ho.
  generalize (httpWithRetry "POST" token_url headers (JObj body)
                {| retries := Some 1%nat; baseDelayMs := None; maxDelayMs := None |} w).
  intros posted Ho.
  destruct (ok (observed o)); cbn [negb].
  2: { cbn [throw settled final emitted]. by rewrite app_nil_r. }
  destruct (nullish (json (observed o))) eqn:Hn.
  - destruct (json (observed o)); try discriminate Hn;
      cbn [prop bind throw settled final emitted]; by rewrite app_nil_r.
  - rewrite (prop_field _ _ Hn), bind_ret. cbv zeta.
    fold (granted (json (observed o))).
    change (token_key Token.notion
              (js_or (field (json (observed o)) "workspace_id") (JStr "default")))
      with (key_of (granted (json (observed o)))).
    unfold bind, emit, call, ret. cbn [settled final emitted app].
    destruct (settled (TokenStore.upsertToken store _ (final posted))) as [[]|e];
      cbn [settled final emitted]; by rewrite ?app_nil_r.
Qed.


(** A callback that carries a code either stops for want of a
    verifier or runs one exchange. *)
Lemma callback_course code state w :
  code <> "" ->
  callback cfg store (Some code) (Some state) w =
  Ran (Fulfilled {| reply_status := 400;
                    reply_text := "Missing PKCE verifier for state" |})
      (evicted state w) [] \/
  exists headers body,
    callback cfg store (Some code) (Some state) w =
    Ran (match settled (exchange store headers body w) with
         | Fulfilled reply => Fulfilled reply
         | Rejected e => Fulfilled (oauth_failed e)
         end)
        (evicted state (final (exchange store headers body w)))
        (emitted (exchange store headers body w)).
Proof.
  intros Hc. rewrite (callback_with_code cfg store code state w Hc).
  destruct (pkce cfg).
  - destruct (pkceByState w !! state) as [verifier|]; [|by left].
    destruct (String.eqb verifier ""); [by left|].
    right. eexists _, _. reflexivity.
  - right. eexists _, _. reflexivity.
Qed.
End CallbackRuns.


(** X16.  With the in-memory store, a credential granted through the
    callback is the one that the tools then use.  Without a static
    token, after a callback that answered 200, [getAccessToken] for the
    workspace that the token endpoint named returns the access token of
    that answer; so does [getAccessToken] without a subject when the
    answer named no workspace. *)
Theorem granted_credential_is_found `{Builtins} cfg query_code query_state w reply :
  static_token cfg = None ->
  settled (callback cfg InMemoryTokenStore query_code query_state w) = Fulfilled reply ->
  reply_status reply = 200 ->
  exists headers body res stored,
    settled (httpWithRetry "POST" token_url headers (JObj body)
               {| retries := Some 1%nat; baseDelayMs := None; maxDelayMs := None |} w) =
    Fulfilled res /\
    ok res = true /\
    Token.raw stored = json res /\
    settled (getAccessToken cfg InMemoryTokenStore (field (json res) "workspace_id")
               (final (callback cfg InMemoryTokenStore query_code query_state w))) =
    Fulfilled (field (json res) "access_token", Some stored) /\
    (truthy (field (json res) "workspace_id") = false ->
     settled (getAccessToken cfg InMemoryTokenStore JUndefined
                (final (callback cfg InMemoryTokenStore query_code query_state w))) =
     Fulfilled (field (json res) "access_token", Some stored)).
Proof.
  intros Hs Hrun H200.
  assert (Hnot : forall text (w' : World) evs,
            callback cfg InMemoryTokenStore query_code query_state w =
            Ran (Fulfilled {| reply_status := 400; reply_text := text |}) w' evs ->
            False).
  { intros text w' evs Heq. rewrite Heq in Hrun. injection Hrun as <-.
    discriminate H200. }
  destruct (String.eqb_spec (query_param query_code) "") as [Hc|Hc].
  { exfalso. eapply Hnot. apply (callback_missing_code cfg _ _ _ w Hc). }
  rewrite callback_params in Hrun, Hnot |- *.
  destruct (callback_course cfg InMemoryTokenStore _ (query_param query_state) w Hc)
    as [Hstop|(headers & body & Hcourse)].
  { exfalso. eapply Hnot. exact Hstop. }
  clear Hnot. rewrite Hcourse in Hrun |- *. clear Hcourse.
  destruct (exchange_run InMemoryTokenStore headers body w) as (res & Hres & Hex).
  rewrite Hex in Hrun |- *. clear Hex.
  destruct (httpWithRetry_quiet "POST" token_url headers (JObj body)
              {| retries := Some 1%nat; baseDelayMs := None; maxDelayMs := None |} w)
    as (_ & _ & _ & _ & Ht & _).
  exists headers, body, res. revert Hres Ht Hrun.
  generalize (httpWithRetry "POST" token_url headers (JObj body)
                {| retries := Some 1%nat; baseDelayMs := None; maxDelayMs := None |} w).
  intros call Hres Ht Hrun.
  destruct (ok res).
  2: { cbn in Hrun. injection Hrun as <-. discriminate H200. }
  destruct (nullish (json res)) eqn:Hn.
  { cbn in Hrun. injection Hrun as <-. discriminate H200. }
  clear Hrun. cbv zeta. rewrite InMemoryTokenStore_upsertToken. cbn [settled final emitted].
  eexists. split; [exact Hres|]. split; [reflexivity|].
  rewrite !(getAccessToken_stored cfg _ _ Hs). cbv zeta.
  rewrite !evicted_tokens, !upsertToken_lookup.
  change (key_of (granted (json res)))
    with (token_key Token.notion (js_or (field (json res) "workspace_id") (JStr "default"))).
  rewrite String.eqb_refl. cbn [settled].
  split; [|split; [reflexivity|]].
  - reflexivity.
  - intros Hw.
    assert (Hd : js_or (field (json res) "workspace_id") (JStr "default") =
                 js_or JUndefined (JStr "default"))
      by (unfold js_or; by rewrite Hw).
    rewrite <- Hd.
    change (key_of (granted (json res)))
      with (token_key Token.notion
              (js_or (field (json res) "workspace_id") (JStr "default"))).
    by rewrite String.eqb_refl.
Qed.

(** X17.  A token endpoint that answers the exchange with a success
    status and no body makes the callback answer 500 with the message
    of the [TypeError] raised by reading [workspace_id] of [null];
    nothing is handed to the store, whatever store it is. *)
Theorem callback_without_grant `{Builtins} cfg store query_code query_state w :
  query_param query_code <> "" ->
  reaches_exchange cfg (query_param query_state) w ->
  exchange_empty w ->
  let run := callback cfg store query_code query_state w in
  settled run =
  Fulfilled {| reply_status := 500;
               reply_text := "❌ Notion OAuth failed: " +:+
                             "Cannot read properties of null (reading 'workspace_id')" |} /\
  store_writes (emitted run) = [] /\
  tokens (final run) = tokens w.
Proof.
  intros Hc Hreach Hempty. cbv zeta.
  rewrite callback_params, (callback_with_code cfg store _ _ w Hc).
  assert (Hex : forall headers body,
            settled (exchange store headers body w) =
            Rejected (TypeError_read JNull "workspace_id") /\
            store_writes (emitted (exchange store headers body w)) = [] /\
            tokens (final (exchange store headers body w)) = tokens w).
  { intros headers body.
    destruct (exchange_run store headers body w) as (res & Hres & ->).
    destruct (Hempty _ _ _ Hres) as [-> ->].
    destruct (httpWithRetry_quiet "POST" token_url headers (JObj body)
                {| retries := Some 1%nat; baseDelayMs := None; maxDelayMs := None |} w)
      as (_ & _ & _ & Hw & Ht & _).
    cbn [nullish settled final emitted]. done. }
  destruct Hreach as [Hp|(verifier & Hv & Hne)].
  - rewrite Hp.
    match goal with |- context [exchange store ?hs ?bd w] =>
      destruct (Hex hs bd) as (Hset & Hw & Ht) end.
    cbn [settled final emitted]. rewrite Hset, Hw, evicted_tokens, Ht. done.
  - destruct (pkce cfg).
    + rewrite Hv. destruct (String.eqb_spec verifier ""); [contradiction|].
      match goal with |- context [exchange store ?hs ?bd w] =>
        destruct (Hex hs bd) as (Hset & Hw & Ht) end.
      cbn [settled final emitted]. rewrite Hset, Hw, evicted_tokens, Ht. done.
    + match goal with |- context [exchange store ?hs ?bd w] =>
        destruct (Hex hs bd) as (Hset & Hw & Ht) end.
      cbn [settled final emitted]. rewrite Hset, Hw, evicted_tokens, Ht. done.
Qed.

(** ** Wait hints *)

(** [parseInt] reads back the decimal numerals. *)
Lemma digit_of_char m :
  (m < 10)%N ->
  digit_of (pretty_N_char m) = Some (Z.of_N m) /\
  is_space (pretty_N_char m) = false /\
  pretty_N_char m <> "-"%char /\
  pretty_N_char m <> "+"%char.
Proof.
  intros Hm.
  assert (m = 0 \/ m = 1 \/ m = 2 \/ m = 3 \/ m = 4 \/ m = 5 \/ m = 6 \/ m = 7 \/
          m = 8 \/ m = 9)%N as Hcases by lia.
  repeat (destruct Hcases as [->|Hcases]; [by vm_compute|]).
  subst. by vm_compute.
Qed.

Lemma append_assoc' (a b c : string) : (a +:+ b) +:+ c = a +:+ (b +:+ c).
Proof.
  induction a as [|x a IH]; [reflexivity|].
  change (String x ((a +:+ b) +:+ c) = String x (a +:+ (b +:+ c))). by rewrite IH.
Qed.

Lemma pretty_N_go_digits (x : N) : forall s,
  exists t,
    pretty_N_go x s = t +:+ s /\
    (x = 0%N -> t = "") /\
    ((0 < x)%N ->
     (exists m t0, (m < 10)%N /\ t = String (pretty_N_char m) t0) /\
     forall rest, parse_digits (t +:+ rest) None = parse_digits rest (Some (Z.of_N x))).
Proof.
  induction (N.lt_wf_0 x) as [x _ IH]; intros s.
  assert (x = 0 \/ 0 < x)%N as [->|Hpos] by lia.
  { exists "". rewrite pretty_N_go_0. split; [reflexivity|]. split; [done|intros ?; exfalso; lia]. }
  rewrite pretty_N_go_step by done.
  assert (Hlt : (x `div` 10 < x)%N) by (by apply N.div_lt).
  assert (Hmod : (x `mod` 10 < 10)%N) by (by apply N.mod_lt).
  assert (Hx : x = (10 * (x `div` 10) + x `mod` 10)%N) by (by apply N.div_mod).
  revert Hlt Hmod Hx. generalize (x `div` 10)%N (x `mod` 10)%N. intros q d Hlt Hmod Hx.
  destruct (digit_of_char _ Hmod) as (Hd & _).
  destruct (IH _ Hlt (String (pretty_N_char d) s)) as (t' & -> & Hz & Hp).
  exists (t' +:+ String (pretty_N_char d) "").
  split; [by rewrite append_assoc'|]. split; [intros ?; exfalso; lia|]. intros _.
  destruct (N.eq_0_gt_0_cases q) as [Hq|Hq].
  - rewrite (Hz Hq). split; [exists d, ""; done|].
    intros rest. change (("" +:+ String (pretty_N_char d) "") +:+ rest)
      with (String (pretty_N_char d) rest).
    cbn [parse_digits]. rewrite Hd. cbn [default from_option id]. do 2 f_equal. lia.
  - destruct (Hp Hq) as ((m & t0 & Hm & ->) & Hparse). split.
    + exists m, (t0 +:+ String (pretty_N_char d) ""). done.
    + intros rest. rewrite append_assoc'. rewrite Hparse.
      change (String (pretty_N_char d) "" +:+ rest) with (String (pretty_N_char d) rest).
      cbn [parse_digits]. rewrite Hd. cbn [default from_option id]. do 2 f_equal. lia.
Qed.

Lemma parse_digits_pretty (p : positive) :
  exists m t0,
    (m < 10)%N /\
    pretty (N.pos p) = String (pretty_N_char m) t0 /\
    parse_digits (pretty (N.pos p)) None = Some (Z.pos p).
Proof.
  unfold pretty, pretty_N. destruct (decide (N.pos p = 0%N)) as [|_]; [lia|].
  destruct (pretty_N_go_digits (N.pos p) "") as (t & -> & _ & Hp).
  destruct Hp as ((m & t0 & Hm & ->) & Hparse); [lia|].
  exists m, (t0 +:+ ""). split; [exact Hm|]. split; [reflexivity|].
  rewrite Hparse. reflexivity.
Qed.

(** [parseInt] reads the decimal numeral of an integer as the Number
    nearest to the integer. *)
Lemma parseInt_pretty (n : Z) : parseInt (pretty n) = binary64 n.
Proof.
  destruct n as [|p|p]; [reflexivity|..].
  - change (pretty (Z.pos p)) with (pretty (N.pos p)).
    destruct (parse_digits_pretty p) as (m & t0 & Hm & Heq & Hparse).
    rewrite Heq in *. destruct (digit_of_char m Hm) as (_ & Hsp & Hminus & Hplus).
    unfold parseInt. cbn [skip_spaces]. rewrite Hsp.
    destruct (pretty_N_char m) as [[] [] [] [] [] [] [] []];
      try (by rewrite Hparse); contradiction.
  - change (pretty (Z.neg p)) with (String "-"%char (pretty (N.pos p))).
    destruct (parse_digits_pretty p) as (m & t0 & Hm & _ & Hparse).
    revert Hparse. generalize (pretty (N.pos p)). intros t Hparse.
    unfold parseInt. simpl. rewrite Hparse. reflexivity.
Qed.

(** An integer below 2^53 in absolute value is its own Number. *)
Lemma binary64_exact (z : Z) : Z.abs z < 2 ^ 53 -> binary64 z = Some z.
Proof.
  intros Hz. unfold binary64.
  assert (He : Z.log2 (Z.abs z) - 52 <= 0).
  { destruct (Z.eq_dec (Z.abs z) 0) as [->|Hne]; [by vm_compute|].
    assert (Z.log2 (Z.abs z) < 53) by (apply Z.log2_lt_pow2; lia). lia. }
  apply Z.leb_le in He. by rewrite He.
Qed.

Section DelayFacts.
Context `{Builtins}.
Variables (method url : string) (headers : list (string * string)).
Variables (body : JsValue) (baseDelay maxDelay : Z).

(** The delay slept after the [k]-th retried attempt. *)
Lemma delays_lookup n : forall w attempt k,
  (k < n)%nat ->
  delays method url headers body baseDelay maxDelay w attempt n !! k =
  Some (delay_of baseDelay maxDelay
          (after_retries method url headers body w k) (attempt + k)
          (network w (fetches w + k)%nat (request_of method url headers body))).
Proof.
  induction n as [|n IH]; intros w attempt k Hk; [lia|].
  destruct k as [|k]; cbn [delays after_retries].
  - by rewrite !Nat.add_0_r.
  - cbn [lookup list_lookup]. rewrite IH by lia.
    destruct (after_retry_frame w (network w (fetches w)
                                     (request_of method url headers body)))
      as (-> & -> & _).
    replace (S attempt + k)%nat with (attempt + S k)%nat by lia.
    replace (S (fetches w) + k)%nat with (fetches w + S k)%nat by lia.
    reflexivity.
Qed.

(** One draw for every retried attempt that carried no hint. *)
Lemma after_retries_draws n : forall w,
  draws (after_retries method url headers body w n) =
  (draws w +
   unhinted (network w) (request_of method url headers body) (fetches w) n)%nat.
Proof.
  induction n as [|n IH]; intros w; cbn [after_retries unhinted]; [lia|].
  rewrite IH.
  destruct (after_retry_frame w (network w (fetches w)
                                   (request_of method url headers body)))
    as (-> & -> & _).
  unfold after_retry.
  destruct (hint (network w (fetches w) (request_of method url headers body)));
    cbn [draws set_draws set_fetches]; lia.
Qed.
End DelayFacts.

(** X18.  A wait hint of the server overrides the computed delay.
    After a retried attempt whose answer carries a non-empty
    [retry-after] header, [httpWithRetry] sleeps the Number that
    [parseInt] reads in the header, times 1000, in the arithmetic of
    Numbers.  A header that writes in decimal an integer [n] whose
    thousandfold is below 2^53 in absolute value gives a sleep of
    exactly [n * 1000] milliseconds, whatever [baseDelayMs] and
    [maxDelayMs] are, so that the hint is not capped by
    [maxDelayMs]. *)
Theorem retry_after_overrides_backoff `{Builtins} method url headers body opts w k s :
  let req := request_of method url headers body in
  let run := httpWithRetry method url headers body opts w in
  (k < leading (network w) req (fetches w) (default 3%nat (retries opts)))%nat ->
  hint (network w (fetches w + k)%nat req) = Some s ->
  slept (emitted run) !! k = Some (Number_mul (parseInt s) (Some 1000)) /\
  forall n : Z,
    s = pretty n ->
    Z.abs n * 1000 < 2 ^ 53 ->
    slept (emitted run) !! k = Some (Some (n * 1000)).
Proof.
  intros req run Hk Hs.
  assert (Hslept : slept (emitted run) !! k = Some (Number_mul (parseInt s) (Some 1000))).
  { subst run. rewrite httpWithRetry_run. cbn [emitted].
    rewrite slept_send, slept_attempt_events, delays_lookup by exact Hk.
    unfold delay_of. fold req. by rewrite Hs. }
  split; [exact Hslept|].
  intros n -> Hn. rewrite Hslept, parseInt_pretty, binary64_exact by lia.
  cbn [Number_mul]. rewrite binary64_exact by lia. reflexivity.
Qed.

(** X19.  The attempts of one call.  [httpWithRetry] sends the same
    request at every attempt, sleeps once after every attempt but the
    last, and draws one random number for every delay that it computes
    and none for a delay that the server gave. *)
Theorem attempts_of_a_call `{Builtins} method url headers body opts w :
  let req := request_of method url headers body in
  let run := httpWithRetry method url headers body opts w in
  let n := leading (network w) req (fetches w) (default 3%nat (retries opts)) in
  fetched (emitted run) = replicate (S n) req /\
  length (slept (emitted run)) = n /\
  draws (final run) = (draws w + unhinted (network w) req (fetches w) n)%nat /\
  fetches (final run) = (fetches w + S n)%nat.
Proof.
  intros req run n. subst run. rewrite httpWithRetry_run. cbn [emitted final].
  rewrite slept_send, fetched_send, slept_attempt_events, fetched_attempt_events,
    length_delays.
  cbn [draws fetches set_fetches]. rewrite after_retries_draws.
  fold req n. repeat split; lia.
Qed.

(** ** The requests of a run *)

Lemma fetched_get key l : fetched (EvGetToken key :: l) = fetched l.
Proof. reflexivity. Qed.

Lemma fetched_upsert key record l : fetched (EvUpsertToken key record :: l) = fetched l.
Proof. reflexivity. Qed.

Section RequestFacts.
Context `{Builtins}.
Variable cfg : NotionConfig.
Variable store : TokenStore.TokenStore.

Lemma Forall_replicate_eq {A} (n : nat) (x : A) : Forall (fun y => y = x) (replicate n x).
Proof. apply Forall_forall. by intros y [-> _]%elem_of_replicate. Qed.

Lemma notionFetch_requests token endpoint method data w :
  Forall (fun req => req = api_request token endpoint method data)
         (fetched (emitted (notionFetch token endpoint method data w))).
Proof. unfold notionFetch. rewrite httpWithRetry_fetched. apply Forall_replicate_eq. Qed.

Lemma refresh_requests refresh_token w :
  Forall (fun req => req = refresh_request cfg refresh_token)
         (fetched (emitted (refresh cfg refresh_token w))).
Proof.
  destruct (refresh_run cfg refresh_token w) as (res & _ & _ & -> & _).
  rewrite httpWithRetry_fetched. apply Forall_replicate_eq.
Qed.

(** The requests of an exchange are those of its one call. *)
Lemma exchange_fetched headers body w :
  fetched (emitted (exchange store headers body w)) =
  fetched (emitted (httpWithRetry "POST" token_url headers (JObj body)
                      {| retries := Some 1%nat; baseDelayMs := None;
                         maxDelayMs := None |} w)).
Proof.
  destruct (exchange_run store headers body w) as (res & _ & ->). cbv zeta.
  destruct (ok res); [destruct (nullish (json res))|]; cbn [emitted]; try reflexivity.
  rewrite fetched_app, fetched_upsert.
  change (fetched []) with (@nil Request). by rewrite app_nil_r.
Qed.

Lemma exchange_requests headers body w :
  Forall (fun req => req = request_of "POST" token_url headers (JObj body))
         (fetched (emitted (exchange store headers body w))).
Proof.
  rewrite exchange_fetched, httpWithRetry_fetched. apply Forall_replicate_eq.
Qed.
End RequestFacts.

(** X20.  What a tool invocation sends, whatever the upstream and the
    credential store answer.  Every request that it fetches either
    goes to the endpoint of the tool with a bearer token, which is the
    static token, the stored access token or the access token of the
    refresh, or is the post of the refresh to the token endpoint.  The
    client secret is in the headers of that post only, and in
    proof-key mode it is in no request at all. *)
Theorem invocation_requests `{Builtins} cfg store tool subject endpoint method data w :
  let run := invoke cfg store tool subject endpoint method data w in
  Forall (fun req =>
            (exists token, req = api_request token endpoint method data) \/
            (exists refresh_token, req = refresh_request cfg refresh_token))
         (fetched (emitted run)).
Proof.
  cbv zeta.
  assert (Hcall : forall token w',
            Forall (fun req =>
                      (exists token, req = api_request token endpoint method data) \/
                      (exists refresh_token, req = refresh_request cfg refresh_token))
                   (fetched (emitted (notionFetch token endpoint method data w')))).
  { intros token w'. eapply Forall_impl; [apply notionFetch_requests|].
    intros req ->. left. eauto. }
  assert (Hpost : forall refresh_token w',
            Forall (fun req =>
                      (exists token, req = api_request token endpoint method data) \/
                      (exists refresh_token, req = refresh_request cfg refresh_token))
                   (fetched (emitted (refresh cfg refresh_token w')))).
  { intros refresh_token w'. eapply Forall_impl; [apply refresh_requests|].
    intros req ->. right. eauto. }
  destruct (static_token cfg) as [tok|] eqn:Hs.
  { destruct (invoke_static cfg store tool subject endpoint method data tok w Hs)
      as (res & _ & ->).
    cbn [emitted]. apply Hcall. }
  destruct (settled (TokenStore.getToken store Token.notion
                       (js_or subject (JStr "default")) w)) as [[old|]|e] eqn:Hl.
  2: { rewrite (invoke_not_found cfg store tool subject endpoint method data w Hs Hl).
       constructor. }
  2: { rewrite (invoke_unanswered cfg store tool subject endpoint method data w e Hs Hl).
       constructor. }
  destruct (invoke_found cfg store tool subject endpoint method data w old Hs Hl)
    as (res1 & _ & ->).
  destruct (wants_refresh res1 old); cbn [emitted]; rewrite fetched_get.
  2: { apply Hcall. }
  rewrite fetched_app. apply Forall_app. split; [apply Hcall|].
  rewrite retry_cycle_course. cbv zeta.
  match goal with |- context [refresh cfg ?rt ?w1] =>
    pose proof (Hpost rt w1) as Hp; revert Hp; generalize (refresh cfg rt w1)
  end.
  intros [[r|e] w2 evs2]; cbn [settled final emitted]; intros Hp; [|exact Hp].
  destruct (nullish r); cbn [emitted]; [exact Hp|].
  destruct (settled (TokenStore.upsertToken store (merge_refreshed old r) w2));
    cbn [emitted]; rewrite !fetched_app, fetched_upsert;
    change (fetched []) with (@nil Request); cbn [app].
  - apply Forall_app. split; [exact Hp|apply Hcall].
  - by rewrite app_nil_r.
Qed.

(** X21.  What the callback route sends, whatever the credential
    store.  Every request that it fetches is the same post to the
    token endpoint: the code and the redirect URI, with the verifier
    recorded under the state in proof-key mode, and with the client
    secret in the headers outside proof-key mode only.  There are at
    most two of them, and none without a code. *)
Theorem callback_requests `{Builtins} cfg store query_code query_state w :
  let run := callback cfg store query_code query_state w in
  let verifier := if pkce cfg then pkceByState w !! query_param query_state else None in
  Forall (fun req => req = exchange_request cfg (query_param query_code) verifier)
         (fetched (emitted run)) /\
  (length (fetched (emitted run)) <= 2)%nat /\
  (query_param query_code = "" -> fetched (emitted run) = []).
Proof.
  cbv zeta.
  destruct (String.eqb_spec (query_param query_code) "") as [Hc|Hc].
  { rewrite (callback_missing_code cfg store _ _ w Hc). cbn. split; [constructor|].
    split; [lia|done]. }
  split; [|split; [|done]];
    rewrite callback_params, (callback_with_code cfg store _ _ w Hc).
  - unfold exchange_request, token_headers.
    destruct (pkce cfg).
    + destruct (pkceByState w !! query_param query_state) as [verifier|];
        [|constructor].
      destruct (String.eqb verifier ""); [constructor|].
      cbn [emitted app]. apply exchange_requests.
    + cbn [emitted]. rewrite app_nil_r. apply exchange_requests.
  - assert (Hex : forall headers body,
              (length (fetched (emitted (exchange store headers body w))) <= 2)%nat).
    { intros headers body. rewrite exchange_fetched.
      pose proof (httpWithRetry_fetch_bound "POST" token_url headers (JObj body)
                    {| retries := Some 1%nat; baseDelayMs := None; maxDelayMs := None |} w)
        as Hf.
      cbn [retries default] in Hf. exact Hf. }
    destruct (pkce cfg).
    + destruct (pkceByState w !! query_param query_state) as [verifier|];
        [|cbn; lia].
      destruct (String.eqb verifier ""); [cbn; lia|].
      cbn [emitted]. apply Hex.
    + cbn [emitted]. apply Hex.
Qed.

(** * Sample runs *)

(** ** The resilient call client *)

(** C3 on a sample: with [retries = 2] and an upstream that answers
    503, 429 and then cannot be reached, three attempts are made and
    the result has [ok: false]. *)
Lemma httpWithRetry_never_throws_witness :
  let run := @httpWithRetry sample_builtins "GET" "https://api.notion.com/v1/users/me" []
               JUndefined
               {| retries := Some 2%nat; baseDelayMs := None; maxDelayMs := None |}
               (scripted [answer 503 ""; answer 429 ""] [] ∅ ∅) in
  length (fetched (emitted run)) = 3%nat /\
  exists r, settled run = Fulfilled r /\ ok r = false.
Proof.
  destruct (@httpWithRetry_never_throws sample_builtins "GET"
              "https://api.notion.com/v1/users/me" [] JUndefined
              {| retries := Some 2%nat; baseDelayMs := None; maxDelayMs := None |}
              (scripted [answer 503 ""; answer 429 ""] [] ∅ ∅))
    as (n & _ & _ & _ & _ & Hall).
  apply Hall; [reflexivity|].
  intros [|[|k]]; reflexivity.
Defined.

(** C4 on a sample: the answers 503, 503, 200 with [retries = 3]. *)
Lemma httpWithRetry_retry_rule_witness :
  let run := @httpWithRetry sample_builtins "GET" "https://api.notion.com/v1/users/me" []
               JUndefined
               {| retries := Some 3%nat; baseDelayMs := None; maxDelayMs := None |}
               (scripted [answer 503 ""; answer 503 ""; answer 200 "me"] [] ∅ ∅) in
  settled run =
  Fulfilled {| ok := true; status := 200; json := JObj [("object", JStr "user")] |} /\
  length (fetched (emitted run)) = 3%nat /\
  length (slept (emitted run)) = 2%nat.
Proof.
  destruct (@httpWithRetry_retry_rule sample_builtins "GET"
              "https://api.notion.com/v1/users/me" [] JUndefined
              {| retries := Some 3%nat; baseDelayMs := None; maxDelayMs := None |}
              (scripted [answer 503 ""; answer 503 ""; answer 200 "me"] [] ∅ ∅))
    as (_ & _ & Hscenario).
  exact (Hscenario eq_refl
           {| Response.status := 503; Response.headers := []; Response.text := Fulfilled "" |}
           {| Response.status := 503; Response.headers := []; Response.text := Fulfilled "" |}
           {| Response.status := 200; Response.headers := []; Response.text := Fulfilled "me" |}
           "" "" "me"
           eq_refl eq_refl eq_refl eq_refl eq_refl eq_refl eq_refl eq_refl eq_refl).
Defined.

(** C5 as stated fails: with [baseDelay = 10], a first jitter of 99 and
    a second of 0, the delays of one call are 109 and then 20. *)
Lemma backoff_decreases_under_jitter :
  let w := scripted [] [(99 # 100)%Q; 0%Q] ∅ ∅ in
  let run := @httpWithRetry sample_builtins "GET" "https://api.notion.com/v1/users/me" []
               JUndefined
               {| retries := Some 2%nat; baseDelayMs := Some 10; maxDelayMs := Some 3000 |}
               w in
  hint_free w /\
  random_in_range w /\
  slept (emitted run) = [Some 109; Some 20] /\
  ~ nondecreasing [109; 20].
Proof.
  cbv zeta. split; [|split; [|split]].
  - intros n req. reflexivity.
  - intros [|[|n]]; split; vm_compute; congruence.
  - vm_compute. reflexivity.
  - intros Hmono. specialize (Hmono 0%nat 1%nat 109 20). simpl in Hmono.
    specialize (Hmono ltac:(lia) eq_refl eq_refl). lia.
Qed.

(** C5, as amended, on a sample: the same draws with the default
    [baseDelay] of 300. *)
Lemma backoff_bounded_and_monotone_witness :
  let w := scripted [] [(99 # 100)%Q; 0%Q] ∅ ∅ in
  let run := @httpWithRetry sample_builtins "GET" "https://api.notion.com/v1/users/me" []
               JUndefined
               {| retries := Some 2%nat; baseDelayMs := Some 300; maxDelayMs := Some 3000 |}
               w in
  exists ds, slept (emitted run) = List.map Some ds /\
             Forall (fun d => d <= 3000) ds /\ nondecreasing ds.
Proof.
  assert (Hfree : hint_free (scripted [] [(99 # 100)%Q; 0%Q] ∅ ∅))
    by (intros n req; reflexivity).
  destruct (@backoff_bounded_and_monotone sample_builtins "GET"
              "https://api.notion.com/v1/users/me" [] JUndefined
              {| retries := Some 2%nat; baseDelayMs := Some 300; maxDelayMs := Some 3000 |}
              _ Hfree) as (ds & Hs & Hb & Hm).
  exists ds. split; [exact Hs|]. split; [exact Hb|].
  apply Hm; [|simpl; lia].
  intros [|[|n]]; split; vm_compute; congruence.
Defined.

(** ** The credential store *)

(** C6 on a sample: a second write under the key ["notion:ws1"], on a
    clock that reads 1000, 1001, and so on. *)
Lemma upsert_then_get_witness :
  let w := scripted [] [] sample_store ∅ in
  let w1 := final (upsertToken sample_record w) in
  exists stored,
    settled (getToken Token.notion (JStr "ws1") w1) = Fulfilled (Some stored) /\
    same_credential sample_record stored /\
    Token.updated_at stored = Some 1002 /\
    Token.created_at stored = Some 1001 /\
    1000 <= clock w (ticks w).
Proof.
  destruct (upsert_then_get sample_record Token.notion (JStr "ws1")
              (scripted [] [] sample_store ∅) eq_refl)
    as (_ & stored & Hget & Hsame & Hu & Hgrows & Hkept & _).
  exists stored. split; [exact Hget|]. split; [exact Hsame|]. split; [exact Hu|].
  split; [apply (Hkept sample_record 1001); reflexivity|].
  apply (Hgrows sample_record 1000); [reflexivity|reflexivity| |].
  - intros i j Hij. simpl. lia.
  - intros key stored' u Hlook Hstamp. unfold scripted, sample_store in Hlook.
    cbn [tokens] in Hlook. apply lookup_singleton_Some in Hlook as [_ <-].
    injection Hstamp as <-. exists 0%nat. split; [simpl; lia|reflexivity].
Defined.

(** C6 as stated fails: on a clock that steps back, a second write
    under the key ["notion:ws1"] stores an [updated_at] that lies
    before the one that the first write had stored. *)
Lemma updated_at_follows_the_clock :
  let w1 := final (upsertToken sample_record backwards) in
  let w2 := final (upsertToken sample_record w1) in
  exists first second,
    settled (getToken Token.notion (JStr "ws1") w1) = Fulfilled (Some first) /\
    settled (getToken Token.notion (JStr "ws1") w2) = Fulfilled (Some second) /\
    Token.updated_at first = Some 5000 /\
    Token.updated_at second = Some 4600 /\
    ~ 5000 <= 4600.
Proof. cbv zeta. eexists _, _. vm_compute. repeat split; congruence. Qed.

(** ** The instrumentation wrapper *)



(** ** The tool handlers *)

(** C9 on a sample: a static token, a store that holds a record with a
    refresh token, and an upstream that answers 401. *)
Lemma static_token_skips_store_and_refresh_witness :
  let run := @getSelf sample_builtins static_cfg InMemoryTokenStore for_ws1
               (scripted [answer 401 ""] [] sample_store ∅) in
  store_reads (emitted run) = [] /\
  sends (emitted run) = [EvSend "GET" "https://api.notion.com/v1/users/me" JUndefined] /\
  settled run = Rejected (Error "getSelf failed: null").
Proof.
  destruct (@static_token_skips_store_and_refresh sample_builtins static_cfg InMemoryTokenStore None
              "secret_static" (@getSelf_tool sample_builtins static_cfg InMemoryTokenStore)
              [("subject", JStr "ws1")]
              (scripted [answer 401 ""] [] sample_store ∅) eq_refl)
    as (endpoint & method & data & res & Hres & Hev & Hfin & Hsend & _ & Hreads & _).
  { apply list_elem_of_In. simpl. tauto. }
  split; [exact Hreads|]. split; reflexivity.
Defined.



(** The same answers with a store that turns the merged record down:
    the error of the store is the outcome, and the upstream call is
    not made again. *)
Lemma refused_write_ends_invocation :
  let w := scripted [answer 401 ""; answer 200 "fresh"; answer 200 "me"] []
             sample_store ∅ in
  let run := @invoke sample_builtins oauth_cfg refusing "getSelf" (JStr "ws1")
               "users/me" "GET" JUndefined w in
  settled run = Rejected (Error "connection refused") /\
  sends (emitted run) =
  [EvSend "GET" "https://api.notion.com/v1/users/me" JUndefined;
   EvSend "POST" "https://api.notion.com/v1/oauth/token" (refresh_body (JStr "rt0"))] /\
  (fst <$> store_writes (emitted run)) = ["notion:ws1"] /\
  tokens (final run) = tokens w.
Proof. vm_compute. repeat split. Qed.

(** ** The callback route *)

(** C2 as stated fails: outside proof-key mode a callback without any
    state is answered 200 and its credential is written. *)
Lemma callback_accepts_missing_state :
  let w := scripted [answer 200 "grant"] [] ∅ ∅ in
  let run := @callback sample_builtins oauth_cfg InMemoryTokenStore (Some "c0de") None w in
  query_param None = "" /\
  pkceByState w !! "" = None /\
  settled run =
  Fulfilled {| reply_status := 200;
               reply_text := "✅ Notion authorized. You can close this tab." |} /\
  (fst <$> store_writes (emitted run)) = ["notion:ws1"] /\
  Token.access_token <$> (tokens (final run) !! "notion:ws1") = Some (JStr "at1").
Proof. vm_compute. repeat split. Qed.

(** C2, as amended, on a sample: the token endpoint answers 400. *)
Lemma callback_failures_write_nothing_witness :
  let w := scripted [answer 400 ""] [] ∅ ∅ in
  let run := @callback sample_builtins oauth_cfg InMemoryTokenStore (Some "c0de") (Some "s1") w in
  exists res,
    ok res = false /\
    settled run =
    Fulfilled {| reply_status := 500;
                 reply_text := "❌ Notion OAuth failed: " +:+
                               "Notion token exchange failed (" +:+
                               pretty (status res) +:+ "): " +:+
                               @JSON_stringify sample_builtins (json res) |} /\
    store_writes (emitted run) = [] /\
    tokens (final run) = tokens w.
Proof.
  destruct (@callback_failures_write_nothing sample_builtins oauth_cfg InMemoryTokenStore
              (Some "c0de") (Some "s1") (scripted [answer 400 ""] [] ∅ ∅))
    as (_ & _ & Hfails).
  apply Hfails.
  - discriminate.
  - left. reflexivity.
  - intros headers body res Hres.
    rewrite httpWithRetry_run in Hres. cbn [settled] in Hres.
    injection Hres as <-. vm_compute. reflexivity.
Defined.



(** ** Series of writes *)

Lemma scripted_clock_monotone answers rolls store verifiers :
  clock_monotone (scripted answers rolls store verifiers).
Proof. intros i j Hij. cbn. lia. Defined.

Lemma sample_store_stamps_read answers rolls verifiers :
  stamps_read (scripted answers rolls sample_store verifiers).
Proof.
  intros key stored u Hlook Hstamp. unfold scripted, sample_store in Hlook.
  cbn [tokens] in Hlook. apply lookup_singleton_Some in Hlook as [_ <-].
  injection Hstamp as <-. exists 0%nat. split; [simpl; lia|reflexivity].
Defined.

Lemma sample_store_keyed : keyed sample_store.
Proof.
  intros key stored Hlook. unfold sample_store in Hlook.
  apply lookup_singleton_Some in Hlook as [<- <-]. reflexivity.
Defined.

Lemma empty_keyed : keyed ∅.
Proof. intros key stored Hlook. rewrite lookup_empty in Hlook. discriminate. Defined.

(** X2 on a sample: two more writes under ["notion:ws1"]. *)
Lemma stamps_through_writes_witness :
  let w := scripted [] [] sample_store ∅ in
  exists stored,
    tokens (final (upsertAll [sample_record; sample_record] w)) !! "notion:ws1" =
    Some stored /\
    Token.created_at stored = Some 1001 /\
    forall u', Token.updated_at stored = Some u' -> 1000 <= u'.
Proof.
  destruct (stamps_through_writes [sample_record; sample_record]
              (scripted [] [] sample_store ∅) "notion:ws1" sample_record 1001
              eq_refl eq_refl (scripted_clock_monotone _ _ _ _)
              (sample_store_stamps_read _ _ _))
    as (stored & Hs & Hc & Hu).
  exists stored. split; [exact Hs|]. split; [exact Hc|].
  intros u' Hu'. exact (Hu 1000 u' eq_refl Hu').
Defined.

(** X3 on a sample: a first write into the empty store. *)
Lemma lookup_returns_own_record_witness :
  let w1 := final (upsertAll [sample_record] (scripted [] [] ∅ ∅)) in
  keyed (tokens w1) /\
  exists stored,
    settled (getToken Token.notion (JStr "ws1") w1) = Fulfilled (Some stored) /\
    js_String (Token.subject stored) = "ws1".
Proof.
  destruct (lookup_returns_own_record [sample_record] Token.notion (JStr "ws1")
              (scripted [] [] ∅ ∅) (Token.stamped sample_record 1002 1003)
              empty_keyed eq_refl)
    as (Hk & _ & Hsubject).
  split; [exact Hk|]. eexists. split; [reflexivity|exact Hsubject].
Defined.

(** ** The usage statistics *)

(** X5 on a sample: three records of two tools. *)
Lemma stats_add_up_witness :
  let w := with_log [used "notion" "search"; used "notion" "getSelf";
                   used "notion" "search"] in
  exists s,
    settled (stats InMemoryUsageStore w) = Fulfilled s /\
    total s = 3 /\
    table_sum (byProvider s) = 3 /\
    table_sum (byTool s) = 3 /\
    byTool s !! "notion:search" = Some (Num 2).
Proof.
  destruct (stats_add_up
              (with_log [used "notion" "search"; used "notion" "getSelf";
                       used "notion" "search"]))
    as (s & Hs & Hp & Ht).
  { repeat constructor. }
  exists s. split; [exact Hs|].
  rewrite stats_run in Hs. cbn [settled] in Hs. injection Hs as <-.
  split; [reflexivity|]. split; [exact Hp|]. split; [exact Ht|].
  vm_compute. reflexivity.
Defined.

(** The condition of X5 is needed: under the provider name
    [toString], [byProvider] holds a string, and its counts sum to 0
    for a total of 1. *)
Lemma stats_with_an_inherited_name :
  let w := with_log [used "toString" "search"] in
  exists s,
    settled (stats InMemoryUsageStore w) = Fulfilled s /\
    total s = 1 /\
    byProvider s !! "toString" = Some Text /\
    table_sum (byProvider s) = 0 /\
    table_sum (byTool s) = 1.
Proof. cbv zeta. rewrite stats_run. eexists. split; [reflexivity|]. vm_compute. done. Qed.

(** ** The registry of providers *)

(** X7 on a sample: two providers that both have a tool [getSelf]. *)
Lemma full_names_distinct_witness :
  let hub := [@NotionProvider sample_builtins oauth_cfg InMemoryTokenStore None;
              {| name := "mirror";
                 tools := [@getSelf_tool sample_builtins static_cfg InMemoryTokenStore];
                 usage := None |}] in
  snd (ProviderRegistry.registerAll hub []) = None /\
  NoDup (List.map reg_name (fst (ProviderRegistry.registerAll hub []))) /\
  List.map reg_name (fst (ProviderRegistry.registerAll hub [])) =
  ["notion.getSelf"; "notion.search"; "notion.fetchPage"; "notion.queryDatabase";
   "notion.createPage"; "mirror.getSelf"].
Proof.
  destruct (full_names_distinct
              [@NotionProvider sample_builtins oauth_cfg InMemoryTokenStore None;
               {| name := "mirror";
                  tools := [@getSelf_tool sample_builtins static_cfg InMemoryTokenStore];
                  usage := None |}])
    as (Hnone & Hnd & Hnames).
  - apply (bool_decide_unpack _). vm_compute. exact I.
  - repeat constructor; try reflexivity; apply (bool_decide_unpack _); vm_compute; exact I.
  - split; [exact Hnone|]. split; [exact Hnd|]. rewrite Hnames. reflexivity.
Defined.

(** A registry with the same provider twice: the server turns down the
    first full name that comes again, and [registerAll] throws with the
    tools of the first provider registered. *)
Lemma full_names_clash :
  let notion := @NotionProvider sample_builtins oauth_cfg InMemoryTokenStore None in
  let done := ProviderRegistry.registerAll [notion; notion] [] in
  snd done = Some (Error "Tool notion.getSelf is already registered") /\
  List.map reg_name (fst done) =
  ["notion.getSelf"; "notion.search"; "notion.fetchPage"; "notion.queryDatabase";
   "notion.createPage"].
Proof. vm_compute. split; reflexivity. Qed.

(** ** The tool handlers *)

(** X8 on a sample: [getSelf] for a workspace of which the store holds
    nothing. *)
Lemma missing_credential_is_reported_witness :
  let p := @NotionProvider sample_builtins oauth_cfg InMemoryTokenStore
             (Some InMemoryUsageStore) in
  let w := scripted [] [] sample_store ∅ in
  let run := instrumented p (@getSelf_tool sample_builtins oauth_cfg InMemoryTokenStore)
               for_ws2 w in
  settled run =
  Rejected (Error ("No Notion token for subject 'ws2'. " +:+
                   "Visit /auth/notion or set NOTION_STATIC_TOKEN.")) /\
  fetched (emitted run) = [] /\
  arr (final run) =
  [{| Usage.provider := "notion";
      Usage.tool_name := "getSelf";
      Usage.subject := None;
      Usage.success := false;
      Usage.latency_ms := Some 1;
      Usage.error_message :=
        Some ("No Notion token for subject 'ws2'. " +:+
              "Visit /auth/notion or set NOTION_STATIC_TOKEN.") |}].
Proof.
  destruct (@missing_credential_is_reported sample_builtins oauth_cfg
              (Some InMemoryUsageStore)
              (@getSelf_tool sample_builtins oauth_cfg InMemoryTokenStore)
              [("subject", JStr "ws2")]
              (scripted [] [] sample_store ∅))
    as (Hset & Hfetched & _ & _ & Harr).
  - right. reflexivity.
  - reflexivity.
  - apply list_elem_of_In. simpl. tauto.
  - reflexivity.
  - split; [exact Hset|]. split; [exact Hfetched|]. exact Harr.
Defined.

(** X9 on a sample: the upstream answers 403. *)
Lemma no_refresh_without_cause_witness :
  let w := scripted [answer 403 ""] [] sample_store ∅ in
  let run := @invoke sample_builtins oauth_cfg InMemoryTokenStore "getSelf" (JStr "ws1")
               "users/me" "GET" JUndefined w in
  settled run = Rejected (Error "getSelf failed: null") /\
  sends (emitted run) = [EvSend "GET" "https://api.notion.com/v1/users/me" JUndefined] /\
  store_writes (emitted run) = [] /\
  tokens (final run) = tokens w.
Proof.
  destruct (@no_refresh_without_cause sample_builtins oauth_cfg InMemoryTokenStore
              "getSelf" (JStr "ws1")
              "users/me" "GET" JUndefined (scripted [answer 403 ""] [] sample_store ∅)
              sample_record {| ok := false; status := 403; json := JNull |}
              eq_refl eq_refl eq_refl)
    as (Hset & Hsend & _ & Hw & _ & Ht).
  { right. left. discriminate. }
  split; [exact Hset|]. split; [exact Hsend|]. split; [exact Hw|exact Ht].
Defined.

(** X10 on a sample: 401, then a refresh answered 200 without a
    body. *)
Lemma refresh_without_body_witness :
  let w := scripted [answer 401 ""; answer 200 ""] [] sample_store ∅ in
  let run := @invoke sample_builtins oauth_cfg InMemoryTokenStore "getSelf" (JStr "ws1")
               "users/me" "GET" JUndefined w in
  settled run =
  Rejected (MkExn "TypeError" "Cannot read properties of null (reading 'access_token')") /\
  sends (emitted run) =
  [EvSend "GET" "https://api.notion.com/v1/users/me" JUndefined;
   EvSend "POST" "https://api.notion.com/v1/oauth/token" (refresh_body (JStr "rt0"))] /\
  store_writes (emitted run) = [] /\
  tokens (final run) = tokens w.
Proof.
  destruct (@refresh_without_body sample_builtins oauth_cfg InMemoryTokenStore
              "getSelf" (JStr "ws1") "users/me" "GET" JUndefined
              (scripted [answer 401 ""; answer 200 ""] [] sample_store ∅)
              sample_record {| ok := false; status := 401; json := JNull |} JNull
              eq_refl eq_refl eq_refl eq_refl eq_refl eq_refl eq_refl)
    as (Hset & Hsend & Hw & _ & Ht).
  split; [exact Hset|]. split; [exact Hsend|]. split; [exact Hw|exact Ht].
Defined.

(** X11 on a sample: an invocation with a refresh, in a store that
    holds one record. *)
Lemma invocation_touches_one_record_witness :
  let w := scripted [answer 401 ""; answer 200 "fresh"; answer 200 "me"] []
             sample_store ∅ in
  let run := @invoke sample_builtins oauth_cfg InMemoryTokenStore "getSelf" (JStr "ws1")
               "users/me" "GET" JUndefined w in
  (forall k, k <> "notion:ws1" -> tokens (final run) !! k = tokens w !! k) /\
  Forall (fun written => fst written = "notion:ws1") (store_writes (emitted run)) /\
  length (store_writes (emitted run)) = 1%nat /\
  keyed (tokens (final run)).
Proof.
  destruct (@invocation_touches_one_record sample_builtins oauth_cfg "getSelf"
              (JStr "ws1") "users/me" "GET" JUndefined
              (scripted [answer 401 ""; answer 200 "fresh"; answer 200 "me"] []
                 sample_store ∅) sample_store_keyed)
    as (Hother & Hwrites & Hk & _).
  split; [exact Hother|]. split; [exact Hwrites|]. split; [reflexivity|exact Hk].
Defined.

(** X12 on a sample: the same invocation through the handler of
    [getSelf]. *)
Lemma invocation_is_bounded_witness :
  let run := @getSelf sample_builtins oauth_cfg InMemoryTokenStore for_ws1
               (scripted [answer 401 ""; answer 200 "fresh"; answer 200 "me"] []
                  sample_store ∅) in
  length (sends (emitted run)) = 3%nat /\
  (length (fetched (emitted run)) <= 10)%nat /\
  (length (store_writes (emitted run)) <= 1)%nat.
Proof.
  destruct (@invocation_is_bounded sample_builtins oauth_cfg InMemoryTokenStore None
              (@getSelf_tool sample_builtins oauth_cfg InMemoryTokenStore) [("subject", JStr "ws1")]
              (scripted [answer 401 ""; answer 200 "fresh"; answer 200 "me"] []
                 sample_store ∅))
    as (_ & Hf & Hw).
  { apply list_elem_of_In. simpl. tauto. }
  split; [reflexivity|]. split; [exact Hf|exact Hw].
Defined.

(** X13 on a sample: a failed invocation is counted as well. *)
Lemma every_invocation_is_counted_witness :
  let p := @NotionProvider sample_builtins oauth_cfg InMemoryTokenStore (Some InMemoryUsageStore) in
  let w := with_log [used "notion" "getSelf"] in
  let run := instrumented p (@getSelf_tool sample_builtins oauth_cfg InMemoryTokenStore)
               for_ws1 w in
  exists entry after,
    arr (final run) = arr w ++ [entry] /\
    Usage.success entry = false /\
    settled (stats InMemoryUsageStore (final run)) = Fulfilled after /\
    total after = 2 /\
    byTool after !! "notion:getSelf" = Some (Num 2).
Proof.
  destruct (@every_invocation_is_counted sample_builtins oauth_cfg
              (@getSelf_tool sample_builtins oauth_cfg InMemoryTokenStore) [("subject", JStr "ws1")]
              (with_log [used "notion" "getSelf"]))
    as (entry & before & after & n & Harr & _ & _ & Hsuccess & Hbefore & Hafter &
        Htotal & _ & Hn & Hcount).
  { apply list_elem_of_In. simpl. tauto. }
  exists entry, after. split; [exact Harr|]. split; [exact Hsuccess|].
  split; [exact Hafter|].
  rewrite stats_run in Hbefore. cbn [settled] in Hbefore. injection Hbefore as <-.
  split; [exact Htotal|].
  unfold counted in Hn. destruct (n =? 0) in Hn.
  - vm_compute in Hn. discriminate Hn.
  - vm_compute in Hn. injection Hn as <-. exact Hcount.
Defined.


(** ** The callback route *)

(** X16 on a sample: the grant of the workspace [ws1]. *)
Lemma granted_credential_is_found_witness :
  let w := scripted [answer 200 "grant"] [] ∅ ∅ in
  let run := @callback sample_builtins oauth_cfg InMemoryTokenStore (Some "c0de") None w in
  exists stored,
    settled (@getAccessToken oauth_cfg InMemoryTokenStore (JStr "ws1") (final run)) =
    Fulfilled (JStr "at1", Some stored).
Proof.
  assert (Hrun : settled (@callback sample_builtins oauth_cfg InMemoryTokenStore (Some "c0de") None
                             (scripted [answer 200 "grant"] [] ∅ ∅)) =
                 Fulfilled authorized) by (vm_compute; reflexivity).
  destruct (@granted_credential_is_found sample_builtins oauth_cfg (Some "c0de") None
              (scripted [answer 200 "grant"] [] ∅ ∅) authorized
              eq_refl Hrun eq_refl)
    as (headers & body & res & stored & Hres & _ & _ & Hget & _).
  exists stored.
  rewrite httpWithRetry_run in Hres. cbn [settled] in Hres. injection Hres as <-.
  exact Hget.
Defined.

(** X17 on a sample: the token endpoint answers 200 without a body. *)
Lemma callback_without_grant_witness :
  let w := scripted [answer 200 ""] [] ∅ ∅ in
  let run := @callback sample_builtins oauth_cfg InMemoryTokenStore (Some "c0de") (Some "s1") w in
  settled run =
  Fulfilled {| reply_status := 500;
               reply_text := "❌ Notion OAuth failed: " +:+
                             "Cannot read properties of null (reading 'workspace_id')" |} /\
  store_writes (emitted run) = [] /\
  tokens (final run) = tokens w.
Proof.
  apply (@callback_without_grant sample_builtins oauth_cfg InMemoryTokenStore (Some "c0de")
           (Some "s1") (scripted [answer 200 ""] [] ∅ ∅)).
  - discriminate.
  - left. reflexivity.
  - intros headers body res Hres.
    rewrite httpWithRetry_run in Hres. cbn [settled] in Hres.
    injection Hres as <-. vm_compute. split; reflexivity.
Defined.

(** ** Wait hints *)

(** X18 on a sample: a 429 that asks for 120 seconds, with
    [maxDelayMs] at 3000. *)
Lemma retry_after_overrides_backoff_witness :
  let run := @httpWithRetry sample_builtins "GET" "https://api.notion.com/v1/users/me" []
               JUndefined
               {| retries := Some 3%nat; baseDelayMs := Some 300; maxDelayMs := Some 3000 |}
               (scripted [throttled "120"; answer 200 "me"] [] ∅ ∅) in
  slept (emitted run) !! 0%nat = Some (Some 120000).
Proof.
  destruct (@retry_after_overrides_backoff sample_builtins "GET"
              "https://api.notion.com/v1/users/me" [] JUndefined
              {| retries := Some 3%nat; baseDelayMs := Some 300; maxDelayMs := Some 3000 |}
              (scripted [throttled "120"; answer 200 "me"] [] ∅ ∅) 0%nat "120")
    as (_ & Hn).
  - vm_compute. lia.
  - reflexivity.
  - apply (Hn 120 eq_refl). lia.
Defined.

(** Beyond 2^53 the hint is rounded: the header [9007199254740993]
    gives a sleep of 9007199254740992000 milliseconds. *)
Lemma retry_after_is_rounded :
  let run := @httpWithRetry sample_builtins "GET" "https://api.notion.com/v1/users/me" []
               JUndefined
               {| retries := Some 3%nat; baseDelayMs := Some 300; maxDelayMs := Some 3000 |}
               (scripted [throttled "9007199254740993"; answer 200 "me"] [] ∅ ∅) in
  parseInt "9007199254740993" = Some 9007199254740992 /\
  slept (emitted run) !! 0%nat = Some (Some 9007199254740992000).
Proof. vm_compute. split; reflexivity. Qed.
